(** * NuDB: the arena allocator and the bucket cache

    A shallow embedding of [nudb/detail/arena.hpp] and
    [nudb/detail/cache.hpp], followed by the properties of the two
    components.

    - [std::size_t] is a 64-bit unsigned integer: a [Z] in [0, 2^64) whose
      additions, subtractions and multiplications wrap around.
    - The linked lists [used_] and [free_] of the arena are Rocq lists, head
      first; every element carries the address of the system block it lives
      in.
    - [new] and [delete[]] act on an explicit model of the system heap:
      a supply of fresh block addresses, the table of live blocks with the
      size they were requested with, and the bytes written so far.
    - A pointer into an arena is a pair (block address, offset in the
      payload of the element stored there). *)

From Stdlib Require Import ZArith Lia List Bool.
From coqutil Require Import Byte.
From stdpp Require Import gmap list.

Local Open Scope Z_scope.

(** ** [std::size_t] arithmetic *)

Module SizeT.

Definition modulus : Z := 2 ^ 64.

Definition wrap (z : Z) : Z := z mod modulus.

Definition add (a b : Z) : Z := wrap (a + b).
Definition sub (a b : Z) : Z := wrap (a - b).
Definition mul (a b : Z) : Z := wrap (a * b).

(** Values a [std::size_t] variable can hold. *)
Definition in_range (z : Z) : Prop := 0 <= z < modulus.

End SizeT.

(** ** Outcome of an operation

    [BOOST_ASSERT], where the build checks assertions, aborts the program
    when its condition is false; reading bytes that were never written, or
    writing past the end of a stream, has no defined result. *)

Inductive outcome (A : Type) : Type :=
| Ok (a : A)
| AssertionFailed
| UndefinedBehavior.

Arguments Ok {A} a.
Arguments AssertionFailed {A}.
Arguments UndefinedBehavior {A}.

(** ** The system heap *)

Definition addr := nat.

(** Block address and byte offset inside the payload that follows the
    element header ([this + 1] in [element::alloc]). *)
Definition ptr : Type := addr * Z.

Record heap := mk_heap {
  next_addr : addr;          (* supply of fresh block addresses *)
  live : gmap addr Z;        (* live blocks, with their size in bytes *)
  bytes : gmap ptr byte      (* the bytes written so far *)
}.

Definition empty_heap : heap := mk_heap 0%nat ∅ ∅.

(** [new std::uint8_t[size]] *)
Definition sys_new (size : Z) (h : heap) : addr * heap :=
  (next_addr h,
   mk_heap (S (next_addr h)) (<[next_addr h := size]> (live h)) (bytes h)).

(** [delete[] p] *)
Definition sys_delete (a : addr) (h : heap) : heap :=
  mk_heap (next_addr h) (delete a (live h)) (bytes h).

(** ** Memory access *)

Definition ptr_add (p : ptr) (k : Z) : ptr := (p.1, p.2 + k).

(** Reads [n] bytes from [p] on; [None] when one of them was never
    written. *)
Fixpoint load_bytes (m : gmap ptr byte) (p : ptr) (n : nat)
  : option (list byte) :=
  match n with
  | O => Some []
  | S n' =>
      match m !! p, load_bytes m (ptr_add p 1) n' with
      | Some b, Some bs => Some (b :: bs)
      | _, _ => None
      end
  end.

(** Writes the bytes of [l] from [p] on. *)
Fixpoint store_bytes (p : ptr) (l : list byte) (m : gmap ptr byte)
  : gmap ptr byte :=
  match l with
  | [] => m
  | b :: l' => store_bytes (ptr_add p 1) l' (<[p := b]> m)
  end.

(** ** [arena_t::element] *)

Module Element.

Record element := mk {
  address : addr;
  capacity_ : Z;
  used_ : Z
}.

(** [sizeof(element)]: [capacity_], [used_] and [next], eight bytes each. *)
Definition sizeof : Z := 24.

Definition clear (e : element) : element :=
  mk (address e) (capacity_ e) 0.

Definition remain (e : element) : Z :=
  SizeT.sub (capacity_ e) (used_ e).

Definition capacity (e : element) : Z := capacity_ e.

(** Returns [None] for [nullptr]. *)
Definition alloc (n : Z) (e : element) : option ptr * element :=
  if n >? SizeT.sub (capacity_ e) (used_ e) then (None, e)
  else (Some (address e, used_ e),
        mk (address e) (capacity_ e) (SizeT.add (used_ e) n)).

End Element.

Abbreviation element := Element.element.

(** ** [arena_t] *)

Module Arena.

Record arena_t := mk {
  allocSize_ : Z;
  nalloc_ : Z;
  used_ : list element;
  free_ : list element;
  when_ : Z                (* steady clock reading, in nanoseconds *)
}.

(** [arena_t() = default], constructed at clock reading [now]. *)
Definition init (now : Z) : arena_t := mk 0 0 [] [] now.

(** [dealloc(list)]: every element of the list is deleted, the list is
    left null. *)
Fixpoint dealloc (l : list element) (h : heap) : list element * heap :=
  match l with
  | [] => ([], h)
  | e :: next => dealloc next (sys_delete (Element.address e) h)
  end.

(** The loop of [clear()], on the current [used_] and [free_]. *)
Fixpoint clear_loop (allocSize : Z) (used free : list element) (h : heap)
  : list element * heap :=
  match used with
  | [] => (free, h)
  | e0 :: next =>
      let e := Element.clear e0 in
      if Element.remain e =? allocSize
      then clear_loop allocSize next (e :: free) h
      else clear_loop allocSize next free (sys_delete (Element.address e) h)
  end.

Definition clear (a : arena_t) (h : heap) : arena_t * heap :=
  let '(free, h') := clear_loop (allocSize_ a) (used_ a) (free_ a) h in
  (mk (allocSize_ a) (nalloc_ a) [] free (when_ a), h').

Definition shrink_to_fit (a : arena_t) (h : heap) : arena_t * heap :=
  let '(free, h') := dealloc (free_ a) h in
  (mk (allocSize_ a) (nalloc_ a) (used_ a) free (when_ a), h').

Definition one_second : Z := 1000000000.

Section PeriodicActivity.

(** [static_cast<std::size_t>(std::ceil(nalloc_ /
    duration_cast<duration<float>>(elapsed).count()))]: the rate is
    computed in single precision floating point.  It is kept abstract,
    as a function of the byte counter and of the elapsed ticks. *)
Variable rate_of : Z -> Z -> Z.

(** [now] is the value of [clock_type::now()]. *)
Definition periodic_activity (now : Z) (a : arena_t) (h : heap)
  : arena_t * heap :=
  let elapsed := now - when_ a in
  if elapsed <? one_second then (a, h)
  else
    let rate := rate_of (nalloc_ a) elapsed in
    if rate >=? SizeT.mul (allocSize_ a) 2 then
      (* adjust up *)
      let allocSize := Z.max rate (SizeT.mul (allocSize_ a) 2) in
      let '(free, h') := dealloc (free_ a) h in
      (mk allocSize 0 (used_ a) free now, h')
    else if rate <=? allocSize_ a / 2 then
      (* adjust down *)
      let allocSize := allocSize_ a / 2 in
      let '(free, h') := dealloc (free_ a) h in
      (mk allocSize 0 (used_ a) free now, h')
    else
      (mk (allocSize_ a) 0 (used_ a) (free_ a) now, h).

End PeriodicActivity.

(** [n = 8 * ((n + 7) / 8)] *)
Definition round8 (n : Z) : Z := SizeT.mul 8 (SizeT.add n 7 / 8).

(** [nalloc_ += n; return used_->alloc(n);] *)
Definition bump (n : Z) (a : arena_t) : option ptr * arena_t :=
  match used_ a with
  | [] => (None, a)
  | u :: next =>
      let '(p, u') := Element.alloc n u in
      (p, mk (allocSize_ a) (SizeT.add (nalloc_ a) n) (u' :: next)
             (free_ a) (when_ a))
  end.

(** Third path of [alloc]: a new element. *)
Definition alloc_new (n : Z) (a : arena_t) (h : heap)
  : option ptr * arena_t * heap :=
  let size := Z.max (allocSize_ a) n in
  let '(p, h') := sys_new (SizeT.add Element.sizeof size) h in
  let e := Element.mk p size 0 in
  (bump n (mk (allocSize_ a) (nalloc_ a) (e :: used_ a) (free_ a) (when_ a)),
   h').

(** Second path of [alloc]: the head of the free list, when it has room. *)
Definition alloc_free (n : Z) (a : arena_t) (h : heap)
  : option ptr * arena_t * heap :=
  match free_ a with
  | e :: next =>
      if Element.remain e >=? n
      then (bump n (mk (allocSize_ a) (nalloc_ a) (e :: used_ a) next
                       (when_ a)), h)
      else alloc_new n a h
  | [] => alloc_new n a h
  end.

(** [alloc(n)], in a build that checks assertions ([checked = true]) or in
    one that defines [NDEBUG] ([checked = false]), where
    [BOOST_ASSERT(n != 0)] expands to nothing. *)
Definition alloc_build (checked : bool) (n0 : Z) (a : arena_t) (h : heap)
  : outcome (option ptr * arena_t * heap) :=
  if checked && (n0 =? 0) then AssertionFailed
  else
    let n := round8 n0 in
    match used_ a with
    | u :: _ =>
        if Element.remain u >=? n then Ok (bump n a, h)
        else Ok (alloc_free n a h)
    | [] => Ok (alloc_free n a h)
    end.

(** [alloc(n)] with the assertion checked. *)
Definition alloc (n0 : Z) (a : arena_t) (h : heap)
  : outcome (option ptr * arena_t * heap) :=
  alloc_build true n0 a h.

(** [swap(lhs, rhs)]: only [nalloc_] and [used_] change sides. *)
Definition swap (lhs rhs : arena_t) : arena_t * arena_t :=
  (mk (allocSize_ lhs) (nalloc_ rhs) (used_ rhs) (free_ lhs) (when_ lhs),
   mk (allocSize_ rhs) (nalloc_ lhs) (used_ lhs) (free_ rhs) (when_ rhs)).

(** [~arena_t()]: both lists are given back to the system. *)
Definition destroy (a : arena_t) (h : heap) : heap :=
  let '(_, h1) := dealloc (used_ a) h in
  let '(_, h2) := dealloc (free_ a) h1 in
  h2.

(** [arena_t(arena_t&& other)], at clock reading [now]: the new arena, and
    what is left in [other]. *)
Definition move (other : arena_t) (now : Z) : arena_t * arena_t :=
  (mk (allocSize_ other) (nalloc_ other) (used_ other) (free_ other)
      (when_ other),
   mk 0 0 [] [] now).

End Arena.

(** ** Bucket views *)

Module Bucket.

(** Modelled from the spec: [nudb/detail/bucket.hpp] and the stream classes
    it writes to are not part of the sources at hand.  A bucket is a view
    over a [block_size] contiguous byte buffer: a 16 bit entry count, a
    48 bit spill offset, then [count] entries of 8 + 6 + 6 bytes (hash,
    data offset, value size), all big-endian. *)
Record bucket := mk {
  block_size_ : Z;
  p_ : ptr
}.

Definition block_size (b : bucket) : Z := block_size_ b.

Record entry := mk_entry {
  hash : Z;      (* 64 bits *)
  offset : Z;    (* 48 bits *)
  size : Z       (* 48 bits *)
}.

(** What a view shows: the spill offset and the entry array; the entry
    count is the length of the array. *)
Record contents := mk_contents {
  spill : Z;
  entries : list entry
}.

Definition count (c : contents) : Z := Z.of_nat (length (entries c)).

Definition header_size : Z := 8.
Definition entry_size : Z := 20.

(** Modelled from the spec: [max_entries(block_size, key_size) =
    (block_size - 8) / 20]. *)
Definition max_entries (block_size : Z) : Z :=
  (block_size - header_size) / entry_size.

(** Big-endian fields of [w] bytes. *)
Fixpoint be_bytes (w : nat) (v : Z) : list byte :=
  match w with
  | O => []
  | S w' => byte.of_Z (Z.shiftr v (8 * Z.of_nat w')) :: be_bytes w' v
  end.

Fixpoint be_value (l : list byte) : Z :=
  match l with
  | [] => 0
  | b :: l' =>
      Z.shiftl (byte.unsigned b) (8 * Z.of_nat (length l')) + be_value l'
  end.

Definition serialize_entry (e : entry) : list byte :=
  be_bytes 8 (hash e) ++ be_bytes 6 (offset e) ++ be_bytes 6 (size e).

Definition parse_entry (l : list byte) : entry :=
  mk_entry (be_value (take 8 l))
           (be_value (take 6 (drop 8 l)))
           (be_value (take 6 (drop 14 l))).

Fixpoint parse_entries (k : nat) (l : list byte) : list entry :=
  match k with
  | O => []
  | S k' => parse_entry (take 20 l) :: parse_entries k' (drop 20 l)
  end.

(** Modelled from the spec: the on-wire form of a bucket, header then
    entries, without padding. *)
Definition serialize (c : contents) : list byte :=
  be_bytes 2 (count c) ++ be_bytes 6 (spill c)
    ++ concat (map serialize_entry (entries c)).

(** Modelled from the spec: the contents seen through a view; [None] when
    the view covers bytes that were never written. *)
Definition read (h : heap) (b : bucket) : option contents :=
  match load_bytes (bytes h) (p_ b) 8 with
  | None => None
  | Some hdr =>
      let k := Z.to_nat (be_value (take 2 hdr)) in
      match load_bytes (bytes h) (ptr_add (p_ b) header_size) (20 * k) with
      | None => None
      | Some body =>
          Some (mk_contents (be_value (drop 2 hdr)) (parse_entries k body))
      end
  end.

(** Modelled from the spec: [bucket(block_size, p, empty)], the view of an
    empty bucket over [block_size] zeroed bytes. *)
Definition make_empty (block_size : Z) (p : ptr) (h : heap)
  : bucket * heap :=
  (mk block_size p,
   mk_heap (next_addr h) (live h)
     (store_bytes p (replicate (Z.to_nat block_size) Byte.x00) (bytes h))).

(** Modelled from the spec: [write(os)], serializing the contents of the
    view in on-wire form into a stream over [size] bytes at [p]. *)
Definition write (b : bucket) (p : ptr) (size : Z) (h : heap)
  : outcome heap :=
  match read h b with
  | None => UndefinedBehavior
  | Some c =>
      let out := serialize c in
      if Z.of_nat (length out) >? size then UndefinedBehavior
      else Ok (mk_heap (next_addr h) (live h) (store_bytes p out (bytes h)))
  end.

End Bucket.

Abbreviation bucket := Bucket.bucket.

(** ** [cache_t] *)

Module Cache.

(** Bucket indices. *)
Abbreviation nbuck_t := N.

Record cache_t := mk {
  key_size_ : Z;
  block_size_ : Z;
  arena_ : Arena.arena_t;
  map_ : gmap N ptr
}.

(** [cache_t()]: a cache that will never have inserts. *)
Definition init0 (now : Z) : cache_t := mk 0 0 (Arena.init now) ∅.

(** [cache_t(key_size, block_size)] *)
Definition init (key_size block_size : Z) (now : Z) : cache_t :=
  mk key_size block_size (Arena.init now) ∅.

Definition size (c : cache_t) : nat := base.size (map_ c).

Definition empty (c : cache_t) : bool := bool_decide (map_ c = ∅).

Definition clear (c : cache_t) (h : heap) : cache_t * heap :=
  let '(a, h') := Arena.clear (arena_ c) h in
  (mk (key_size_ c) (block_size_ c) a ∅, h').

Definition shrink_to_fit (c : cache_t) (h : heap) : cache_t * heap :=
  let '(a, h') := Arena.shrink_to_fit (arena_ c) h in
  (mk (key_size_ c) (block_size_ c) a (map_ c), h').

(** The value behind the returned iterator, [None] for [end()]. *)
Definition find (n : nbuck_t) (c : cache_t) : option (nbuck_t * bucket) :=
  match map_ c !! n with
  | None => None
  | Some p => Some (n, Bucket.mk (block_size_ c) p)
  end.

(** [std::unordered_map::emplace]: an existing mapping is kept.  Returns
    the pointer mapped at the returned position and the new map. *)
Definition emplace (n : nbuck_t) (p : ptr) (m : gmap N ptr)
  : ptr * gmap N ptr :=
  match m !! n with
  | Some q => (q, m)
  | None => (p, <[n := p]> m)
  end.

Definition create (n : nbuck_t) (c : cache_t) (h : heap)
  : outcome (bucket * cache_t * heap) :=
  match Arena.alloc (block_size_ c) (arena_ c) h with
  | Ok (Some p, a, h1) =>
      let '(_, m) := emplace n p (map_ c) in
      let '(b, h2) := Bucket.make_empty (block_size_ c) p h1 in
      Ok (b, mk (key_size_ c) (block_size_ c) a m, h2)
  | Ok (None, _, _) => UndefinedBehavior
  | AssertionFailed => AssertionFailed
  | UndefinedBehavior => UndefinedBehavior
  end.

Definition insert (n : nbuck_t) (b : bucket) (c : cache_t) (h : heap)
  : outcome (nbuck_t * bucket * cache_t * heap) :=
  match Arena.alloc (Bucket.block_size b) (arena_ c) h with
  | Ok (Some p, a, h1) =>
      match Bucket.write b p (Bucket.block_size b) h1 with
      | Ok h2 =>
          let '(q, m) := emplace n p (map_ c) in
          Ok (n, Bucket.mk (block_size_ c) q,
              mk (key_size_ c) (block_size_ c) a m, h2)
      | AssertionFailed => AssertionFailed
      | UndefinedBehavior => UndefinedBehavior
      end
  | Ok (None, _, _) => UndefinedBehavior
  | AssertionFailed => AssertionFailed
  | UndefinedBehavior => UndefinedBehavior
  end.

(** [transform::operator()]: the value an iterator of the cache shows for
    an entry of the map. *)
Definition transform (c : cache_t) (e : nbuck_t * ptr)
  : nbuck_t * bucket :=
  (e.1, Bucket.mk (block_size_ c) e.2).

(** The values between [begin()] and [end()], in the order of the map,
    which for an unordered map is not specified. *)
Definition range (c : cache_t) : list (nbuck_t * bucket) :=
  transform c <$> map_to_list (map_ c).

Definition swap (lhs rhs : cache_t) : cache_t * cache_t :=
  let '(al, ar) := Arena.swap (arena_ lhs) (arena_ rhs) in
  (mk (key_size_ rhs) (block_size_ rhs) al (map_ rhs),
   mk (key_size_ lhs) (block_size_ lhs) ar (map_ lhs)).

End Cache.

(** ** Traces of cache operations *)

Module Trace.

Inductive op :=
| Create (n : Cache.nbuck_t)
| Insert (n : Cache.nbuck_t) (b : bucket)
| Find (n : Cache.nbuck_t).

Definition step (o : op) (c : Cache.cache_t) (h : heap)
  : outcome (Cache.cache_t * heap) :=
  match o with
  | Create n =>
      match Cache.create n c h with
      | Ok (_, c', h') => Ok (c', h')
      | AssertionFailed => AssertionFailed
      | UndefinedBehavior => UndefinedBehavior
      end
  | Insert n b =>
      match Cache.insert n b c h with
      | Ok (_, _, c', h') => Ok (c', h')
      | AssertionFailed => AssertionFailed
      | UndefinedBehavior => UndefinedBehavior
      end
  | Find n => let _ := Cache.find n c in Ok (c, h)
  end.

Fixpoint run (ops : list op) (c : Cache.cache_t) (h : heap)
  : outcome (Cache.cache_t * heap) :=
  match ops with
  | [] => Ok (c, h)
  | o :: ops' =>
      match step o c h with
      | Ok (c', h') => run ops' c' h'
      | AssertionFailed => AssertionFailed
      | UndefinedBehavior => UndefinedBehavior
      end
  end.

(** The indices passed to [create] or [insert]. *)
Fixpoint touched (ops : list op) : gset N :=
  match ops with
  | [] => ∅
  | Create n :: ops' => {[ n ]} ∪ touched ops'
  | Insert n _ :: ops' => {[ n ]} ∪ touched ops'
  | Find _ :: ops' => touched ops'
  end.

End Trace.

(** ** Well-formed states *)

Definition element_wf (e : element) : Prop :=
  0 <= Element.used_ e /\ Element.used_ e <= Element.capacity_ e
  /\ Element.capacity_ e < SizeT.modulus.

Definition arena_wf (a : Arena.arena_t) : Prop :=
  SizeT.in_range (Arena.allocSize_ a)
  /\ SizeT.in_range (Arena.nalloc_ a)
  /\ Forall element_wf (Arena.used_ a)
  /\ Forall element_wf (Arena.free_ a).

(** Every allocation cursor is a multiple of 8. *)
Definition arena_aligned (a : Arena.arena_t) : Prop :=
  Forall (fun e => Element.used_ e mod 8 = 0) (Arena.used_ a)
  /\ Forall (fun e => Element.used_ e mod 8 = 0) (Arena.free_ a).

(** Addresses handed out by the system are below the next fresh one. *)
Definition heap_wf (h : heap) : Prop :=
  forall ad, is_Some (live h !! ad) -> (ad < next_addr h)%nat.

(** The blocks of a list of elements. *)
Definition addresses (l : list element) : gset addr :=
  list_to_set (map Element.address l).


(** A rate function for examples: the exact quotient, rounded up. *)
Definition exact_rate (nalloc elapsed : Z) : Z :=
  (nalloc * Arena.one_second + elapsed - 1) / elapsed.

(** The elements of an arena live in distinct blocks handed out by the
    system. *)
Definition arena_inv (h : heap) (a : Arena.arena_t) : Prop :=
  arena_wf a
  /\ NoDup (Element.address <$> Arena.used_ a ++ Arena.free_ a)
  /\ Forall (fun e => (Element.address e < next_addr h)%nat)
       (Arena.used_ a ++ Arena.free_ a).

(** [l && l->remain() >= n], the test [alloc] makes on the head of a list. *)
Definition fits (n : Z) (l : list element) : bool :=
  match l with
  | e :: _ => Element.remain e >=? n
  | [] => false
  end.

(** A cache that can hold buckets: the block size is that of a key file
    block ([nsize_t], 32 bits) and has room for the bucket header. *)
Definition cache_wf (c : Cache.cache_t) : Prop :=
  arena_wf (Cache.arena_ c)
  /\ Bucket.header_size <= Cache.block_size_ c < 2 ^ 32.

(** A view [b] showing the contents [cont], which fit in its block. *)
Definition bucket_shows (h : heap) (b : bucket) (cont : Bucket.contents)
  : Prop :=
  0 < Bucket.block_size b < 2 ^ 32
  /\ Bucket.read h b = Some cont
  /\ Bucket.header_size + Bucket.entry_size * Bucket.count cont
     <= Bucket.block_size b.

(** The bytes a view over [p] shows when its contents are [cont]. *)
Definition extent (cont : Bucket.contents) : Z :=
  Bucket.header_size + Bucket.entry_size * Bucket.count cont.

(** The blob at [p] shows a bucket and lies below the cursor of an element
    in use. *)
Definition blob_ok (h : heap) (a : Arena.arena_t) (bs : Z) (p : ptr)
  : Prop :=
  exists e cont,
    e ∈ Arena.used_ a /\ Element.address e = p.1 /\ 0 <= p.2
    /\ Bucket.read h (Bucket.mk bs p) = Some cont
    /\ p.2 + extent cont <= Element.used_ e.

(** Every mapped blob is such a blob of the arena of the cache. *)
Definition cache_inv (h : heap) (c : Cache.cache_t) : Prop :=
  cache_wf c
  /\ arena_inv h (Cache.arena_ c)
  /\ map_Forall
       (fun _ p => blob_ok h (Cache.arena_ c) (Cache.block_size_ c) p)
       (Cache.map_ c).

(** Block sizes are 32 bit values. *)
Definition op_typed (o : Trace.op) : Prop :=
  match o with
  | Trace.Insert _ b => 0 <= Bucket.block_size b < 2 ^ 32
  | _ => True
  end.

(** ** A running example

    A bucket with one entry in a buffer outside of the arena (block 0), and a
    cache for key size 8 and block size 128. *)

Module Example.

Definition contents : Bucket.contents :=
  Bucket.mk_contents 7 [Bucket.mk_entry 258 4660 11].

Definition heap0 : heap :=
  mk_heap 1%nat {[ 0%nat := 128 ]}
    (store_bytes (0%nat, 0) (Bucket.serialize contents) ∅).

Definition source : bucket := Bucket.mk 128 (0%nat, 0).

Definition cache0 : Cache.cache_t := Cache.init 8 128 0.

Definition after (r : outcome (Cache.cache_t * heap))
  : Cache.cache_t * heap :=
  match r with
  | Ok s => s
  | _ => (cache0, heap0)
  end.

(** The state after [create(1)]. *)
Definition state1 : Cache.cache_t * heap :=
  Eval vm_compute in after (Trace.run [Trace.Create 1%N] cache0 heap0).

Definition ops : list Trace.op :=
  [Trace.Create 1%N; Trace.Find 1%N; Trace.Insert 2%N source;
   Trace.Create 1%N; Trace.Find 9%N].

End Example.

(** ** Sequences of arena operations *)

Module ArenaTrace.

Inductive op :=
| Alloc (n : Z)
| Clear
| ShrinkToFit
| PeriodicActivity (now : Z).

Section Run.

Variable rate_of : Z -> Z -> Z.

Definition step (o : op) (a : Arena.arena_t) (h : heap)
  : outcome (Arena.arena_t * heap) :=
  match o with
  | Alloc n =>
      match Arena.alloc n a h with
      | Ok (_, a', h') => Ok (a', h')
      | AssertionFailed => AssertionFailed
      | UndefinedBehavior => UndefinedBehavior
      end
  | Clear => Ok (Arena.clear a h)
  | ShrinkToFit => Ok (Arena.shrink_to_fit a h)
  | PeriodicActivity now => Ok (Arena.periodic_activity rate_of now a h)
  end.

Fixpoint run (ops : list op) (a : Arena.arena_t) (h : heap)
  : outcome (Arena.arena_t * heap) :=
  match ops with
  | [] => Ok (a, h)
  | o :: ops' =>
      match step o a h with
      | Ok (a', h') => run ops' a' h'
      | AssertionFailed => AssertionFailed
      | UndefinedBehavior => UndefinedBehavior
      end
  end.

End Run.

(** Requests are [std::size_t] values. *)
Definition typed (o : op) : Prop :=
  match o with
  | Alloc n => 0 <= n < SizeT.modulus
  | _ => True
  end.

(** Operations after which the regions handed out are still in use. *)
Definition keeps_regions (o : op) : Prop :=
  match o with
  | Clear => False
  | _ => True
  end.

(** The sizes requested, rounded as [alloc] rounds them. *)
Fixpoint requested (ops : list op) : Z :=
  match ops with
  | [] => 0
  | Alloc n :: ops' => Arena.round8 n + requested ops'
  | _ :: ops' => requested ops'
  end.

(** Operations that leave the byte counter running. *)
Definition no_tick (o : op) : Prop :=
  match o with
  | PeriodicActivity _ => False
  | _ => True
  end.

End ArenaTrace.

(** A rate function with values in [std::size_t], for examples. *)
Definition wrapped_rate (nalloc elapsed : Z) : Z :=
  SizeT.wrap (exact_rate nalloc elapsed).

(** The blocks in [l] are distinct, live and, together with the blocks of
    [base] that belong to others, they are all the live blocks. *)
Definition owns (base : gset addr) (h : heap) (l : list element) : Prop :=
  NoDup (Element.address <$> l)
  /\ dom (live h) = base ∪ addresses l
  /\ base ## addresses l
  /\ heap_wf h.

(** Every element of the free list is empty and of capacity [allocSize_]. *)
Definition free_uniform (a : Arena.arena_t) : Prop :=
  Forall (fun e => Element.used_ e = 0
                   /\ Element.capacity_ e = Arena.allocSize_ a)
    (Arena.free_ a).

(** What holds of an arena between two calls. *)
Definition arena_good (base : gset addr) (h : heap) (a : Arena.arena_t)
  : Prop :=
  arena_wf a /\ arena_aligned a /\ free_uniform a
  /\ owns base h (Arena.used_ a ++ Arena.free_ a).

(** The [n] bytes at [p] lie below the cursor of an element in use. *)
Definition region_in (a : Arena.arena_t) (p : ptr) (n : Z) : Prop :=
  exists e, e ∈ Arena.used_ a /\ Element.address e = p.1
            /\ 0 <= p.2 /\ p.2 + n <= Element.used_ e.

(** An arena session: two allocations, a tick after two seconds, one more
    allocation, then [clear], an allocation served from the free list and
    [shrink_to_fit]. *)
Definition example_session : list ArenaTrace.op :=
  [ArenaTrace.Alloc 100; ArenaTrace.Alloc 5000;
   ArenaTrace.PeriodicActivity 2000000000; ArenaTrace.Alloc 100;
   ArenaTrace.Clear; ArenaTrace.Alloc 8; ArenaTrace.ShrinkToFit].

(** ** Sessions of a cache: the operations above, [clear] and
    [shrink_to_fit] *)

Module Session.

Inductive op :=
| Do (o : Trace.op)
| Clear
| ShrinkToFit.

Definition step (o : op) (c : Cache.cache_t) (h : heap)
  : outcome (Cache.cache_t * heap) :=
  match o with
  | Do o' => Trace.step o' c h
  | Clear => Ok (Cache.clear c h)
  | ShrinkToFit => Ok (Cache.shrink_to_fit c h)
  end.

Fixpoint run (ops : list op) (c : Cache.cache_t) (h : heap)
  : outcome (Cache.cache_t * heap) :=
  match ops with
  | [] => Ok (c, h)
  | o :: ops' =>
      match step o c h with
      | Ok (c', h') => run ops' c' h'
      | AssertionFailed => AssertionFailed
      | UndefinedBehavior => UndefinedBehavior
      end
  end.

Definition typed (o : op) : Prop :=
  match o with
  | Do o' => op_typed o'
  | _ => True
  end.

End Session.

(** What holds of a cache between two calls. *)
Definition cache_good (base : gset addr) (h : heap) (c : Cache.cache_t)
  : Prop :=
  cache_inv h c /\ arena_good base h (Cache.arena_ c).

(** A cache session: a bucket is created, another one inserted, the cache is
    cleared and used again. *)
Definition example_cache_session : list Session.op :=
  [Session.Do (Trace.Create 1%N);
   Session.Do (Trace.Insert 2%N Example.source);
   Session.Do (Trace.Find 2%N);
   Session.Clear;
   Session.Do (Trace.Insert 4%N Example.source);
   Session.ShrinkToFit;
   Session.Do (Trace.Create 4%N)].

(** The state after [insert(3, source)] in the running example: the view
    returned, the cache and the heap. *)
Definition example_inserted : bucket * Cache.cache_t * heap :=
  Eval vm_compute in
    match Cache.insert 3%N Example.source Example.cache0 Example.heap0 with
    | Ok (_, v, c, h) => (v, c, h)
    | _ => (Example.source, Example.cache0, Example.heap0)
    end.

(** Two caches side by side, as the store keeps them: each is well formed
    with aligned cursors and a uniform free list, their elements live in
    distinct live blocks, and each map points into the used list of its own
    arena. *)
Definition pair_good (base : gset addr) (h : heap) (l r : Cache.cache_t)
  : Prop :=
  (cache_wf l /\ arena_aligned (Cache.arena_ l)
   /\ free_uniform (Cache.arena_ l))
  /\ (cache_wf r /\ arena_aligned (Cache.arena_ r)
      /\ free_uniform (Cache.arena_ r))
  /\ owns base h
       ((Arena.used_ (Cache.arena_ l) ++ Arena.free_ (Cache.arena_ l))
        ++ Arena.used_ (Cache.arena_ r) ++ Arena.free_ (Cache.arena_ r))
  /\ map_Forall
       (fun _ p => blob_ok h (Cache.arena_ l) (Cache.block_size_ l) p)
       (Cache.map_ l)
  /\ map_Forall
       (fun _ p => blob_ok h (Cache.arena_ r) (Cache.block_size_ r) p)
       (Cache.map_ r).

(** ** The benchmark driver *)

Module Bench.

(** [BenchProgress].  The [progress] printer it wraps is not part of the
    sources at hand: the pairs (amount, total) passed to it are recorded,
    oldest first.  The counters are [std::uint64_t]. *)
Record BenchProgress := mk_progress {
  shown : list (Z * Z);
  total_ : Z;
  batchStart_ : Z
}.

(** [BenchProgress(os, total)] *)
Definition init (total : Z) : BenchProgress :=
  mk_progress [(0, total)] total 0.

Definition update (batchAmount : Z) (p : BenchProgress) : BenchProgress :=
  mk_progress
    (shown p ++ [(SizeT.add (batchStart_ p) batchAmount, total_ p)])
    (total_ p) (batchStart_ p).

Definition incBatchStart (batchSize : Z) (p : BenchProgress)
  : BenchProgress :=
  mk_progress (shown p) (total_ p) (SizeT.add (batchStart_ p) batchSize).

Section TimeBlock.

Context {G S item : Type}.

(** [g()]: the value generated and the generator afterwards. *)
Variable g : G -> item * G.

(** [f(x)] acting on a state; the flag tells that it threw. *)
Variable f : item -> S -> S * bool.

(** The loop of [time_block], with [k] iterations left and counter [i]. *)
Fixpoint loop (k : nat) (i : Z) (gs : G) (s : S) (p : BenchProgress)
  : G * S * BenchProgress * bool :=
  match k with
  | O => (gs, s, p, true)
  | Datatypes.S k' =>
      let '(x, gs') := g gs in
      let '(s', thrown) := f x s in
      if thrown then (gs', s', p, false)
      else
        let p' := if i mod 1000 =? 0 then update i p else p in
        loop k' (i + 1) gs' s' p'
  end.

(** [time_block(n, g, f, progress)]: the generator, the state acted on and
    the progress afterwards, and whether the loop ran to its end.  The
    duration returned by the code is a reading of the clock and is left
    out. *)
Definition time_block (n : Z) (gs : G) (s : S) (p : BenchProgress)
  : G * S * BenchProgress * bool :=
  loop (Z.to_nat n) 0 gs s p.

(** The first [k] values of the generator, and the generator afterwards. *)
Fixpoint generate (k : nat) (gs : G) : list item * G :=
  match k with
  | O => ([], gs)
  | Datatypes.S k' =>
      let '(x, gs') := g gs in
      let '(xs, gs'') := generate k' gs' in
      (x :: xs, gs'')
  end.

End TimeBlock.

(** [gen_key_value]: [ts_[cur_++]], for a store [ts] of items. *)
Definition gen_key_value {item : Type} (ts : Z -> item) (cur : Z)
  : item * Z :=
  (ts cur, SizeT.add cur 1).

End Bench.

Arguments Arena.round8 : simpl never.
Arguments SizeT.wrap : simpl never.
Arguments SizeT.add : simpl never.
Arguments SizeT.sub : simpl never.
Arguments SizeT.mul : simpl never.

(** * Properties *)

(** ** [std::size_t] arithmetic *)

Lemma modulus_eq : SizeT.modulus = 18446744073709551616.
Proof. reflexivity. Qed.

Lemma wrap_small z : SizeT.in_range z -> SizeT.wrap z = z.
Proof. intros Hz. apply Z.mod_small. exact Hz. Qed.

Lemma wrap_range z : SizeT.in_range (SizeT.wrap z).
Proof. apply Z.mod_pos_bound. reflexivity. Qed.

Lemma wrap_mod8 z : z mod 8 = 0 -> SizeT.wrap z mod 8 = 0.
Proof.
  intros Hz. unfold SizeT.wrap. rewrite modulus_eq.
  pose proof (Z.div_mod z 18446744073709551616 ltac:(lia)) as Hdm.
  apply Z.mod_divide in Hz; [|lia]. destruct Hz as [k Hk].
  apply Z.mod_divide; [lia|].
  exists (k - 2305843009213693952 * (z / 18446744073709551616)). lia.
Qed.

Lemma round8_range n : SizeT.in_range (Arena.round8 n).
Proof. apply wrap_range. Qed.

Lemma round8_mod8 n : Arena.round8 n mod 8 = 0.
Proof.
  unfold Arena.round8, SizeT.mul. apply wrap_mod8.
  rewrite Z.mul_comm. apply Z.mod_mul. lia.
Qed.

(** Without overflow the rounded size is the next multiple of 8. *)
Lemma round8_small n :
  0 <= n -> n + 7 < SizeT.modulus ->
  Arena.round8 n = 8 * ((n + 7) / 8) /\ n <= Arena.round8 n < n + 8.
Proof.
  intros Hn Hlt. rewrite modulus_eq in Hlt.
  unfold Arena.round8, SizeT.mul, SizeT.add.
  rewrite (wrap_small (n + 7)) by (unfold SizeT.in_range; rewrite modulus_eq; lia).
  pose proof (Z.div_mod (n + 7) 8 ltac:(lia)) as Hdm.
  pose proof (Z.mod_pos_bound (n + 7) 8 ltac:(lia)) as Hb.
  rewrite wrap_small by (unfold SizeT.in_range; rewrite modulus_eq; lia).
  lia.
Qed.

(** ** Elements *)

Lemma remain_wf e :
  element_wf e -> Element.remain e = Element.capacity_ e - Element.used_ e.
Proof.
  intros (H0 & H1 & H2). unfold Element.remain, SizeT.sub.
  apply wrap_small. unfold SizeT.in_range. lia.
Qed.

(** [element::alloc] succeeds exactly when the request fits, and then hands
    out the bytes at the cursor and moves the cursor by [n]. *)
Lemma element_alloc_fits n e :
  element_wf e -> 0 <= n -> (Element.remain e >=? n) = true ->
  Element.alloc n e
  = (Some (Element.address e, Element.used_ e),
     Element.mk (Element.address e) (Element.capacity_ e)
       (Element.used_ e + n))
  /\ Element.used_ e + n <= Element.capacity_ e.
Proof.
  intros Hwf Hn Hfit. pose proof Hwf as (H0 & H1 & H2).
  rewrite remain_wf in Hfit by exact Hwf.
  apply Z.geb_le in Hfit.
  unfold Element.alloc.
  change (SizeT.sub (Element.capacity_ e) (Element.used_ e))
    with (Element.remain e).
  rewrite remain_wf by exact Hwf.
  destruct (n >? Element.capacity_ e - Element.used_ e) eqn:Hgt.
  - apply Z.gtb_lt in Hgt. lia.
  - split; [|lia]. unfold SizeT.add.
    rewrite wrap_small by (unfold SizeT.in_range; lia). reflexivity.
Qed.

Lemma element_alloc_wf n e p e' :
  element_wf e -> 0 <= n -> Element.alloc n e = (p, e') -> element_wf e'.
Proof.
  intros Hwf Hn. pose proof Hwf as (H0 & H1 & H2).
  unfold Element.alloc.
  change (SizeT.sub (Element.capacity_ e) (Element.used_ e))
    with (Element.remain e).
  rewrite remain_wf by exact Hwf.
  destruct (n >? Element.capacity_ e - Element.used_ e) eqn:Hgt;
    (intros [= <- <-]); [exact Hwf|].
  assert (n <= Element.capacity_ e - Element.used_ e)
    by (destruct (Z.gtb_spec n (Element.capacity_ e - Element.used_ e));
        [discriminate | lia]).
  unfold element_wf, SizeT.add; simpl.
  rewrite wrap_small by (unfold SizeT.in_range; lia). lia.
Qed.

(** ** The three paths of [arena_t::alloc] *)

Lemma alloc_unfold n0 a h :
  Arena.alloc n0 a h
  = if n0 =? 0 then AssertionFailed
    else if fits (Arena.round8 n0) (Arena.used_ a)
         then Ok (Arena.bump (Arena.round8 n0) a, h)
         else if fits (Arena.round8 n0) (Arena.free_ a)
              then
                Ok (Arena.bump (Arena.round8 n0)
                      (Arena.mk (Arena.allocSize_ a) (Arena.nalloc_ a)
                         (hd (Element.mk 0%nat 0 0) (Arena.free_ a)
                            :: Arena.used_ a)
                         (tl (Arena.free_ a)) (Arena.when_ a)), h)
              else Ok (Arena.alloc_new (Arena.round8 n0) a h).
Proof.
  unfold Arena.alloc, Arena.alloc_build, Arena.alloc_free, fits.
  cbn [andb].
  destruct (n0 =? 0); [reflexivity|].
  destruct (Arena.used_ a) as [|u us], (Arena.free_ a) as [|e fs]; simpl;
    repeat match goal with
           | |- context [if ?b then _ else _] => destruct b
           end; reflexivity.
Qed.

(** First path: the current element has room. *)
Lemma alloc_used n0 a h u us :
  arena_wf a -> n0 <> 0 ->
  Arena.used_ a = u :: us ->
  (Element.remain u >=? Arena.round8 n0) = true ->
  Arena.alloc n0 a h
  = Ok (Some (Element.address u, Element.used_ u),
        Arena.mk (Arena.allocSize_ a)
          (SizeT.add (Arena.nalloc_ a) (Arena.round8 n0))
          (Element.mk (Element.address u) (Element.capacity_ u)
             (Element.used_ u + Arena.round8 n0) :: us)
          (Arena.free_ a) (Arena.when_ a), h).
Proof.
  intros (_ & _ & Hu & _) Hn0 Hused Hfit.
  rewrite alloc_unfold, Hused. simpl. rewrite Hfit.
  apply Z.eqb_neq in Hn0. rewrite Hn0.
  unfold Arena.bump. rewrite Hused.
  rewrite Hused in Hu. apply Forall_cons in Hu as [Hu _].
  destruct (element_alloc_fits (Arena.round8 n0) u Hu) as [-> _];
    [apply round8_range | exact Hfit | reflexivity].
Qed.

(** Second path: the head of the free list has room. *)
Lemma alloc_reuse n0 a h e fs :
  arena_wf a -> n0 <> 0 ->
  fits (Arena.round8 n0) (Arena.used_ a) = false ->
  Arena.free_ a = e :: fs ->
  (Element.remain e >=? Arena.round8 n0) = true ->
  Arena.alloc n0 a h
  = Ok (Some (Element.address e, Element.used_ e),
        Arena.mk (Arena.allocSize_ a)
          (SizeT.add (Arena.nalloc_ a) (Arena.round8 n0))
          (Element.mk (Element.address e) (Element.capacity_ e)
             (Element.used_ e + Arena.round8 n0) :: Arena.used_ a)
          fs (Arena.when_ a), h).
Proof.
  intros (_ & _ & _ & Hf) Hn0 Hnofit Hfree Hfit.
  rewrite alloc_unfold, Hnofit, Hfree. simpl. rewrite Hfit.
  apply Z.eqb_neq in Hn0. rewrite Hn0.
  unfold Arena.bump. simpl.
  rewrite Hfree in Hf. apply Forall_cons in Hf as [He _].
  destruct (element_alloc_fits (Arena.round8 n0) e He) as [-> _];
    [apply round8_range | exact Hfit | reflexivity].
Qed.

(** Third path: a new element, of capacity [max(allocSize_, n)] for the
    rounded [n]. *)
Lemma alloc_fresh n0 a h :
  arena_wf a -> n0 <> 0 ->
  fits (Arena.round8 n0) (Arena.used_ a) = false ->
  fits (Arena.round8 n0) (Arena.free_ a) = false ->
  Arena.alloc n0 a h
  = Ok (Some (next_addr h, 0),
        Arena.mk (Arena.allocSize_ a)
          (SizeT.add (Arena.nalloc_ a) (Arena.round8 n0))
          (Element.mk (next_addr h)
             (Z.max (Arena.allocSize_ a) (Arena.round8 n0))
             (Arena.round8 n0) :: Arena.used_ a)
          (Arena.free_ a) (Arena.when_ a),
        mk_heap (S (next_addr h))
          (<[next_addr h :=
               SizeT.add Element.sizeof
                 (Z.max (Arena.allocSize_ a) (Arena.round8 n0))]> (live h))
          (bytes h)).
Proof.
  intros (Hsz & _ & _ & _) Hn0 Hnou Hnof.
  rewrite alloc_unfold, Hnou, Hnof.
  apply Z.eqb_neq in Hn0. rewrite Hn0.
  unfold Arena.alloc_new, sys_new, Arena.bump. simpl.
  pose proof (round8_range n0) as Hr.
  set (n := Arena.round8 n0) in *.
  set (e := Element.mk (next_addr h) (Z.max (Arena.allocSize_ a) n) 0).
  assert (He : element_wf e).
  { unfold element_wf, e, SizeT.in_range in *; simpl. lia. }
  assert (Hfit : (Element.remain e >=? n) = true).
  { rewrite remain_wf by exact He. apply Z.geb_le. subst e; simpl. lia. }
  destruct (element_alloc_fits n e He) as [-> _];
    [apply Hr | exact Hfit | reflexivity].
Qed.

Ltac size_range :=
  unfold SizeT.in_range in *; rewrite ?modulus_eq in *; lia.

Lemma arena_wf_init now : arena_wf (Arena.init now).
Proof.
  unfold arena_wf, Arena.init; simpl.
  repeat split; try size_range; constructor.
Qed.

(** Which of the three paths is taken depends on the two tests only. *)
Lemma alloc_cases n0 a :
  (exists u us,
      Arena.used_ a = u :: us
      /\ (Element.remain u >=? Arena.round8 n0) = true)
  \/ (fits (Arena.round8 n0) (Arena.used_ a) = false
      /\ exists e fs,
          Arena.free_ a = e :: fs
          /\ (Element.remain e >=? Arena.round8 n0) = true)
  \/ (fits (Arena.round8 n0) (Arena.used_ a) = false
      /\ fits (Arena.round8 n0) (Arena.free_ a) = false).
Proof.
  destruct (fits (Arena.round8 n0) (Arena.used_ a)) eqn:Hu.
  - left. destruct (Arena.used_ a) as [|u us]; [discriminate|]. eauto.
  - right. destruct (fits (Arena.round8 n0) (Arena.free_ a)) eqn:Hf.
    + left. split; [reflexivity|].
      destruct (Arena.free_ a) as [|e fs]; [discriminate|]. eauto.
    + right. split; reflexivity.
Qed.

(** For a request other than 0 the two builds do the same. *)
Lemma alloc_build_nonzero checked n a h :
  n <> 0 -> Arena.alloc_build checked n a h = Arena.alloc n a h.
Proof.
  intros Hn. unfold Arena.alloc, Arena.alloc_build.
  apply Z.eqb_neq in Hn. rewrite Hn, !andb_false_r. reflexivity.
Qed.

(** [element::alloc(0)] returns the cursor and leaves it where it is. *)
Lemma element_alloc_zero e :
  Element.alloc 0 e
  = (Some (Element.address e, Element.used_ e),
     Element.mk (Element.address e) (Element.capacity_ e)
       (SizeT.wrap (Element.used_ e))).
Proof.
  unfold Element.alloc.
  pose proof (wrap_range (Element.capacity_ e - Element.used_ e)) as Hr.
  destruct (Z.gtb_spec 0 (SizeT.sub (Element.capacity_ e) (Element.used_ e)))
    as [Hlt|_].
  - unfold SizeT.sub in Hlt. unfold SizeT.in_range in Hr. lia.
  - unfold SizeT.add. rewrite Z.add_0_r. reflexivity.
Qed.

Lemma remain_fits_zero e : (Element.remain e >=? 0) = true.
Proof.
  apply Z.geb_le. unfold Element.remain, SizeT.sub.
  apply (wrap_range (Element.capacity_ e - Element.used_ e)).
Qed.

(** C7, as stated, fails in a build with [NDEBUG]: on a default constructed
    arena [alloc(0)] is not rejected.  It asks the system for a block that
    holds an element of capacity 0 and returns a pointer to the payload of
    that element. *)
Lemma alloc_zero_ndebug_counterexample :
  Arena.alloc_build false 0 (Arena.init 0) empty_heap
  = Ok (Some (0%nat, 0),
        Arena.mk 0 0 [Element.mk 0%nat 0 0] [] 0,
        mk_heap 1%nat {[ 0%nat := 24 ]} ∅).
Proof. reflexivity. Qed.

(** C7, amended.  In a build that checks assertions, [arena.alloc(0)] is
    rejected in every arena state: the assertion [n != 0] fails and no
    region is returned.  In a build with [NDEBUG] the assertion is compiled
    out and [alloc(0)] is not rejected in any arena state: it returns a
    non-null pointer to a region of 0 bytes, at the cursor of the element
    that is then at the head of the used list, and the cursor stays where it
    is. *)
Theorem alloc_zero_rejected (a : Arena.arena_t) (h : heap) :
  Arena.alloc_build true 0 a h = AssertionFailed
  /\ exists p a' h' u rest,
      Arena.alloc_build false 0 a h = Ok (Some p, a', h')
      /\ Arena.used_ a' = u :: rest
      /\ Element.address u = p.1
      /\ Element.used_ u = SizeT.wrap p.2.
Proof.
  split; [reflexivity|].
  unfold Arena.alloc_build. cbn [andb].
  change (Arena.round8 0) with 0.
  destruct (Arena.used_ a) as [|u us] eqn:Hu.
  - unfold Arena.alloc_free.
    destruct (Arena.free_ a) as [|e fs] eqn:Hf.
    + unfold Arena.alloc_new, sys_new, Arena.bump. cbn [Arena.used_].
      rewrite element_alloc_zero.
      do 5 eexists. split; [reflexivity|]. cbn [Arena.used_].
      split; [reflexivity|]. split; reflexivity.
    + rewrite remain_fits_zero. unfold Arena.bump. cbn [Arena.used_].
      rewrite element_alloc_zero.
      do 5 eexists. split; [reflexivity|]. cbn [Arena.used_].
      split; [reflexivity|]. split; reflexivity.
  - rewrite remain_fits_zero. unfold Arena.bump. rewrite Hu.
    rewrite element_alloc_zero.
    do 5 eexists. split; [reflexivity|]. cbn [Arena.used_].
    split; [reflexivity|]. split; reflexivity.
Qed.

(** C9.  For every [n > 0], [arena.alloc(n)] returns a non-null pointer.
    On each path the element the request is served from has, before
    [element::alloc] is called, a remaining capacity of at least the rounded
    request: the cursor [p.2] handed out and the rounded size fit below the
    capacity, so the [nullptr] branch of [element::alloc] is not taken. *)
Theorem alloc_never_null (n : Z) (a : Arena.arena_t) (h : heap) :
  arena_wf a -> 0 < n < SizeT.modulus ->
  exists p a' h' u rest,
    Arena.alloc n a h = Ok (Some p, a', h')
    /\ Arena.used_ a' = u :: rest
    /\ Element.address u = p.1
    /\ Arena.round8 n
       <= Element.remain (Element.mk p.1 (Element.capacity_ u) p.2)
    /\ Element.used_ u = p.2 + Arena.round8 n.
Proof.
  intros Hwf Hn. assert (Hn0 : n <> 0) by lia.
  pose proof (round8_range n) as Hr.
  destruct (alloc_cases n a)
    as [(u & us & Hu & Hfit) | [(Hnou & e & fs & Hf & Hfit) | (Hnou & Hnof)]].
  - rewrite (alloc_used n a h u us Hwf Hn0 Hu Hfit).
    destruct Hwf as (_ & _ & Hall & _). rewrite Hu in Hall.
    apply Forall_cons in Hall as [Hwu _].
    do 5 eexists. split; [reflexivity|]. simpl.
    repeat split; try reflexivity.
    rewrite remain_wf in Hfit by exact Hwu. apply Z.geb_le in Hfit.
    rewrite remain_wf; [simpl; lia|].
    destruct Hwu as (? & ? & ?). unfold element_wf; simpl. lia.
  - rewrite (alloc_reuse n a h e fs Hwf Hn0 Hnou Hf Hfit).
    destruct Hwf as (_ & _ & _ & Hall). rewrite Hf in Hall.
    apply Forall_cons in Hall as [Hwe _].
    do 5 eexists. split; [reflexivity|]. simpl.
    repeat split; try reflexivity.
    rewrite remain_wf in Hfit by exact Hwe. apply Z.geb_le in Hfit.
    rewrite remain_wf; [simpl; lia|].
    destruct Hwe as (? & ? & ?). unfold element_wf; simpl. lia.
  - rewrite (alloc_fresh n a h Hwf Hn0 Hnou Hnof).
    destruct Hwf as (Hsz & _).
    do 5 eexists. split; [reflexivity|]. simpl.
    repeat split; try reflexivity.
    rewrite remain_wf; [simpl; lia|].
    unfold element_wf; simpl. size_range.
Qed.

Lemma alloc_never_null_witness :
  arena_wf (Arena.init 0) /\ 0 < 100 < SizeT.modulus
  /\ exists p a' h' u rest,
      Arena.alloc 100 (Arena.init 0) empty_heap = Ok (Some p, a', h')
      /\ Arena.used_ a' = u :: rest
      /\ Element.address u = p.1
      /\ Arena.round8 100
         <= Element.remain (Element.mk p.1 (Element.capacity_ u) p.2)
      /\ Element.used_ u = p.2 + Arena.round8 100.
Proof.
  assert (Hwf : arena_wf (Arena.init 0)).
  { unfold arena_wf, Arena.init, SizeT.in_range; simpl.
    rewrite modulus_eq. repeat split; try lia; constructor. }
  assert (Hn : 0 < 100 < SizeT.modulus) by (rewrite modulus_eq; lia).
  split; [exact Hwf|]. split; [exact Hn|].
  exact (alloc_never_null 100 (Arena.init 0) empty_heap Hwf Hn).
Defined.

(** ** New elements *)




(** ** Returning memory: [dealloc] and [clear] *)

Lemma addresses_cons e l :
  addresses (e :: l) = {[ Element.address e ]} ∪ addresses l.
Proof. reflexivity. Qed.

Lemma elem_of_addresses_cons ad e l :
  ad ∈ addresses (e :: l) <-> ad = Element.address e \/ ad ∈ addresses l.
Proof. rewrite addresses_cons, elem_of_union, elem_of_singleton. tauto. Qed.

(** Looking up a block after one more deletion. *)
Lemma lookup_delete_addresses (m : gmap addr Z) ad e l :
  (if decide (ad ∈ addresses l) then None
   else delete (Element.address e) m !! ad)
  = if decide (ad ∈ addresses (e :: l)) then None else m !! ad.
Proof.
  destruct (decide (ad = Element.address e)) as [->|Hne].
  - rewrite lookup_delete_eq.
    rewrite (decide_True (P := _ ∈ addresses (_ :: _)))
      by (apply elem_of_addresses_cons; auto).
    destruct (decide _); reflexivity.
  - rewrite lookup_delete_ne by congruence.
    destruct (decide (ad ∈ addresses l)) as [Hin|Hnin].
    + rewrite decide_True by (apply elem_of_addresses_cons; auto).
      reflexivity.
    + rewrite decide_False; [reflexivity|].
      rewrite elem_of_addresses_cons. tauto.
Qed.

(** [dealloc] releases every element of the list and leaves the list
    empty. *)
Lemma dealloc_spec l : forall h,
  (Arena.dealloc l h).1 = []
  /\ next_addr (Arena.dealloc l h).2 = next_addr h
  /\ bytes (Arena.dealloc l h).2 = bytes h
  /\ forall ad,
      live (Arena.dealloc l h).2 !! ad
      = if decide (ad ∈ addresses l) then None else live h !! ad.
Proof.
  induction l as [|e l IH]; intros h; simpl.
  - repeat split.
  - destruct (IH (sys_delete (Element.address e) h)) as (H1 & H2 & H3 & H4).
    repeat split; try assumption.
    intros ad. rewrite H4. simpl. apply lookup_delete_addresses.
Qed.

Lemma remain_clear e :
  element_wf e -> Element.remain (Element.clear e) = Element.capacity_ e.
Proof.
  intros (H0 & H1 & H2). unfold Element.remain, Element.clear, SizeT.sub.
  simpl. rewrite Z.sub_0_r. apply wrap_small. size_range.
Qed.

(** The loop of [clear]: an element goes to the free list when its capacity
    is the current [allocSize_], and back to the system otherwise. *)
Lemma clear_loop_spec allocSize used :
  Forall element_wf used ->
  forall free h,
    (Arena.clear_loop allocSize used free h).1
    = rev (map Element.clear
             (filter (fun e => Element.capacity_ e = allocSize) used))
        ++ free
    /\ next_addr (Arena.clear_loop allocSize used free h).2 = next_addr h
    /\ bytes (Arena.clear_loop allocSize used free h).2 = bytes h
    /\ forall ad,
        live (Arena.clear_loop allocSize used free h).2 !! ad
        = if decide
               (ad ∈ addresses
                  (filter (fun e => Element.capacity_ e <> allocSize) used))
          then None else live h !! ad.
Proof.
  induction 1 as [|e used He Hused IH]; intros free h.
  - simpl. repeat split.
  - cbn [Arena.clear_loop]. rewrite (remain_clear e He).
    rewrite !filter_cons.
    destruct (Z.eqb_spec (Element.capacity_ e) allocSize) as [Heq|Hne].
    + rewrite decide_True by exact Heq.
      rewrite (decide_False (P := _ <> _)) by (intros Hc; apply Hc, Heq).
      destruct (IH (Element.clear e :: free) h) as (H1 & H2 & H3 & H4).
      repeat split; try assumption.
      rewrite H1. simpl. rewrite <- app_assoc. reflexivity.
    + rewrite decide_False by exact Hne.
      rewrite (decide_True (P := _ <> _)) by exact Hne.
      destruct (IH free (sys_delete (Element.address (Element.clear e)) h))
        as (H1 & H2 & H3 & H4).
      repeat split; try assumption.
      intros ad. rewrite H4. simpl. apply lookup_delete_addresses.
Qed.

(** C3, as stated, fails: the element that served [alloc(1)] in a fresh
    arena has capacity 8 while [allocSize_] is 0, and [clear()] deletes it
    instead of putting it on the free list. *)
Lemma clear_releases_counterexample :
  Arena.alloc 1 (Arena.init 0) empty_heap
  = Ok (Some (0%nat, 0),
        Arena.mk 0 8 [Element.mk 0%nat 8 8] [] 0,
        mk_heap 1%nat {[ 0%nat := 32 ]} ∅)
  /\ Arena.clear (Arena.mk 0 8 [Element.mk 0%nat 8 8] [] 0)
       (mk_heap 1%nat {[ 0%nat := 32 ]} ∅)
     = (Arena.mk 0 8 [] [] 0, mk_heap 1%nat ∅ ∅).
Proof. split; reflexivity. Qed.

(** C3, amended.  [clear()] leaves the used list empty.  Every used element
    whose capacity equals the current [alloc_size] is reset and put on the
    free list, ready for reuse, in front of the elements already there; every
    other used element is released to the system, and nothing else is. *)
Theorem clear_spec (a : Arena.arena_t) (h : heap) :
  arena_wf a ->
  let kept :=
    filter (fun e => Element.capacity_ e = Arena.allocSize_ a)
      (Arena.used_ a) in
  let released :=
    filter (fun e => Element.capacity_ e <> Arena.allocSize_ a)
      (Arena.used_ a) in
  Arena.used_ (Arena.clear a h).1 = []
  /\ Arena.free_ (Arena.clear a h).1
     = rev (map Element.clear kept) ++ Arena.free_ a
  /\ Forall (fun e => Element.used_ e = 0) (map Element.clear kept)
  /\ (forall ad,
        live (Arena.clear a h).2 !! ad
        = if decide (ad ∈ addresses released) then None else live h !! ad)
  /\ Arena.allocSize_ (Arena.clear a h).1 = Arena.allocSize_ a
  /\ Arena.nalloc_ (Arena.clear a h).1 = Arena.nalloc_ a.
Proof.
  intros (_ & _ & Hused & _) kept released.
  unfold Arena.clear.
  destruct (clear_loop_spec (Arena.allocSize_ a) (Arena.used_ a) Hused
              (Arena.free_ a) h) as (H1 & _ & _ & H4).
  destruct (Arena.clear_loop _ _ _ _) as [free h']. simpl in *.
  repeat split; try assumption.
  apply Forall_forall. intros e He.
  apply list_elem_of_In, in_map_iff in He as (e0 & <- & _). reflexivity.
Qed.

Lemma clear_spec_witness :
  let a := Arena.mk 8 16 [Element.mk 1%nat 8 8; Element.mk 0%nat 16 16] [] 0 in
  let h := mk_heap 2%nat {[ 0%nat := 40; 1%nat := 32 ]} ∅ in
  Arena.used_ (Arena.clear a h).1 = []
  /\ Arena.free_ (Arena.clear a h).1 = [Element.mk 1%nat 8 0]
  /\ live (Arena.clear a h).2 !! 0%nat = None
  /\ live (Arena.clear a h).2 !! 1%nat = Some 32.
Proof.
  intros a h.
  assert (Hwf : arena_wf a).
  { unfold arena_wf, a, SizeT.in_range, element_wf; simpl.
    rewrite modulus_eq. repeat split; try lia; repeat constructor; simpl; lia. }
  destruct (clear_spec a h Hwf) as (H1 & H2 & _ & H4 & _).
  split; [exact H1|]. split; [exact H2|].
  split; [exact (H4 0%nat) | exact (H4 1%nat)].
Defined.

(** ** Adaptive sizing *)






(** ** What [alloc] returns *)

Lemma add_mod8 x y : x mod 8 = 0 -> y mod 8 = 0 -> (x + y) mod 8 = 0.
Proof.
  intros Hx Hy. rewrite Z.add_mod, Hx, Hy by lia. reflexivity.
Qed.

(** The region handed out starts at the cursor [p.2] of the element at the
    head of the used list and the cursor moves past it, by the rounded size;
    well-formedness and the alignment of all cursors are kept. *)
Lemma alloc_spec n a h :
  arena_wf a -> 0 < n < SizeT.modulus ->
  exists p a' h' u rest,
    Arena.alloc n a h = Ok (Some p, a', h')
    /\ Arena.used_ a' = u :: rest
    /\ Element.address u = p.1
    /\ 0 <= p.2
    /\ Element.used_ u = p.2 + Arena.round8 n
    /\ Element.used_ u <= Element.capacity_ u
    /\ arena_wf a'
    /\ bytes h' = bytes h
    /\ (arena_aligned a -> p.2 mod 8 = 0 /\ arena_aligned a').
Proof.
  intros Hwf Hn. assert (Hn0 : n <> 0) by lia.
  pose proof (round8_range n) as Hr. pose proof (round8_mod8 n) as Hr8.
  pose proof Hwf as (Hsz & Hna & Hus & Hfs).
  destruct (alloc_cases n a)
    as [(u & us & Hu & Hfit) | [(Hnou & e & fs & Hf & Hfit) | (Hnou & Hnof)]].
  - rewrite (alloc_used n a h u us Hwf Hn0 Hu Hfit).
    rewrite Hu in Hus. apply Forall_cons in Hus as [Hwu Hwus].
    pose proof Hwu as (Hu0 & Hu1 & Hu2).
    rewrite remain_wf in Hfit by exact Hwu. apply Z.geb_le in Hfit.
    do 5 eexists. split; [reflexivity|]. simpl.
    split; [reflexivity|]. split; [reflexivity|]. split; [simpl; lia|].
    split; [reflexivity|]. split; [simpl; lia|].
    split; [|split; [reflexivity|]].
    + unfold arena_wf; simpl. split; [exact Hsz|].
      split; [apply wrap_range|]. split; [|exact Hfs].
      constructor; [|exact Hwus]. unfold element_wf; simpl. size_range.
    + intros [Hau Haf]. rewrite Hu in Hau.
      apply Forall_cons in Hau as [Hau Haus]. split; [exact Hau|].
      split; simpl; [|exact Haf].
      constructor; [|exact Haus]. simpl. apply add_mod8; assumption.
  - rewrite (alloc_reuse n a h e fs Hwf Hn0 Hnou Hf Hfit).
    rewrite Hf in Hfs. apply Forall_cons in Hfs as [Hwe Hwfs].
    pose proof Hwe as (He0 & He1 & He2).
    rewrite remain_wf in Hfit by exact Hwe. apply Z.geb_le in Hfit.
    do 5 eexists. split; [reflexivity|]. simpl.
    split; [reflexivity|]. split; [reflexivity|]. split; [simpl; lia|].
    split; [reflexivity|]. split; [simpl; lia|].
    split; [|split; [reflexivity|]].
    + unfold arena_wf; simpl. split; [exact Hsz|].
      split; [apply wrap_range|]. split; [|exact Hwfs].
      constructor; [|exact Hus]. unfold element_wf; simpl. size_range.
    + intros [Hau Haf]. rewrite Hf in Haf.
      apply Forall_cons in Haf as [Hae Hafs]. split; [exact Hae|].
      split; simpl; [|exact Hafs].
      constructor; [|exact Hau]. simpl. apply add_mod8; assumption.
  - rewrite (alloc_fresh n a h Hwf Hn0 Hnou Hnof).
    do 5 eexists. split; [reflexivity|]. simpl.
    split; [reflexivity|]. split; [reflexivity|]. split; [simpl; lia|].
    split; [reflexivity|]. split; [simpl; lia|].
    split; [|split; [reflexivity|]].
    + unfold arena_wf; simpl. split; [exact Hsz|].
      split; [apply wrap_range|]. split; [|exact Hfs].
      constructor; [|exact Hus]. unfold element_wf; simpl. size_range.
    + intros [Hau Haf]. split; [reflexivity|].
      split; simpl; [|exact Haf].
      constructor; [|exact Hau]. simpl. exact Hr8.
Qed.

(** ** Alignment *)


(** The cursors are multiples of 8 in a new arena, and every operation of
    the arena keeps them so, whatever the size requested. *)
Lemma arena_aligned_init now : arena_aligned (Arena.init now).
Proof. split; constructor. Qed.

Lemma arena_aligned_alloc n a h p a' h' :
  arena_wf a -> arena_aligned a -> 0 < n < SizeT.modulus ->
  Arena.alloc n a h = Ok (p, a', h') ->
  arena_aligned a' /\ exists q, p = Some q /\ q.2 mod 8 = 0.
Proof.
  intros Hwf Hal Hn Ha.
  destruct (alloc_spec n a h Hwf Hn)
    as (p0 & a0 & h0 & u & rest & Ha0 & _ & _ & _ & _ & _ & _ & _ & Hal').
  rewrite Ha0 in Ha. injection Ha as <- <- <-.
  destruct (Hal' Hal) as [Hp8 Hal'']. eauto.
Qed.

Lemma clear_loop_aligned allocSize used : forall free h,
  Forall (fun e => Element.used_ e mod 8 = 0) free ->
  Forall (fun e => Element.used_ e mod 8 = 0)
    (Arena.clear_loop allocSize used free h).1.
Proof.
  induction used as [|e used IH]; intros free h Hfree; simpl; [exact Hfree|].
  destruct (_ =? _); apply IH; [|exact Hfree].
  constructor; [reflexivity | exact Hfree].
Qed.

Lemma arena_aligned_clear a h :
  arena_aligned a -> arena_aligned (Arena.clear a h).1.
Proof.
  intros [_ Hf]. unfold Arena.clear.
  pose proof (clear_loop_aligned (Arena.allocSize_ a) (Arena.used_ a)
                (Arena.free_ a) h Hf) as Hc.
  destruct (Arena.clear_loop _ _ _ _) as [free h']. split; [constructor|].
  exact Hc.
Qed.

Lemma arena_aligned_shrink_to_fit a h :
  arena_aligned a -> arena_aligned (Arena.shrink_to_fit a h).1.
Proof.
  intros [Hu _]. unfold Arena.shrink_to_fit.
  destruct (dealloc_spec (Arena.free_ a) h) as (Hd & _).
  destruct (Arena.dealloc _ _) as [free h']. simpl in Hd. subst free.
  split; [exact Hu | constructor].
Qed.

Lemma arena_aligned_periodic_activity rate_of now a h :
  arena_aligned a ->
  arena_aligned (Arena.periodic_activity rate_of now a h).1.
Proof.
  intros [Hu Hf]. unfold Arena.periodic_activity.
  destruct (dealloc_spec (Arena.free_ a) h) as (Hd & _).
  destruct (Arena.dealloc _ _) as [free h']. simpl in Hd. subst free.
  repeat match goal with
         | |- context [if ?b then _ else _] => destruct b
         end; split; simpl; try assumption; constructor.
Qed.

Lemma arena_aligned_swap lhs rhs :
  arena_aligned lhs -> arena_aligned rhs ->
  arena_aligned (Arena.swap lhs rhs).1 /\ arena_aligned (Arena.swap lhs rhs).2.
Proof. intros [Hlu Hlf] [Hru Hrf]. repeat split; assumption. Qed.

(** C6 fails on the largest requests.  The sum [n + 7] is computed in
    [std::size_t]: for [n = 2^64 - 1] it wraps to 6 and the rounded size is
    0.  In a fresh arena the call then creates an element without payload and
    returns a pointer to it; the cursor does not move, so the region holds no
    byte at all, let alone [n]. *)
Theorem alloc_rounding_overflow :
  0 < SizeT.modulus - 1 < SizeT.modulus
  /\ Arena.round8 (SizeT.modulus - 1) = 0
  /\ Arena.alloc (SizeT.modulus - 1) (Arena.init 0) empty_heap
     = Ok (Some (0%nat, 0),
           Arena.mk 0 0 [Element.mk 0%nat 0 0] [] 0,
           mk_heap 1%nat {[ 0%nat := 24 ]} ∅).
Proof. split; [split; reflexivity|]. split; reflexivity. Qed.

(** ** Memory *)

Lemma ptr_add_add p i j : ptr_add (ptr_add p i) j = ptr_add p (i + j).
Proof. unfold ptr_add; simpl. f_equal. lia. Qed.

Lemma ptr_add_0 p : ptr_add p 0 = p.
Proof. destruct p. unfold ptr_add; simpl. f_equal. lia. Qed.

(** A store leaves the bytes outside of its range alone. *)
Lemma store_bytes_lookup_outside l : forall p m q,
  q.1 <> p.1 \/ q.2 < p.2 \/ p.2 + Z.of_nat (length l) <= q.2 ->
  store_bytes p l m !! q = m !! q.
Proof.
  induction l as [|b l IH]; intros p m q Hout; simpl; [reflexivity|].
  rewrite IH.
  - apply lookup_insert_ne. intros ->. simpl in Hout. lia.
  - simpl in *. lia.
Qed.

Lemma load_bytes_length m : forall n p l,
  load_bytes m p n = Some l -> length l = n.
Proof.
  induction n as [|n IH]; intros p l; simpl.
  - intros [= <-]. reflexivity.
  - destruct (m !! p); [|discriminate].
    destruct (load_bytes m (ptr_add p 1) n) eqn:Hl; [|discriminate].
    intros [= <-]. simpl. f_equal. eapply IH, Hl.
Qed.

(** Loads only depend on the bytes in their range. *)
Lemma load_bytes_ext m m' : forall n p,
  (forall i, 0 <= i < Z.of_nat n -> m' !! ptr_add p i = m !! ptr_add p i) ->
  load_bytes m' p n = load_bytes m p n.
Proof.
  induction n as [|n IH]; intros p Hext; simpl; [reflexivity|].
  pose proof (Hext 0 ltac:(lia)) as H0. rewrite ptr_add_0 in H0. rewrite H0.
  rewrite IH; [reflexivity|].
  intros i Hi. rewrite ptr_add_add. apply Hext. lia.
Qed.

Lemma load_store_same l : forall p m,
  load_bytes (store_bytes p l m) p (length l) = Some l.
Proof.
  induction l as [|b l IH]; intros p m; simpl; [reflexivity|].
  rewrite store_bytes_lookup_outside by (simpl; lia).
  rewrite lookup_insert_eq, IH. reflexivity.
Qed.

Lemma load_store_disjoint l p m q n :
  q.1 <> p.1 \/ q.2 + Z.of_nat n <= p.2 \/ p.2 + Z.of_nat (length l) <= q.2 ->
  load_bytes (store_bytes p l m) q n = load_bytes m q n.
Proof.
  intros Hdis. apply load_bytes_ext. intros i Hi.
  apply store_bytes_lookup_outside. simpl. lia.
Qed.

Lemma load_bytes_app m : forall n1 n2 p l1 l2,
  load_bytes m p n1 = Some l1 ->
  load_bytes m (ptr_add p (Z.of_nat n1)) n2 = Some l2 ->
  load_bytes m p (n1 + n2) = Some (l1 ++ l2).
Proof.
  induction n1 as [|n1 IH]; intros n2 p l1 l2; simpl.
  - intros [= <-]. rewrite ptr_add_0. auto.
  - destruct (m !! p); [|discriminate].
    destruct (load_bytes m (ptr_add p 1) n1) eqn:Hl; [|discriminate].
    intros [= <-] H2. erewrite IH; [reflexivity | exact Hl |].
    rewrite ptr_add_add. rewrite <- H2. do 2 f_equal. lia.
Qed.

Lemma store_bytes_app l1 : forall l2 p m,
  store_bytes p (l1 ++ l2) m
  = store_bytes (ptr_add p (Z.of_nat (length l1))) l2 (store_bytes p l1 m).
Proof.
  induction l1 as [|b l1 IH]; intros l2 p m; simpl.
  - rewrite ptr_add_0. reflexivity.
  - rewrite IH, ptr_add_add. do 2 f_equal. lia.
Qed.

(** After a store of [l1 ++ l2], the two parts can be loaded back. *)
Lemma load_store_app l1 l2 p m :
  load_bytes (store_bytes p (l1 ++ l2) m) p (length l1) = Some l1
  /\ load_bytes (store_bytes p (l1 ++ l2) m)
       (ptr_add p (Z.of_nat (length l1))) (length l2) = Some l2.
Proof.
  rewrite store_bytes_app. split.
  - rewrite load_store_disjoint by (simpl; lia). apply load_store_same.
  - apply load_store_same.
Qed.

(** ** Big-endian fields *)

Lemma be_value_cons b l :
  Bucket.be_value (b :: l)
  = byte.unsigned b * 2 ^ (8 * Z.of_nat (length l)) + Bucket.be_value l.
Proof. simpl. rewrite Z.shiftl_mul_pow2 by lia. reflexivity. Qed.

Lemma be_bytes_succ w v :
  Bucket.be_bytes (S w) v
  = byte.of_Z (v / 2 ^ (8 * Z.of_nat w)) :: Bucket.be_bytes w v.
Proof. simpl. rewrite Z.shiftr_div_pow2 by lia. reflexivity. Qed.

Lemma be_bytes_length w v : length (Bucket.be_bytes w v) = w.
Proof. induction w as [|w IH]; simpl; [reflexivity | f_equal; exact IH]. Qed.

Lemma be_value_bound l :
  0 <= Bucket.be_value l < 2 ^ (8 * Z.of_nat (length l)).
Proof.
  induction l as [|b l IH]; [simpl; lia|].
  rewrite be_value_cons.
  pose proof (byte.unsigned_range b) as Hb. change (2 ^ 8) with 256 in Hb.
  replace (8 * Z.of_nat (length (b :: l)))
    with (8 + 8 * Z.of_nat (length l)) by (simpl length; lia).
  rewrite Z.pow_add_r by lia. change (2 ^ 8) with 256.
  set (m := 2 ^ (8 * Z.of_nat (length l))) in *. nia.
Qed.

Lemma byte_of_Z_mod x y : x mod 256 = y mod 256 -> byte.of_Z x = byte.of_Z y.
Proof.
  intros Hxy. apply byte.unsigned_inj. rewrite !byte.unsigned_of_Z.
  unfold byte.wrap. change (2 ^ 8) with 256. exact Hxy.
Qed.

(** Bits above the field do not show in its bytes. *)
Lemma be_bytes_add w : forall v k,
  Bucket.be_bytes w (v + k * 2 ^ (8 * Z.of_nat w)) = Bucket.be_bytes w v.
Proof.
  induction w as [|w IH]; intros v k; [reflexivity|].
  rewrite !be_bytes_succ.
  replace (8 * Z.of_nat (S w)) with (8 * Z.of_nat w + 8) by lia.
  rewrite Z.pow_add_r by lia. change (2 ^ 8) with 256.
  assert (Hpos : 0 < 2 ^ (8 * Z.of_nat w)) by (apply Z.pow_pos_nonneg; lia).
  f_equal.
  - apply byte_of_Z_mod.
    replace (v + k * (2 ^ (8 * Z.of_nat w) * 256))
      with (v + (k * 256) * 2 ^ (8 * Z.of_nat w)) by lia.
    rewrite Z.div_add by lia. apply Z_mod_plus_full.
  - replace (v + k * (2 ^ (8 * Z.of_nat w) * 256))
      with (v + (k * 256) * 2 ^ (8 * Z.of_nat w)) by lia.
    apply IH.
Qed.

(** Writing back the value of a field gives the bytes it was read from. *)
Lemma be_bytes_value l : Bucket.be_bytes (length l) (Bucket.be_value l) = l.
Proof.
  induction l as [|b l IH]; [reflexivity|].
  simpl length. rewrite be_bytes_succ, be_value_cons.
  pose proof (be_value_bound l) as Hl.
  assert (Hpos : 0 < 2 ^ (8 * Z.of_nat (length l)))
    by (apply Z.pow_pos_nonneg; lia).
  f_equal.
  - rewrite Z.add_comm, Z.div_add by lia.
    rewrite Z.div_small by lia. simpl. apply byte.of_Z_unsigned.
  - rewrite Z.add_comm, be_bytes_add. exact IH.
Qed.

(** Reading back a field gives the value written, when it fits. *)
Lemma be_value_bytes w : forall v,
  0 <= v < 2 ^ (8 * Z.of_nat w) ->
  Bucket.be_value (Bucket.be_bytes w v) = v.
Proof.
  induction w as [|w IH]; intros v Hv.
  - simpl in *. lia.
  - rewrite be_bytes_succ, be_value_cons, be_bytes_length.
    replace (8 * Z.of_nat (S w)) with (8 * Z.of_nat w + 8) in Hv by lia.
    rewrite Z.pow_add_r in Hv by lia. change (2 ^ 8) with 256 in Hv.
    assert (Hpos : 0 < 2 ^ (8 * Z.of_nat w)) by (apply Z.pow_pos_nonneg; lia).
    set (m := 2 ^ (8 * Z.of_nat w)) in *.
    rewrite byte.unsigned_of_Z. unfold byte.wrap. change (2 ^ 8) with 256.
    assert (Hq : 0 <= v / m < 256).
    { split; [apply Z.div_pos; lia|]. apply Z.div_lt_upper_bound; lia. }
    rewrite (Z.mod_small (v / m)) by exact Hq.
    pose proof (Z.div_mod v m ltac:(lia)) as Hdm.
    pose proof (Z.mod_pos_bound v m ltac:(lia)) as Hmb.
    replace (Bucket.be_bytes w v) with (Bucket.be_bytes w (v mod m)).
    + rewrite IH by exact Hmb. lia.
    + rewrite Hdm at 2. rewrite Z.add_comm.
      rewrite (Z.mul_comm m). symmetry. apply be_bytes_add.
Qed.

(** ** The bucket codec *)

Lemma parse_entries_length k : forall l,
  length (Bucket.parse_entries k l) = k.
Proof. induction k as [|k IH]; intros l; simpl; [|rewrite IH]; reflexivity. Qed.

Lemma be_bytes_value_length w (l : list byte) :
  length l = w -> Bucket.be_bytes w (Bucket.be_value l) = l.
Proof. intros <-. apply be_bytes_value. Qed.

Lemma serialize_parse_entry (l : list byte) :
  length l = 20%nat -> Bucket.serialize_entry (Bucket.parse_entry l) = l.
Proof.
  intros Hl. unfold Bucket.serialize_entry, Bucket.parse_entry.
  cbn [Bucket.hash Bucket.offset Bucket.size].
  rewrite (be_bytes_value_length 8) by (rewrite length_take; lia).
  rewrite (be_bytes_value_length 6 (take 6 (drop 8 l)))
    by (rewrite length_take, length_drop; lia).
  rewrite (be_bytes_value_length 6 (take 6 (drop 14 l)))
    by (rewrite length_take, length_drop; lia).
  rewrite <- (take_drop 8 l) at 4. f_equal.
  rewrite <- (take_drop 6 (drop 8 l)) at 2. f_equal.
  rewrite drop_drop. apply take_ge. rewrite length_drop. lia.
Qed.

Lemma serialize_parse_entries k : forall l : list byte,
  length l = (20 * k)%nat ->
  concat (map Bucket.serialize_entry (Bucket.parse_entries k l)) = l.
Proof.
  induction k as [|k IH]; intros l Hl;
    cbn [Bucket.parse_entries map concat].
  - destruct l; [reflexivity | discriminate].
  - rewrite serialize_parse_entry by (rewrite length_take; lia).
    rewrite IH by (rewrite length_drop; lia).
    apply take_drop.
Qed.

(** What a successful read has seen: eight header bytes and twenty bytes per
    entry, which are the on-wire form of the contents. *)
Lemma read_inv h b c :
  Bucket.read h b = Some c ->
  exists hdr body,
    load_bytes (bytes h) (Bucket.p_ b) 8 = Some hdr
    /\ load_bytes (bytes h) (ptr_add (Bucket.p_ b) 8)
         (20 * length (Bucket.entries c)) = Some body
    /\ Z.to_nat (Bucket.be_value (take 2 hdr)) = length (Bucket.entries c)
    /\ c = Bucket.mk_contents (Bucket.be_value (drop 2 hdr))
             (Bucket.parse_entries (length (Bucket.entries c)) body)
    /\ Bucket.serialize c = hdr ++ body.
Proof.
  unfold Bucket.read, Bucket.header_size. intros Hread.
  destruct (load_bytes (bytes h) (Bucket.p_ b) 8) as [hdr|] eqn:Hhdr;
    [|discriminate].
  destruct (load_bytes (bytes h) (ptr_add (Bucket.p_ b) 8) _) as [body|]
    eqn:Hbody; [|discriminate].
  injection Hread as <-. simpl. rewrite parse_entries_length.
  exists hdr, body. split; [reflexivity|]. split; [exact Hbody|].
  split; [reflexivity|]. split; [reflexivity|].
  pose proof (load_bytes_length _ _ _ _ Hhdr) as Hlh.
  pose proof (load_bytes_length _ _ _ _ Hbody) as Hlb.
  unfold Bucket.serialize, Bucket.count.
  cbn [Bucket.entries Bucket.spill].
  rewrite parse_entries_length.
  pose proof (be_value_bound (take 2 hdr)) as Hk.
  rewrite Z2Nat.id by lia.
  rewrite serialize_parse_entries by exact Hlb.
  rewrite (be_bytes_value_length 2) by (rewrite length_take; lia).
  rewrite (be_bytes_value_length 6) by (rewrite length_drop; lia).
  rewrite app_assoc, take_drop. reflexivity.
Qed.

(** Reading what was stored in on-wire form. *)
Lemma read_store m p h block_size hdr body k :
  length hdr = 8%nat -> length body = (20 * k)%nat ->
  Z.to_nat (Bucket.be_value (take 2 hdr)) = k ->
  bytes h = store_bytes p (hdr ++ body) m ->
  Bucket.read h (Bucket.mk block_size p)
  = Some (Bucket.mk_contents (Bucket.be_value (drop 2 hdr))
            (Bucket.parse_entries k body)).
Proof.
  intros Hlh Hlb Hk Hbytes. unfold Bucket.read, Bucket.header_size.
  cbn [Bucket.p_].
  destruct (load_store_app hdr body p m) as [H1 H2].
  rewrite Hlh in H1, H2. rewrite Hlb in H2. rewrite Hbytes.
  rewrite H1, Hk.
  change (Z.of_nat 8) with 8 in H2. rewrite H2. reflexivity.
Qed.

(** The view of an empty bucket over zeroed bytes shows no entry and no
    spill. *)
Lemma load_zeros : forall n p m (k : nat),
  (n <= k)%nat ->
  load_bytes (store_bytes p (replicate k Byte.x00) m) p n
  = Some (replicate n Byte.x00).
Proof.
  intros n p m k Hle.
  replace k with (n + (k - n))%nat by lia. rewrite replicate_add.
  destruct (load_store_app (replicate n Byte.x00)
              (replicate (k - n) Byte.x00) p m) as [H1 _].
  rewrite length_replicate in H1. exact H1.
Qed.

Lemma read_make_empty block_size p h :
  Bucket.header_size <= block_size ->
  Bucket.read (Bucket.make_empty block_size p h).2
    (Bucket.make_empty block_size p h).1
  = Some (Bucket.mk_contents 0 []).
Proof.
  unfold Bucket.header_size. intros Hbs.
  unfold Bucket.make_empty, Bucket.read.
  cbn [fst snd bytes Bucket.p_].
  rewrite (load_zeros 8) by lia. reflexivity.
Qed.


Lemma serialize_length c :
  Z.of_nat (length (Bucket.serialize c))
  = Bucket.header_size + Bucket.entry_size * Bucket.count c.
Proof.
  unfold Bucket.serialize, Bucket.count, Bucket.header_size,
    Bucket.entry_size.
  rewrite !length_app, !be_bytes_length.
  assert (Hc : forall l,
             length (concat (map Bucket.serialize_entry l))
             = (20 * length l)%nat).
  { induction l as [|e l IH]; [reflexivity|]. cbn [map concat].
    rewrite length_app, IH. unfold Bucket.serialize_entry.
    rewrite !length_app, !be_bytes_length. cbn [length]. lia. }
  rewrite Hc. lia.
Qed.

(** ** Cache operations *)

Lemma emplace_absent n p (m : gmap N ptr) :
  m !! n = None -> Cache.emplace n p m = (p, <[n := p]> m).
Proof. intros Hn. unfold Cache.emplace. rewrite Hn. reflexivity. Qed.

Lemma emplace_present n p q (m : gmap N ptr) :
  m !! n = Some q -> Cache.emplace n p m = (q, m).
Proof. intros Hn. unfold Cache.emplace. rewrite Hn. reflexivity. Qed.

Lemma emplace_dom n p (m : gmap N ptr) :
  dom (Cache.emplace n p m).2 = {[ n ]} ∪ dom m.
Proof.
  unfold Cache.emplace. destruct (m !! n) as [q|] eqn:Hn; simpl.
  - apply set_eq. intros i. rewrite elem_of_union, elem_of_singleton.
    split; [auto|]. intros [->|Hi]; [|exact Hi].
    apply elem_of_dom. eauto.
  - apply dom_insert_L.
Qed.

Lemma create_unfold n c h p a h1 :
  Arena.alloc (Cache.block_size_ c) (Cache.arena_ c) h = Ok (Some p, a, h1) ->
  Cache.create n c h
  = Ok (Bucket.mk (Cache.block_size_ c) p,
        Cache.mk (Cache.key_size_ c) (Cache.block_size_ c) a
          (Cache.emplace n p (Cache.map_ c)).2,
        (Bucket.make_empty (Cache.block_size_ c) p h1).2).
Proof.
  intros Ha. unfold Cache.create. rewrite Ha.
  destruct (Cache.emplace n p (Cache.map_ c)). reflexivity.
Qed.

Lemma write_ok b p size h cont :
  Bucket.read h b = Some cont ->
  Bucket.header_size + Bucket.entry_size * Bucket.count cont <= size ->
  Bucket.write b p size h
  = Ok (mk_heap (next_addr h) (live h)
          (store_bytes p (Bucket.serialize cont) (bytes h))).
Proof.
  intros Hread Hfit. unfold Bucket.write. rewrite Hread.
  rewrite serialize_length.
  destruct (Z.gtb_spec (Bucket.header_size
                        + Bucket.entry_size * Bucket.count cont) size);
    [lia | reflexivity].
Qed.

Lemma insert_unfold n b c h p a h1 h2 :
  Arena.alloc (Bucket.block_size b) (Cache.arena_ c) h = Ok (Some p, a, h1) ->
  Bucket.write b p (Bucket.block_size b) h1 = Ok h2 ->
  Cache.insert n b c h
  = Ok (n, Bucket.mk (Cache.block_size_ c)
             (Cache.emplace n p (Cache.map_ c)).1,
        Cache.mk (Cache.key_size_ c) (Cache.block_size_ c) a
          (Cache.emplace n p (Cache.map_ c)).2, h2).
Proof.
  intros Ha Hw. unfold Cache.insert. rewrite Ha, Hw.
  destruct (Cache.emplace n p (Cache.map_ c)). reflexivity.
Qed.

(** Reads depend on the bytes only. *)
Lemma read_bytes_eq h h' b :
  bytes h' = bytes h -> Bucket.read h' b = Bucket.read h b.
Proof. intros Hb. unfold Bucket.read. rewrite Hb. reflexivity. Qed.

(** A view shows after [write] what the source view showed before. *)
Lemma read_write b p size block_size h h' cont :
  Bucket.read h b = Some cont ->
  Bucket.write b p size h = Ok h' ->
  Bucket.read h' (Bucket.mk block_size p) = Some cont.
Proof.
  intros Hread Hw. unfold Bucket.write in Hw. rewrite Hread in Hw.
  destruct (_ >? _); [discriminate|].
  assert (Hh' : h' = mk_heap (next_addr h) (live h)
                       (store_bytes p (Bucket.serialize cont) (bytes h)))
    by congruence.
  subst h'. clear Hw.
  destruct (read_inv h b cont Hread) as (hdr & body & Hh & Hb & Hk & Hc & Hs).
  rewrite Hs. rewrite Hc at 1.
  apply (read_store (bytes h)).
  - eapply load_bytes_length, Hh.
  - eapply load_bytes_length, Hb.
  - exact Hk.
  - reflexivity.
Qed.

Lemma block_size_request bs :
  0 < bs < 2 ^ 32 ->
  0 < bs < SizeT.modulus /\ bs <= Arena.round8 bs.
Proof.
  intros Hbs. change (2 ^ 32) with 4294967296 in Hbs.
  split; [rewrite modulus_eq; lia|].
  apply round8_small; [lia | rewrite modulus_eq; lia].
Qed.

(** [create] and [insert] succeed on well-formed input and keep the cache
    well formed. *)
Lemma create_ok n c h :
  cache_wf c ->
  exists p a h1,
    Arena.alloc (Cache.block_size_ c) (Cache.arena_ c) h = Ok (Some p, a, h1)
    /\ bytes h1 = bytes h
    /\ Cache.create n c h
       = Ok (Bucket.mk (Cache.block_size_ c) p,
             Cache.mk (Cache.key_size_ c) (Cache.block_size_ c) a
               (Cache.emplace n p (Cache.map_ c)).2,
             (Bucket.make_empty (Cache.block_size_ c) p h1).2)
    /\ cache_wf (Cache.mk (Cache.key_size_ c) (Cache.block_size_ c) a
                   (Cache.emplace n p (Cache.map_ c)).2).
Proof.
  intros [Hwf Hbs]. pose proof Hbs as Hbs'.
  unfold Bucket.header_size in Hbs'.
  destruct (block_size_request (Cache.block_size_ c) ltac:(lia))
    as [Hrange _].
  destruct (alloc_spec _ _ h Hwf Hrange)
    as (p & a & h1 & u & rest & Ha & _ & _ & _ & _ & _ & Hwf' & Hb & _).
  exists p, a, h1. split; [exact Ha|]. split; [exact Hb|].
  split; [apply create_unfold, Ha|]. split; assumption.
Qed.

Lemma insert_ok n b c h cont :
  cache_wf c -> bucket_shows h b cont ->
  exists p a h1,
    Arena.alloc (Bucket.block_size b) (Cache.arena_ c) h = Ok (Some p, a, h1)
    /\ bytes h1 = bytes h
    /\ Cache.insert n b c h
       = Ok (n, Bucket.mk (Cache.block_size_ c)
                  (Cache.emplace n p (Cache.map_ c)).1,
             Cache.mk (Cache.key_size_ c) (Cache.block_size_ c) a
               (Cache.emplace n p (Cache.map_ c)).2,
             mk_heap (next_addr h1) (live h1)
               (store_bytes p (Bucket.serialize cont) (bytes h1)))
    /\ cache_wf (Cache.mk (Cache.key_size_ c) (Cache.block_size_ c) a
                   (Cache.emplace n p (Cache.map_ c)).2).
Proof.
  intros [Hwf Hbs] (Hb & Hread & Hfit).
  destruct (block_size_request (Bucket.block_size b) Hb) as [Hrange _].
  destruct (alloc_spec _ _ h Hwf Hrange)
    as (p & a & h1 & u & rest & Ha & _ & _ & _ & _ & _ & Hwf' & Hbytes & _).
  exists p, a, h1. split; [exact Ha|]. split; [exact Hbytes|].
  split; [|split; assumption].
  apply (insert_unfold n b c h p a h1); [exact Ha|].
  apply write_ok; [|exact Hfit].
  rewrite (read_bytes_eq h h1 b Hbytes). exact Hread.
Qed.

(** The map after a successful [create] or [insert]. *)
Lemma create_map n c h b c' h' :
  Cache.create n c h = Ok (b, c', h') ->
  exists p, Cache.map_ c' = (Cache.emplace n p (Cache.map_ c)).2.
Proof.
  unfold Cache.create.
  destruct (Arena.alloc _ _ _) as [[[[p|] a] h1]| |]; try discriminate.
  destruct (Cache.emplace n p (Cache.map_ c)) as [q m] eqn:He.
  simpl. intros [= <- <- <-]. exists p. rewrite He. reflexivity.
Qed.

Lemma insert_map n b c h r c' h' :
  Cache.insert n b c h = Ok (r, c', h') ->
  exists p, Cache.map_ c' = (Cache.emplace n p (Cache.map_ c)).2.
Proof.
  unfold Cache.insert.
  destruct (Arena.alloc _ _ _) as [[[[p|] a] h1]| |]; try discriminate.
  destruct (Bucket.write _ _ _ _) as [h2| |]; try discriminate.
  destruct (Cache.emplace n p (Cache.map_ c)) as [q m] eqn:He.
  intros [= <- <- <-]. exists p. rewrite He. reflexivity.
Qed.

Lemma emplace_subseteq n p (m : gmap N ptr) : m ⊆ (Cache.emplace n p m).2.
Proof.
  unfold Cache.emplace. destruct (m !! n) eqn:Hn; simpl; [reflexivity|].
  apply insert_subseteq, Hn.
Qed.

(** One operation adds the index it is given, if any, and keeps every
    mapping there was. *)
Lemma step_map o c h c' h' :
  Trace.step o c h = Ok (c', h') ->
  dom (Cache.map_ c') = dom (Cache.map_ c) ∪ Trace.touched [o]
  /\ Cache.map_ c ⊆ Cache.map_ c'.
Proof.
  destruct o as [n|n b|n]; simpl.
  - destruct (Cache.create n c h) as [[[b c1] h1]| |] eqn:Hc;
      try discriminate.
    intros [= <- <-]. destruct (create_map _ _ _ _ _ _ Hc) as [p ->].
    split; [|apply emplace_subseteq].
    rewrite emplace_dom, union_empty_r_L. apply union_comm_L.
  - destruct (Cache.insert n b c h) as [[[r c1] h1]| |] eqn:Hc;
      try discriminate.
    destruct r as [n' v]. intros [= <- <-].
    destruct (insert_map _ _ _ _ _ _ _ Hc) as [p ->].
    split; [|apply emplace_subseteq].
    rewrite emplace_dom, union_empty_r_L. apply union_comm_L.
  - intros [= <- <-]. split; [|reflexivity].
    rewrite union_empty_r_L. reflexivity.
Qed.

Lemma run_map ops : forall c h c' h',
  Trace.run ops c h = Ok (c', h') ->
  dom (Cache.map_ c') = dom (Cache.map_ c) ∪ Trace.touched ops
  /\ Cache.map_ c ⊆ Cache.map_ c'.
Proof.
  induction ops as [|o ops IH]; intros c h c' h'; simpl.
  - intros [= <- <-]. split; [|reflexivity].
    rewrite union_empty_r_L. reflexivity.
  - destruct (Trace.step o c h) as [[c1 h1]| |] eqn:Hs; try discriminate.
    intros Hr. destruct (step_map _ _ _ _ _ Hs) as [Hd1 Hs1].
    destruct (IH _ _ _ _ Hr) as [Hd2 Hs2].
    split; [|etrans; eassumption].
    rewrite Hd2, Hd1. simpl in Hd1.
    destruct o; simpl; rewrite ?union_empty_r_L, ?union_assoc_L; reflexivity.
Qed.

Lemma run_app ops1 : forall ops2 c h r,
  Trace.run (ops1 ++ ops2) c h = Ok r ->
  exists c1 h1,
    Trace.run ops1 c h = Ok (c1, h1) /\ Trace.run ops2 c1 h1 = Ok r.
Proof.
  induction ops1 as [|o ops1 IH]; intros ops2 c h r; simpl.
  - eauto.
  - destruct (Trace.step o c h) as [[c1 h1]| |]; try discriminate.
    apply IH.
Qed.

Lemma clear_map c h : Cache.map_ (Cache.clear c h).1 = ∅.
Proof.
  unfold Cache.clear. destruct (Arena.clear _ _). reflexivity.
Qed.

Lemma find_None_iff i c : Cache.find i c = None <-> i ∉ dom (Cache.map_ c).
Proof.
  unfold Cache.find. rewrite not_elem_of_dom.
  destruct (Cache.map_ c !! i); split; congruence.
Qed.

(** Indices never passed to [create] or [insert] are not found, from an
    empty cache on. *)
Lemma find_untouched ops c h c' h' i :
  Cache.map_ c = ∅ ->
  Trace.run ops c h = Ok (c', h') ->
  i ∉ Trace.touched ops -> Cache.find i c' = None.
Proof.
  intros Hempty Hrun Hi. apply find_None_iff.
  destruct (run_map _ _ _ _ _ Hrun) as [-> _].
  rewrite Hempty, dom_empty_L, union_empty_l_L. exact Hi.
Qed.

(** C1.  For an index [n] not yet in the cache and a bucket [b],
    [insert(n, b)] followed by [find(n)] returns a view showing the contents
    of [b]: same entry count, same spill offset, same entries.  And after
    any operations since the last [clear()], [find(i)] returns nothing for an
    index [i] that was passed neither to [create] nor to [insert]. *)
Theorem insert_then_find
  (n : N) (b : bucket) (c : Cache.cache_t) (h : heap)
  (cont : Bucket.contents) :
  cache_wf c -> bucket_shows h b cont -> Cache.map_ c !! n = None ->
  (exists p c' h',
      Cache.insert n b c h = Ok (n, Bucket.mk (Cache.block_size_ c) p, c', h')
      /\ Cache.find n c' = Some (n, Bucket.mk (Cache.block_size_ c) p)
      /\ Bucket.read h' (Bucket.mk (Cache.block_size_ c) p) = Some cont
      /\ Bucket.read h b = Some cont)
  /\ (forall c0 h0 ops c1 h1 i,
        Trace.run ops (Cache.clear c0 h0).1 (Cache.clear c0 h0).2
        = Ok (c1, h1) ->
        i ∉ Trace.touched ops -> Cache.find i c1 = None).
Proof.
  intros Hwf Hb Hn. split.
  - destruct (insert_ok n b c h cont Hwf Hb)
      as (p & a & h1 & Ha & Hbytes & Hins & _).
    rewrite (emplace_absent n p _ Hn) in Hins. cbn [fst snd] in Hins.
    destruct Hb as (_ & Hread & Hfit).
    exists p. eexists. eexists. split; [exact Hins|].
    split; [unfold Cache.find; cbn [Cache.map_ Cache.block_size_];
            rewrite lookup_insert_eq; reflexivity|].
    split; [|exact Hread].
    eapply (read_write b p (Bucket.block_size b) _ h1).
    + rewrite (read_bytes_eq h h1 b Hbytes). exact Hread.
    + apply write_ok; [|exact Hfit].
      rewrite (read_bytes_eq h h1 b Hbytes). exact Hread.
  - intros c0 h0 ops c1 h1 i Hrun Hi.
    eapply find_untouched; [apply clear_map | exact Hrun | exact Hi].
Qed.

(** C8.  The cache never evicts.  After any sequence of [create], [insert]
    and [find] since the last [clear()], the mapped indices are exactly those
    passed to [create] or [insert]; along the way no mapping is lost; and
    [clear()] leaves [size() == 0] and [find(i)] empty for every [i]. *)
Theorem cache_never_evicts
  (c0 : Cache.cache_t) (h0 : heap) (ops : list Trace.op)
  (c : Cache.cache_t) (h : heap) :
  Trace.run ops (Cache.clear c0 h0).1 (Cache.clear c0 h0).2 = Ok (c, h) ->
  dom (Cache.map_ c) = Trace.touched ops
  /\ (forall ops1 ops2, ops = ops1 ++ ops2 ->
        exists c1 h1,
          Trace.run ops1 (Cache.clear c0 h0).1 (Cache.clear c0 h0).2
          = Ok (c1, h1)
          /\ dom (Cache.map_ c1) = Trace.touched ops1
          /\ Cache.map_ c1 ⊆ Cache.map_ c)
  /\ Cache.size (Cache.clear c h).1 = 0%nat
  /\ forall i, Cache.find i (Cache.clear c h).1 = None.
Proof.
  intros Hrun.
  assert (Hdom : forall ops' c' h',
             Trace.run ops' (Cache.clear c0 h0).1 (Cache.clear c0 h0).2
             = Ok (c', h') ->
             dom (Cache.map_ c') = Trace.touched ops').
  { intros ops' c' h' Hr. destruct (run_map _ _ _ _ _ Hr) as [-> _].
    rewrite clear_map, dom_empty_L, union_empty_l_L. reflexivity. }
  split; [apply (Hdom _ _ _ Hrun)|]. split.
  - intros ops1 ops2 ->.
    destruct (run_app _ _ _ _ _ Hrun) as (c1 & h1 & Hr1 & Hr2).
    exists c1, h1. split; [exact Hr1|]. split; [apply (Hdom _ _ _ Hr1)|].
    apply (run_map _ _ _ _ _ Hr2).
  - split.
    + unfold Cache.size. rewrite clear_map. apply map_size_empty.
    + intros i. apply find_None_iff. rewrite clear_map, dom_empty_L.
      apply not_elem_of_empty.
Qed.


(** ** The running example *)

Lemma insert_then_find_witness :
  cache_wf Example.cache0
  /\ bucket_shows Example.heap0 Example.source Example.contents
  /\ Cache.map_ Example.cache0 !! 3%N = None
  /\ exists p c' h',
      Cache.insert 3%N Example.source Example.cache0 Example.heap0
      = Ok (3%N, Bucket.mk (Cache.block_size_ Example.cache0) p, c', h')
      /\ Cache.find 3%N c'
         = Some (3%N, Bucket.mk (Cache.block_size_ Example.cache0) p)
      /\ Bucket.read h' (Bucket.mk (Cache.block_size_ Example.cache0) p)
         = Some Example.contents
      /\ Bucket.read Example.heap0 Example.source = Some Example.contents.
Proof.
  assert (Hwf : cache_wf Example.cache0).
  { unfold cache_wf, arena_wf, SizeT.in_range, Bucket.header_size; simpl.
    rewrite modulus_eq. repeat split; try lia; constructor. }
  assert (Hb : bucket_shows Example.heap0 Example.source Example.contents).
  { unfold bucket_shows. split; [simpl; lia|].
    split; [vm_compute; reflexivity | vm_compute; discriminate]. }
  assert (Hn : Cache.map_ Example.cache0 !! 3%N = None) by reflexivity.
  split; [exact Hwf|]. split; [exact Hb|]. split; [exact Hn|].
  exact (proj1 (insert_then_find 3%N Example.source Example.cache0
                  Example.heap0 Example.contents Hwf Hb Hn)).
Defined.

Lemma cache_never_evicts_witness :
  exists c h,
    Trace.run Example.ops (Cache.clear Example.cache0 Example.heap0).1
      (Cache.clear Example.cache0 Example.heap0).2 = Ok (c, h)
    /\ dom (Cache.map_ c) = Trace.touched Example.ops
    /\ Cache.size c = 2%nat
    /\ Cache.size (Cache.clear c h).1 = 0%nat.
Proof.
  assert (Hrun : exists c h,
             Trace.run Example.ops (Cache.clear Example.cache0 Example.heap0).1
               (Cache.clear Example.cache0 Example.heap0).2 = Ok (c, h)
             /\ Cache.size c = 2%nat).
  { vm_compute. eexists _, _. split; reflexivity. }
  destruct Hrun as (c & h & Hrun & Hsize).
  exists c, h. split; [exact Hrun|].
  destruct (cache_never_evicts Example.cache0 Example.heap0 Example.ops c h
              Hrun) as (Hdom & _ & Hclear & _).
  split; [exact Hdom|]. split; [exact Hsize | exact Hclear].
Defined.


(** ** Regions do not overlap *)

Lemma arena_inv_init h now : arena_inv h (Arena.init now).
Proof.
  split; [apply arena_wf_init|]. split; [constructor | constructor].
Qed.

(** The region returned by [alloc] lies above the cursor of the element it
    is taken from, or in a block no used element lives in; the elements in
    use stay in use, and their cursors do not move back. *)
Lemma alloc_frame n a h p a' h' :
  arena_inv h a -> 0 < n < SizeT.modulus ->
  Arena.alloc n a h = Ok (Some p, a', h') ->
  arena_inv h' a'
  /\ bytes h' = bytes h
  /\ (exists u rest,
        Arena.used_ a' = u :: rest /\ Element.address u = p.1
        /\ 0 <= p.2 /\ Element.used_ u = p.2 + Arena.round8 n)
  /\ forall e, e ∈ Arena.used_ a ->
       (Element.address e <> p.1 \/ Element.used_ e <= p.2)
       /\ exists e', e' ∈ Arena.used_ a'
                     /\ Element.address e' = Element.address e
                     /\ Element.used_ e <= Element.used_ e'.
Proof.
  intros (Hwf & Hnd & Hlt) Hn Halloc. assert (Hn0 : n <> 0) by lia.
  pose proof (round8_range n) as Hr.
  destruct (alloc_spec n a h Hwf Hn)
    as (p0 & a0 & h0 & u0 & rest0 & Ha0 & Hu0 & Had0 & Hp0 & Hcur0 & _
        & Hwf' & Hb0 & _).
  rewrite Halloc in Ha0. injection Ha0 as <- <- <-.
  assert (Hhead : exists u rest,
             Arena.used_ a' = u :: rest /\ Element.address u = p.1
             /\ 0 <= p.2 /\ Element.used_ u = p.2 + Arena.round8 n)
    by (exists u0, rest0; auto).
  destruct (alloc_cases n a)
    as [(u & us & Hu & Hfit) | [(Hnou & e & fs & Hf & Hfit) | (Hnou & Hnof)]].
  - rewrite (alloc_used n a h u us Hwf Hn0 Hu Hfit) in Halloc.
    injection Halloc as <- <- <-. simpl.
    rewrite Hu in Hnd, Hlt. simpl in Hnd, Hlt.
    split; [|split; [reflexivity|split; [exact Hhead|]]].
    + split; [exact Hwf'|]. simpl. split; [exact Hnd|].
      apply Forall_cons in Hlt as [Hlt1 Hlt2].
      constructor; [exact Hlt1 | exact Hlt2].
    + intros e He. rewrite Hu in He.
      apply elem_of_cons in He as [->|He].
      * split; [right; lia|].
        eexists. split; [apply list_elem_of_here|]. simpl.
        split; [reflexivity | unfold SizeT.in_range in Hr; lia].
      * split.
        -- left. apply NoDup_cons in Hnd as [Hnotin _]. intros Heq.
           apply Hnotin. rewrite <- Heq.
           apply list_elem_of_fmap. exists e. split; [reflexivity|].
           apply elem_of_app. left. exact He.
        -- exists e. split; [apply list_elem_of_further, He|].
           split; [reflexivity | lia].
  - rewrite (alloc_reuse n a h e fs Hwf Hn0 Hnou Hf Hfit) in Halloc.
    injection Halloc as <- <- <-. simpl.
    rewrite Hf in Hnd, Hlt.
    assert (Hperm : Element.address <$> Arena.used_ a ++ e :: fs
                    ≡ₚ Element.address e
                       :: (Element.address <$> Arena.used_ a ++ fs)).
    { rewrite !fmap_app, fmap_cons. symmetry. apply Permutation_middle. }
    split; [|split; [reflexivity|split; [exact Hhead|]]].
    + split; [exact Hwf'|]. simpl. split.
      * rewrite Hperm in Hnd. exact Hnd.
      * apply Forall_app in Hlt as [Hlt1 Hlt2].
        apply Forall_cons in Hlt2 as [Hlte Hlt2].
        constructor; [exact Hlte|]. apply Forall_app. split; assumption.
    + intros e1 He1. split.
      * left. rewrite Hperm in Hnd. apply NoDup_cons in Hnd as [Hnotin _].
        intros Heq. apply Hnotin. rewrite <- Heq.
        apply list_elem_of_fmap. exists e1. split; [reflexivity|].
        apply elem_of_app. left. exact He1.
      * exists e1. split; [apply list_elem_of_further, He1|].
        split; [reflexivity | lia].
  - rewrite (alloc_fresh n a h Hwf Hn0 Hnou Hnof) in Halloc.
    injection Halloc as <- <- <-. simpl.
    split; [|split; [reflexivity|split; [exact Hhead|]]].
    + split; [exact Hwf'|]. simpl. split.
      * constructor; [|exact Hnd]. intros Hin.
        apply list_elem_of_fmap in Hin as (e1 & Heq & He1).
        rewrite Forall_forall in Hlt. specialize (Hlt e1 He1). lia.
      * constructor; [simpl; lia|].
        eapply Forall_impl; [exact Hlt|]. simpl. intros; lia.
    + intros e1 He1. split.
      * left. rewrite Forall_forall in Hlt.
        specialize (Hlt e1 ltac:(apply elem_of_app; left; exact He1)). lia.
      * exists e1. split; [apply list_elem_of_further, He1|].
        split; [reflexivity | lia].
Qed.

(** A read only depends on the bytes the bucket extends over. *)
Lemma read_ext h h' b cont :
  Bucket.read h b = Some cont ->
  (forall i, 0 <= i < extent cont ->
             bytes h' !! ptr_add (Bucket.p_ b) i
             = bytes h !! ptr_add (Bucket.p_ b) i) ->
  Bucket.read h' b = Some cont.
Proof.
  intros Hread Hext.
  destruct (read_inv h b cont Hread) as (hdr & body & Hh & Hb & Hk & Hc & _).
  unfold extent, Bucket.header_size, Bucket.entry_size, Bucket.count in Hext.
  assert (Hh' : load_bytes (bytes h') (Bucket.p_ b) 8 = Some hdr).
  { rewrite <- Hh. apply load_bytes_ext. intros i Hi. apply Hext. lia. }
  assert (Hb' : load_bytes (bytes h') (ptr_add (Bucket.p_ b) 8)
                  (20 * length (Bucket.entries cont)) = Some body).
  { rewrite <- Hb. apply load_bytes_ext. intros i Hi.
    rewrite ptr_add_add. apply Hext. lia. }
  unfold Bucket.read, Bucket.header_size. rewrite Hh', Hk, Hb'.
  symmetry. f_equal. exact Hc.
Qed.

(** A blob is untouched by stores above the cursors and in other blocks. *)
Lemma blob_preserved h h' a a' bs q (p : ptr) :
  blob_ok h a bs q ->
  (forall e, e ∈ Arena.used_ a ->
     (Element.address e <> p.1 \/ Element.used_ e <= p.2)
     /\ exists e', e' ∈ Arena.used_ a'
                   /\ Element.address e' = Element.address e
                   /\ Element.used_ e <= Element.used_ e') ->
  (forall r : ptr, r.1 <> p.1 \/ r.2 < p.2 -> bytes h' !! r = bytes h !! r) ->
  blob_ok h' a' bs q
  /\ Bucket.read h' (Bucket.mk bs q) = Bucket.read h (Bucket.mk bs q).
Proof.
  intros (e & cont & He & Had & Hq & Hread & Hext) Hframe Hbytes.
  destruct (Hframe e He) as (Hdis & e' & He' & Had' & Hle).
  assert (Hread' : Bucket.read h' (Bucket.mk bs q) = Some cont).
  { apply (read_ext h); [exact Hread|]. intros i Hi. apply Hbytes.
    cbn [Bucket.p_]. unfold ptr_add. cbn [fst snd].
    destruct Hdis as [Hne|Hlow]; [left; congruence | right; lia]. }
  split; [|congruence].
  exists e', cont. split; [exact He'|]. split; [congruence|].
  split; [exact Hq|]. split; [exact Hread' | lia].
Qed.

Lemma store_frame (p : ptr) l m (r : ptr) :
  r.1 <> p.1 \/ r.2 < p.2 -> store_bytes p l m !! r = m !! r.
Proof. intros Hr. apply store_bytes_lookup_outside. lia. Qed.

(** The blobs mapped before a [create] or an [insert] are mapped to and show
    the same contents after it, given that the new blob is filled from its
    first byte on and lies above the cursors. *)
Lemma blobs_preserved h h1 h' c a n p bs' :
  cache_inv h c ->
  0 < bs' < SizeT.modulus ->
  Arena.alloc bs' (Cache.arena_ c) h = Ok (Some p, a, h1) ->
  next_addr h' = next_addr h1 ->
  (forall r : ptr, r.1 <> p.1 \/ r.2 < p.2 -> bytes h' !! r = bytes h1 !! r) ->
  (Cache.map_ c !! n = None ->
   blob_ok h' a (Cache.block_size_ c) p) ->
  cache_wf (Cache.mk (Cache.key_size_ c) (Cache.block_size_ c) a
              (Cache.emplace n p (Cache.map_ c)).2) ->
  cache_inv h' (Cache.mk (Cache.key_size_ c) (Cache.block_size_ c) a
                  (Cache.emplace n p (Cache.map_ c)).2)
  /\ forall i q, Cache.map_ c !! i = Some q ->
       (Cache.emplace n p (Cache.map_ c)).2 !! i = Some q
       /\ Bucket.read h' (Bucket.mk (Cache.block_size_ c) q)
          = Bucket.read h (Bucket.mk (Cache.block_size_ c) q).
Proof.
  intros (Hwf & Hai & Hblobs) Hrange Ha Hnext Hbytes Hnew Hwf'.
  destruct (alloc_frame _ _ _ _ _ _ Hai Hrange Ha)
    as ((Hawf' & Hnd' & Hlt') & Hb1 & _ & Hframe).
  assert (Hold : forall i q, Cache.map_ c !! i = Some q ->
             blob_ok h' a (Cache.block_size_ c) q
             /\ Bucket.read h' (Bucket.mk (Cache.block_size_ c) q)
                = Bucket.read h (Bucket.mk (Cache.block_size_ c) q)).
  { intros i q Hi.
    apply (blob_preserved h h' (Cache.arena_ c) a _ q p).
    - exact (Hblobs i q Hi).
    - exact Hframe.
    - intros r Hr. rewrite (Hbytes r Hr), Hb1. reflexivity. }
  split.
  - split; [exact Hwf'|]. cbn [Cache.arena_ Cache.block_size_ Cache.map_].
    split.
    + split; [exact Hawf'|]. split; [exact Hnd'|]. rewrite Hnext. exact Hlt'.
    + unfold Cache.emplace.
      destruct (Cache.map_ c !! n) as [q0|] eqn:Hn; cbn [snd].
      * intros i q Hi. apply (Hold i q Hi).
      * apply map_Forall_insert_2; [apply Hnew; reflexivity|].
        intros i q Hi. apply (Hold i q Hi).
  - intros i q Hi. split; [|apply (Hold i q Hi)].
    eapply lookup_weaken; [exact Hi | apply emplace_subseteq].
Qed.

Lemma create_inv n c h b c' h' :
  cache_inv h c -> Cache.create n c h = Ok (b, c', h') ->
  cache_inv h' c'
  /\ Cache.block_size_ c' = Cache.block_size_ c
  /\ forall i q, Cache.map_ c !! i = Some q ->
       Cache.map_ c' !! i = Some q
       /\ Bucket.read h' (Bucket.mk (Cache.block_size_ c) q)
          = Bucket.read h (Bucket.mk (Cache.block_size_ c) q).
Proof.
  intros Hinv Hcreate. pose proof Hinv as (Hwf & Hai & _).
  destruct (create_ok n c h Hwf) as (p & a & h1 & Ha & Hb1 & Hc & Hwf').
  rewrite Hc in Hcreate.
  assert (Hc' : c' = Cache.mk (Cache.key_size_ c) (Cache.block_size_ c) a
                       (Cache.emplace n p (Cache.map_ c)).2) by congruence.
  assert (Hh' : h' = (Bucket.make_empty (Cache.block_size_ c) p h1).2)
    by congruence.
  clear Hcreate Hc. subst c' h'.
  destruct Hwf as [Hawf Hbs]. pose proof Hbs as Hbs'.
  unfold Bucket.header_size in Hbs'.
  destruct (block_size_request (Cache.block_size_ c) ltac:(lia))
    as [Hrange Hround].
  destruct (alloc_frame _ _ _ _ _ _ Hai Hrange Ha)
    as (_ & _ & (u & rest & Hu & Hadu & Hp & Hcur) & _).
  destruct (blobs_preserved h h1
              (Bucket.make_empty (Cache.block_size_ c) p h1).2 c a n p
              (Cache.block_size_ c) Hinv Hrange Ha) as [Hinv' Hold].
  - reflexivity.
  - intros r Hr. apply store_frame, Hr.
  - intros _. exists u, (Bucket.mk_contents 0 []).
    split; [rewrite Hu; apply list_elem_of_here|].
    split; [exact Hadu|]. split; [exact Hp|].
    split; [apply (read_make_empty (Cache.block_size_ c) p h1), Hbs|].
    unfold extent, Bucket.header_size, Bucket.entry_size, Bucket.count.
    cbn [Bucket.entries length]. lia.
  - exact Hwf'.
  - split; [exact Hinv'|]. split; [reflexivity | exact Hold].
Qed.

(** ** Ownership of system blocks *)

Lemma elem_of_addresses ad l :
  ad ∈ addresses l <-> ad ∈ Element.address <$> l.
Proof. unfold addresses. rewrite elem_of_list_to_set. reflexivity. Qed.

Lemma addresses_app l1 l2 : addresses (l1 ++ l2) = addresses l1 ∪ addresses l2.
Proof.
  apply set_eq. intros ad.
  rewrite elem_of_union, !elem_of_addresses, fmap_app, elem_of_app.
  reflexivity.
Qed.

Lemma addresses_nil : addresses [] = ∅.
Proof. reflexivity. Qed.

(** Ownership only depends on the addresses, not on their order. *)
Lemma owns_perm base h l l' :
  Element.address <$> l ≡ₚ Element.address <$> l' ->
  owns base h l -> owns base h l'.
Proof.
  intros Hp (Hnd & Hdom & Hdis & Hh).
  assert (Heq : addresses l' = addresses l).
  { apply set_eq. intros ad. rewrite !elem_of_addresses, Hp. reflexivity. }
  split; [rewrite <- Hp; exact Hnd|].
  rewrite Heq. repeat split; assumption.
Qed.

Lemma heap_wf_delete ad h : heap_wf h -> heap_wf (sys_delete ad h).
Proof.
  intros Hh x [v Hx]. apply Hh. simpl in Hx.
  apply lookup_delete_Some in Hx as [_ Hx]. eauto.
Qed.

Lemma owns_delete base h e l :
  owns base h (e :: l) -> owns base (sys_delete (Element.address e) h) l.
Proof.
  intros (Hnd & Hdom & Hdis & Hh).
  rewrite fmap_cons in Hnd. apply NoDup_cons in Hnd as [Hnotin Hnd].
  rewrite addresses_cons in Hdom, Hdis.
  assert (Hnl : Element.address e ∉ addresses l)
    by (rewrite elem_of_addresses; exact Hnotin).
  split; [exact Hnd|]. split; [|split].
  - simpl. rewrite dom_delete_L, Hdom. apply set_eq. intros ad.
    rewrite elem_of_difference, !elem_of_union, !elem_of_singleton.
    split.
    + intros [[Hb|[He|Hl]] Hne]; [left; exact Hb | congruence | right; exact Hl].
    + intros [Hb|Hl].
      * split; [left; exact Hb|]. intros ->.
        apply (Hdis (Element.address e)); [exact Hb|].
        apply elem_of_union. left. apply elem_of_singleton. reflexivity.
      * split; [right; right; exact Hl|]. intros ->. exact (Hnl Hl).
  - intros ad Hb Hl. apply (Hdis ad Hb). apply elem_of_union. right. exact Hl.
  - apply heap_wf_delete, Hh.
Qed.

Lemma owns_new base h l size capacity used :
  owns base h l ->
  owns base (sys_new size h).2
    (Element.mk (next_addr h) capacity used :: l).
Proof.
  intros (Hnd & Hdom & Hdis & Hh).
  assert (Hfresh : next_addr h ∉ dom (live h)).
  { intros Hin. apply elem_of_dom in Hin. specialize (Hh _ Hin). lia. }
  rewrite Hdom in Hfresh.
  split; [|split; [|split]].
  - rewrite fmap_cons. apply NoDup_cons. split; [|exact Hnd].
    cbn [Element.address]. rewrite <- elem_of_addresses. intros Hin.
    apply Hfresh. apply elem_of_union. right. exact Hin.
  - cbn [sys_new snd live]. rewrite dom_insert_L, Hdom, addresses_cons.
    cbn [Element.address]. apply set_eq. intros ad.
    rewrite !elem_of_union, !elem_of_singleton. tauto.
  - rewrite addresses_cons. cbn [Element.address]. intros ad Hb Hin.
    apply elem_of_union in Hin as [Hin|Hin].
    + apply elem_of_singleton in Hin as ->.
      apply Hfresh. apply elem_of_union. left. exact Hb.
    + exact (Hdis ad Hb Hin).
  - intros ad [v Hv]. cbn [sys_new snd live next_addr] in *.
    apply lookup_insert_Some in Hv as [[<- _]|[_ Hv]]; [lia|].
    specialize (Hh ad ltac:(eauto)). lia.
Qed.

Lemma dealloc_owns base l : forall rest h,
  owns base h (l ++ rest) -> owns base (Arena.dealloc l h).2 rest.
Proof.
  induction l as [|e l IH]; intros rest h Ho; simpl; [exact Ho|].
  apply IH. apply owns_delete. exact Ho.
Qed.

Lemma clear_loop_owns base allocSize used : forall free h,
  owns base h (used ++ free) ->
  owns base (Arena.clear_loop allocSize used free h).2
    (Arena.clear_loop allocSize used free h).1.
Proof.
  induction used as [|e used IH]; intros free h Ho; simpl; [exact Ho|].
  destruct (_ =? _).
  - apply IH. eapply owns_perm; [|exact Ho].
    rewrite !fmap_app, !fmap_cons. cbn [Element.clear Element.address].
    apply Permutation_middle.
  - apply IH. apply (owns_delete base h e). exact Ho.
Qed.

(** ** What every operation of the arena keeps *)

Lemma alloc_good base n a h p a' h' :
  arena_good base h a -> 0 < n < SizeT.modulus ->
  Arena.alloc n a h = Ok (p, a', h') ->
  arena_good base h' a'.
Proof.
  intros (Hwf & Hal & Hfu & Ho) Hn Halloc. assert (Hn0 : n <> 0) by lia.
  destruct (alloc_spec n a h Hwf Hn)
    as (p0 & a0 & h0 & u0 & rest0 & Ha0 & _ & _ & _ & _ & _ & Hwf' & _ & Hal').
  rewrite Halloc in Ha0. injection Ha0 as -> <- <-.
  destruct (Hal' Hal) as [_ Hal''].
  split; [exact Hwf'|]. split; [exact Hal''|].
  destruct (alloc_cases n a)
    as [(u & us & Hu & Hfit) | [(Hnou & e & fs & Hf & Hfit) | (Hnou & Hnof)]].
  - rewrite (alloc_used n a h u us Hwf Hn0 Hu Hfit) in Halloc.
    injection Halloc as <- <- <-. split; [exact Hfu|].
    cbn [Arena.used_ Arena.free_]. rewrite Hu in Ho.
    eapply owns_perm; [|exact Ho]. reflexivity.
  - rewrite (alloc_reuse n a h e fs Hwf Hn0 Hnou Hf Hfit) in Halloc.
    injection Halloc as <- <- <-. split.
    + unfold free_uniform in *. cbn [Arena.free_ Arena.allocSize_].
      rewrite Hf in Hfu. apply Forall_cons in Hfu as [_ Hfu]. exact Hfu.
    + cbn [Arena.used_ Arena.free_]. rewrite Hf in Ho.
      eapply owns_perm; [|exact Ho].
      rewrite !fmap_app, !fmap_cons. cbn [Element.address app].
      symmetry. apply Permutation_middle.
  - rewrite (alloc_fresh n a h Hwf Hn0 Hnou Hnof) in Halloc.
    injection Halloc as <- <- <-. split; [exact Hfu|].
    cbn [Arena.used_ Arena.free_].
    apply (owns_new base h _
             (SizeT.add Element.sizeof
                (Z.max (Arena.allocSize_ a) (Arena.round8 n)))).
    exact Ho.
Qed.

Lemma clear_wf a h : arena_wf a -> arena_wf (Arena.clear a h).1.
Proof.
  intros (Hsz & Hna & Hus & Hfs). unfold Arena.clear.
  destruct (clear_loop_spec (Arena.allocSize_ a) (Arena.used_ a) Hus
              (Arena.free_ a) h) as (H1 & _).
  destruct (Arena.clear_loop _ _ _ _) as [free h']. cbn [fst] in *.
  subst free. split; [exact Hsz|]. split; [exact Hna|].
  split; [constructor|]. cbn [Arena.free_].
  apply Forall_app. split; [|exact Hfs].
  apply Forall_rev, Forall_forall. intros e He.
  apply list_elem_of_fmap in He as (e0 & -> & He0).
  apply list_elem_of_filter in He0 as [_ He0].
  rewrite Forall_forall in Hus. destruct (Hus e0 He0) as (H0 & H1 & H2).
  unfold element_wf. cbn [Element.clear Element.used_ Element.capacity_]. lia.
Qed.

Lemma clear_free_uniform a h :
  arena_wf a -> free_uniform a -> free_uniform (Arena.clear a h).1.
Proof.
  intros (_ & _ & Hus & _) Hfu. unfold Arena.clear.
  destruct (clear_loop_spec (Arena.allocSize_ a) (Arena.used_ a) Hus
              (Arena.free_ a) h) as (H1 & _).
  destruct (Arena.clear_loop _ _ _ _) as [free h']. cbn [fst] in *.
  subst free. unfold free_uniform. cbn [Arena.free_ Arena.allocSize_].
  apply Forall_app. split; [|exact Hfu].
  apply Forall_rev, Forall_forall. intros e He.
  apply list_elem_of_fmap in He as (e0 & -> & He0).
  apply list_elem_of_filter in He0 as [Hcap _].
  split; [reflexivity | exact Hcap].
Qed.

Lemma clear_good base a h :
  arena_good base h a -> arena_good base (Arena.clear a h).2 (Arena.clear a h).1.
Proof.
  intros (Hwf & Hal & Hfu & Ho).
  split; [apply clear_wf, Hwf|]. split; [apply arena_aligned_clear, Hal|].
  split; [apply clear_free_uniform; assumption|].
  pose proof (clear_loop_owns base (Arena.allocSize_ a) (Arena.used_ a)
                (Arena.free_ a) h Ho) as Hc.
  unfold Arena.clear. destruct (Arena.clear_loop _ _ _ _) as [free h'].
  exact Hc.
Qed.

(** Dropping the free list leaves the used list as it is and releases the
    free elements only. *)
Lemma drop_free_good base a h allocSize nalloc when :
  SizeT.in_range allocSize -> SizeT.in_range nalloc ->
  arena_good base h a ->
  arena_good base (Arena.dealloc (Arena.free_ a) h).2
    (Arena.mk allocSize nalloc (Arena.used_ a)
       (Arena.dealloc (Arena.free_ a) h).1 when).
Proof.
  intros Hsz Hna ((_ & _ & Hus & _) & (Hau & _) & _ & Ho).
  destruct (dealloc_spec (Arena.free_ a) h) as (Hd & _). rewrite Hd.
  split; [split; [exact Hsz|]; split; [exact Hna|]; split;
          [exact Hus | constructor]|].
  split; [split; [exact Hau | constructor]|].
  split; [constructor|].
  cbn [Arena.used_ Arena.free_]. rewrite app_nil_r.
  apply (dealloc_owns base (Arena.free_ a) (Arena.used_ a) h).
  eapply owns_perm; [|exact Ho]. rewrite !fmap_app. apply Permutation_app_comm.
Qed.

Lemma shrink_to_fit_good base a h :
  arena_good base h a ->
  arena_good base (Arena.shrink_to_fit a h).2 (Arena.shrink_to_fit a h).1.
Proof.
  intros Hg. pose proof Hg as ((Hsz & Hna & _) & _).
  pose proof (drop_free_good base a h (Arena.allocSize_ a) (Arena.nalloc_ a)
                (Arena.when_ a) Hsz Hna Hg) as Hd.
  unfold Arena.shrink_to_fit.
  destruct (Arena.dealloc (Arena.free_ a) h) as [free h']. exact Hd.
Qed.

Lemma periodic_activity_good rate_of base now a h :
  (forall x y, SizeT.in_range (rate_of x y)) ->
  arena_good base h a ->
  arena_good base (Arena.periodic_activity rate_of now a h).2
    (Arena.periodic_activity rate_of now a h).1.
Proof.
  intros Hrate Hg. pose proof Hg as ((Hsz & Hna & Hus & Hfs) & Hal & Hfu & Ho).
  unfold Arena.periodic_activity.
  destruct (_ <? _); [exact Hg|].
  set (rate := rate_of (Arena.nalloc_ a) (now - Arena.when_ a)).
  assert (H0 : SizeT.in_range 0) by size_range.
  destruct (_ >=? _); [|destruct (_ <=? _)].
  - pose proof (drop_free_good base a h
        (Z.max rate (SizeT.mul (Arena.allocSize_ a) 2)) 0 now) as Hd.
    destruct (Arena.dealloc (Arena.free_ a) h) as [free h']. apply Hd; auto.
    pose proof (Hrate (Arena.nalloc_ a) (now - Arena.when_ a)).
    pose proof (wrap_range (Arena.allocSize_ a * 2)).
    unfold SizeT.mul. fold rate in H. size_range.
  - pose proof (drop_free_good base a h (Arena.allocSize_ a / 2) 0 now) as Hd.
    destruct (Arena.dealloc (Arena.free_ a) h) as [free h']. apply Hd; auto.
    unfold SizeT.in_range in *. rewrite modulus_eq in *.
    split; [apply Z.div_pos; lia|].
    apply Z.div_lt_upper_bound; lia.
  - split; [split; [exact Hsz|]; split; [exact H0|]; split; assumption|].
    split; [exact Hal|]. split; [exact Hfu | exact Ho].
Qed.

Lemma alloc_zero_assert a h : Arena.alloc 0 a h = AssertionFailed.
Proof. reflexivity. Qed.

Lemma step_good rate_of base o a h a' h' :
  (forall x y, SizeT.in_range (rate_of x y)) ->
  ArenaTrace.typed o ->
  arena_good base h a ->
  ArenaTrace.step rate_of o a h = Ok (a', h') ->
  arena_good base h' a'.
Proof.
  intros Hrate Ht Hg. destruct o as [n| | |now]; simpl.
  - destruct (Arena.alloc n a h) as [[[p a1] h1]| |] eqn:Ha; try discriminate.
    intros [= <- <-]. simpl in Ht.
    assert (n <> 0).
    { intros ->. rewrite alloc_zero_assert in Ha. discriminate. }
    apply (alloc_good base n a h p a1 h1 Hg ltac:(lia) Ha).
  - intros [= Heq]. rewrite (surjective_pairing (Arena.clear a h)) in Heq.
    injection Heq as <- <-. apply clear_good, Hg.
  - intros [= Heq].
    rewrite (surjective_pairing (Arena.shrink_to_fit a h)) in Heq.
    injection Heq as <- <-. apply shrink_to_fit_good, Hg.
  - intros [= Heq].
    rewrite (surjective_pairing (Arena.periodic_activity _ _ a h)) in Heq.
    injection Heq as <- <-. apply periodic_activity_good; assumption.
Qed.

Lemma run_good rate_of base ops : forall a h a' h',
  (forall x y, SizeT.in_range (rate_of x y)) ->
  Forall ArenaTrace.typed ops ->
  arena_good base h a ->
  ArenaTrace.run rate_of ops a h = Ok (a', h') ->
  arena_good base h' a'.
Proof.
  induction ops as [|o ops IH]; intros a h a' h' Hrate Ht Hg; simpl.
  - intros [= <- <-]. exact Hg.
  - apply Forall_cons in Ht as [Ho Ht].
    destruct (ArenaTrace.step rate_of o a h) as [[a1 h1]| |] eqn:Hs;
      try discriminate.
    apply IH; [exact Hrate | exact Ht |].
    eapply step_good; eassumption.
Qed.

Lemma arena_good_init h now :
  heap_wf h -> arena_good (dom (live h)) h (Arena.init now).
Proof.
  intros Hh. split; [apply arena_wf_init|].
  split; [apply arena_aligned_init|]. split; [constructor|].
  split; [constructor|]. simpl. rewrite addresses_nil.
  split; [rewrite union_empty_r_L; reflexivity|].
  split; [apply disjoint_empty_r | exact Hh].
Qed.

(** ** Reachable states of the arena *)

Lemma wrapped_rate_range x y : SizeT.in_range (wrapped_rate x y).
Proof. apply wrap_range. Qed.

Lemma heap_wf_empty : heap_wf empty_heap.
Proof. intros ad [v Hv]. simpl in Hv. rewrite lookup_empty in Hv. discriminate. Qed.

Lemma example_session_typed : Forall ArenaTrace.typed example_session.
Proof.
  unfold example_session. repeat constructor; simpl; rewrite ?modulus_eq; lia.
Qed.

(** X1.  In every state reached from a new arena by [alloc], [clear],
    [shrink_to_fit] and [periodic_activity], each element of the used and of
    the free list has its cursor between 0 and its capacity, and at a
    multiple of 8. *)
Theorem arena_cursors_invariant
  (rate_of : Z -> Z -> Z) (now : Z) (h0 : heap)
  (ops : list ArenaTrace.op) (a : Arena.arena_t) (h : heap) :
  (forall x y, SizeT.in_range (rate_of x y)) ->
  heap_wf h0 ->
  Forall ArenaTrace.typed ops ->
  ArenaTrace.run rate_of ops (Arena.init now) h0 = Ok (a, h) ->
  Forall (fun e => 0 <= Element.used_ e
                   /\ Element.used_ e <= Element.capacity_ e
                   /\ Element.capacity_ e < SizeT.modulus
                   /\ Element.used_ e mod 8 = 0)
    (Arena.used_ a ++ Arena.free_ a).
Proof.
  intros Hrate Hh Ht Hrun.
  destruct (run_good rate_of (dom (live h0)) ops _ _ _ _ Hrate Ht
              (arena_good_init h0 now Hh) Hrun)
    as ((_ & _ & Hus & Hfs) & (Hau & Haf) & _).
  apply Forall_app. split; apply Forall_forall; intros e He.
  - rewrite Forall_forall in Hus, Hau.
    destruct (Hus e He) as (? & ? & ?). specialize (Hau e He). auto.
  - rewrite Forall_forall in Hfs, Haf.
    destruct (Hfs e He) as (? & ? & ?). specialize (Haf e He). auto.
Qed.

Lemma arena_cursors_invariant_witness :
  exists a h,
    ArenaTrace.run wrapped_rate example_session (Arena.init 0) empty_heap
    = Ok (a, h)
    /\ Arena.used_ a = [Element.mk 2%nat 2552 8]
    /\ Forall (fun e => 0 <= Element.used_ e
                        /\ Element.used_ e <= Element.capacity_ e
                        /\ Element.capacity_ e < SizeT.modulus
                        /\ Element.used_ e mod 8 = 0)
         (Arena.used_ a ++ Arena.free_ a).
Proof.
  assert (Hrun : exists a h,
             ArenaTrace.run wrapped_rate example_session (Arena.init 0)
               empty_heap = Ok (a, h)
             /\ Arena.used_ a = [Element.mk 2%nat 2552 8]).
  { vm_compute. eexists _, _. split; reflexivity. }
  destruct Hrun as (a & h & Hrun & Hused).
  exists a, h. split; [exact Hrun|]. split; [exact Hused|].
  apply (arena_cursors_invariant wrapped_rate 0 empty_heap example_session a h).
  - intros x y. apply Z.mod_pos_bound. reflexivity.
  - intros ad [v Hv]. vm_compute in Hv. discriminate.
  - unfold example_session.
    repeat constructor; simpl; rewrite ?modulus_eq; lia.
  - exact Hrun.
Defined.

(** X2.  In every reachable state, each element of the free list is empty
    and has exactly the current [allocSize_] as capacity: the free list is
    dropped whenever [allocSize_] changes, and [clear] only keeps elements
    of that capacity. *)
Theorem free_list_uniform
  (rate_of : Z -> Z -> Z) (now : Z) (h0 : heap)
  (ops : list ArenaTrace.op) (a : Arena.arena_t) (h : heap) :
  (forall x y, SizeT.in_range (rate_of x y)) ->
  heap_wf h0 ->
  Forall ArenaTrace.typed ops ->
  ArenaTrace.run rate_of ops (Arena.init now) h0 = Ok (a, h) ->
  Forall (fun e => Element.used_ e = 0
                   /\ Element.capacity_ e = Arena.allocSize_ a)
    (Arena.free_ a).
Proof.
  intros Hrate Hh Ht Hrun.
  apply (run_good rate_of (dom (live h0)) ops _ _ _ _ Hrate Ht
           (arena_good_init h0 now Hh) Hrun).
Qed.

Lemma free_list_uniform_witness :
  exists a h,
    ArenaTrace.run wrapped_rate (take 5 example_session) (Arena.init 0)
      empty_heap = Ok (a, h)
    /\ Arena.free_ a = [Element.mk 2%nat 2552 0]
    /\ Forall (fun e => Element.used_ e = 0
                        /\ Element.capacity_ e = Arena.allocSize_ a)
         (Arena.free_ a).
Proof.
  assert (Hrun : exists a h,
             ArenaTrace.run wrapped_rate (take 5 example_session)
               (Arena.init 0) empty_heap = Ok (a, h)
             /\ Arena.free_ a = [Element.mk 2%nat 2552 0]).
  { vm_compute. eexists _, _. split; reflexivity. }
  destruct Hrun as (a & h & Hrun & Hfree).
  exists a, h. split; [exact Hrun|]. split; [exact Hfree|].
  apply (free_list_uniform wrapped_rate 0 empty_heap
           (take 5 example_session) a h).
  - intros x y. apply Z.mod_pos_bound. reflexivity.
  - intros ad [v Hv]. vm_compute in Hv. discriminate.
  - unfold example_session. simpl.
    repeat constructor; simpl; rewrite ?modulus_eq; lia.
  - exact Hrun.
Defined.

(** X3.  In every reachable state the elements of the arena live in distinct
    live blocks, and the live blocks are those that were live when the arena
    was created together with those of the arena: no block in use has been
    released, no block of another owner has been touched, and no block has
    been lost. *)
Theorem arena_owns_its_blocks
  (rate_of : Z -> Z -> Z) (now : Z) (h0 : heap)
  (ops : list ArenaTrace.op) (a : Arena.arena_t) (h : heap) :
  (forall x y, SizeT.in_range (rate_of x y)) ->
  heap_wf h0 ->
  Forall ArenaTrace.typed ops ->
  ArenaTrace.run rate_of ops (Arena.init now) h0 = Ok (a, h) ->
  NoDup (Element.address <$> Arena.used_ a ++ Arena.free_ a)
  /\ (forall e, e ∈ Arena.used_ a ++ Arena.free_ a ->
                is_Some (live h !! Element.address e)
                /\ live h0 !! Element.address e = None)
  /\ dom (live h)
     = dom (live h0) ∪ addresses (Arena.used_ a ++ Arena.free_ a).
Proof.
  intros Hrate Hh Ht Hrun.
  destruct (run_good rate_of (dom (live h0)) ops _ _ _ _ Hrate Ht
              (arena_good_init h0 now Hh) Hrun)
    as (_ & _ & _ & Hnd & Hdom & Hdis & _).
  split; [exact Hnd|]. split; [|exact Hdom].
  intros e He.
  assert (Hin : Element.address e
                ∈ addresses (Arena.used_ a ++ Arena.free_ a)).
  { apply elem_of_addresses, list_elem_of_fmap. eauto. }
  split.
  - apply elem_of_dom. rewrite Hdom. apply elem_of_union. right. exact Hin.
  - apply not_elem_of_dom. intros Hb. exact (Hdis _ Hb Hin).
Qed.

Lemma arena_owns_its_blocks_witness :
  exists a h,
    ArenaTrace.run wrapped_rate (take 4 example_session) (Arena.init 0)
      empty_heap = Ok (a, h)
    /\ (Element.address <$> Arena.used_ a) = [2%nat; 1%nat; 0%nat]
    /\ NoDup (Element.address <$> Arena.used_ a ++ Arena.free_ a)
    /\ dom (live h)
       = dom (live empty_heap) ∪ addresses (Arena.used_ a ++ Arena.free_ a).
Proof.
  assert (Hrun : exists a h,
             ArenaTrace.run wrapped_rate (take 4 example_session)
               (Arena.init 0) empty_heap = Ok (a, h)
             /\ (Element.address <$> Arena.used_ a) = [2%nat; 1%nat; 0%nat]).
  { vm_compute. eexists _, _. split; reflexivity. }
  destruct Hrun as (a & h & Hrun & Hused).
  exists a, h. split; [exact Hrun|]. split; [exact Hused|].
  assert (Hrate : forall x y, SizeT.in_range (wrapped_rate x y))
    by (intros x y; apply Z.mod_pos_bound; reflexivity).
  assert (Hh : heap_wf empty_heap)
    by (intros ad [v Hv]; vm_compute in Hv; discriminate).
  assert (Ht : Forall ArenaTrace.typed (take 4 example_session)).
  { unfold example_session. simpl.
    repeat constructor; simpl; rewrite ?modulus_eq; lia. }
  destruct (arena_owns_its_blocks wrapped_rate 0 empty_heap
              (take 4 example_session) a h Hrate Hh Ht Hrun)
    as (Hnd & _ & Hdom).
  split; assumption.
Defined.

(** X4.  The destructor gives back to the system every block the arena
    holds: after any session, the live blocks are again exactly those that
    were live before the arena was created. *)
Theorem destroy_releases_all
  (rate_of : Z -> Z -> Z) (now : Z) (h0 : heap)
  (ops : list ArenaTrace.op) (a : Arena.arena_t) (h : heap) :
  (forall x y, SizeT.in_range (rate_of x y)) ->
  heap_wf h0 ->
  Forall ArenaTrace.typed ops ->
  ArenaTrace.run rate_of ops (Arena.init now) h0 = Ok (a, h) ->
  dom (live (Arena.destroy a h)) = dom (live h0).
Proof.
  intros Hrate Hh Ht Hrun.
  destruct (run_good rate_of (dom (live h0)) ops _ _ _ _ Hrate Ht
              (arena_good_init h0 now Hh) Hrun) as (_ & _ & _ & Ho).
  unfold Arena.destroy.
  pose proof (dealloc_owns _ (Arena.used_ a) (Arena.free_ a) h Ho) as H1.
  destruct (Arena.dealloc (Arena.used_ a) h) as [l1 h1]. cbn [snd] in H1.
  rewrite <- (app_nil_r (Arena.free_ a)) in H1.
  pose proof (dealloc_owns _ (Arena.free_ a) [] h1 H1) as H2.
  destruct (Arena.dealloc (Arena.free_ a) h1) as [l2 h2]. cbn [snd] in H2.
  destruct H2 as (_ & Hdom & _). rewrite Hdom, addresses_nil.
  apply union_empty_r_L.
Qed.

Lemma destroy_releases_all_witness :
  exists a h,
    ArenaTrace.run wrapped_rate example_session (Arena.init 0) empty_heap
    = Ok (a, h)
    /\ dom (live h) = {[ 2%nat ]}
    /\ dom (live (Arena.destroy a h)) = dom (live empty_heap).
Proof.
  assert (Hrun : exists a h,
             ArenaTrace.run wrapped_rate example_session (Arena.init 0)
               empty_heap = Ok (a, h)
             /\ dom (live h) = {[ 2%nat ]}).
  { vm_compute. eexists _, _. split; reflexivity. }
  destruct Hrun as (a & h & Hrun & Hlive).
  exists a, h. split; [exact Hrun|]. split; [exact Hlive|].
  apply (destroy_releases_all wrapped_rate 0 empty_heap example_session a h).
  - intros x y. apply Z.mod_pos_bound. reflexivity.
  - intros ad [v Hv]. vm_compute in Hv. discriminate.
  - unfold example_session.
    repeat constructor; simpl; rewrite ?modulus_eq; lia.
  - exact Hrun.
Defined.

(** ** Regions handed out *)

Lemma arena_good_inv base h a : arena_good base h a -> arena_inv h a.
Proof.
  intros (Hwf & _ & _ & Hnd & Hdom & _ & Hh).
  split; [exact Hwf|]. split; [exact Hnd|].
  apply Forall_forall. intros e He. apply Hh, elem_of_dom.
  rewrite Hdom. apply elem_of_union. right.
  apply elem_of_addresses, list_elem_of_fmap. eauto.
Qed.

Lemma alloc_keeps_region n a h p a' h' q m :
  arena_inv h a -> 0 < n < SizeT.modulus ->
  Arena.alloc n a h = Ok (Some p, a', h') ->
  region_in a' p (Arena.round8 n)
  /\ (region_in a q m ->
      region_in a' q m /\ (q.1 <> p.1 \/ q.2 + m <= p.2)).
Proof.
  intros Hinv Hn Ha.
  destruct (alloc_frame n a h p a' h' Hinv Hn Ha)
    as (_ & _ & (u & rest & Hu & Had & Hp & Hcur) & Hframe).
  split.
  - exists u. rewrite Hu. split; [apply list_elem_of_here|].
    split; [exact Had|]. split; [exact Hp | lia].
  - intros (e & He & Hade & Hq & Hle).
    destruct (Hframe e He) as (Hdis & e' & He' & Hade' & Hle').
    split.
    + exists e'. split; [exact He'|]. split; [congruence|].
      split; [exact Hq | lia].
    + destruct Hdis as [Hne|Hlow]; [left; congruence | right; lia].
Qed.

Lemma periodic_activity_used rate_of now a h :
  Arena.used_ (Arena.periodic_activity rate_of now a h).1 = Arena.used_ a.
Proof.
  unfold Arena.periodic_activity.
  destruct (Arena.dealloc (Arena.free_ a) h) as [free h1].
  repeat match goal with
         | |- context [if ?b then _ else _] => destruct b
         end; reflexivity.
Qed.

Lemma shrink_to_fit_used a h :
  Arena.used_ (Arena.shrink_to_fit a h).1 = Arena.used_ a.
Proof.
  unfold Arena.shrink_to_fit.
  destruct (Arena.dealloc (Arena.free_ a) h) as [free h1]. reflexivity.
Qed.

Lemma step_keeps_region rate_of base o a h a' h' q m :
  arena_good base h a ->
  ArenaTrace.typed o -> ArenaTrace.keeps_regions o ->
  ArenaTrace.step rate_of o a h = Ok (a', h') ->
  region_in a q m -> region_in a' q m.
Proof.
  intros Hg Ht Hk. destruct o as [n| | |now]; simpl.
  - destruct (Arena.alloc n a h) as [[[p a1] h1]| |] eqn:Ha; try discriminate.
    intros [= <- <-] Hr. simpl in Ht.
    assert (n <> 0).
    { intros ->. rewrite alloc_zero_assert in Ha. discriminate. }
    destruct (alloc_spec n a h (proj1 Hg) ltac:(lia))
      as (p0 & a0 & h0 & _ & _ & Ha0 & _).
    rewrite Ha0 in Ha. injection Ha as <- <- <-.
    apply (alloc_keeps_region n a h p0 a0 h0 q m
             (arena_good_inv _ _ _ Hg) ltac:(lia) Ha0). exact Hr.
  - destruct Hk.
  - intros [= Heq] (e & He & Hr).
    exists e. split; [|exact Hr].
    replace a' with (Arena.shrink_to_fit a h).1 by (rewrite Heq; reflexivity).
    rewrite shrink_to_fit_used. exact He.
  - intros [= Heq] (e & He & Hr).
    exists e. split; [|exact Hr].
    replace a' with (Arena.periodic_activity rate_of now a h).1
      by (rewrite Heq; reflexivity).
    rewrite periodic_activity_used. exact He.
Qed.

Lemma run_keeps_region rate_of base ops : forall a h a' h' q m,
  (forall x y, SizeT.in_range (rate_of x y)) ->
  arena_good base h a ->
  Forall ArenaTrace.typed ops -> Forall ArenaTrace.keeps_regions ops ->
  ArenaTrace.run rate_of ops a h = Ok (a', h') ->
  region_in a q m -> region_in a' q m.
Proof.
  induction ops as [|o ops IH]; intros a h a' h' q m Hrate Hg Ht Hk; simpl.
  - intros [= <- <-] Hr. exact Hr.
  - apply Forall_cons in Ht as [Ho Ht]. apply Forall_cons in Hk as [Hko Hk].
    destruct (ArenaTrace.step rate_of o a h) as [[a1 h1]| |] eqn:Hs;
      try discriminate.
    intros Hrun Hr.
    apply (IH a1 h1 a' h' q m Hrate); try assumption.
    + eapply step_good; eassumption.
    + eapply step_keeps_region; eassumption.
Qed.

(** X5.  Two regions handed out by [alloc] never overlap, as long as the
    arena is not cleared in between: the later region is in another block
    or starts at or above the end of the earlier one, whatever allocations,
    ticks and [shrink_to_fit] calls happen in between; and both still lie
    below the cursor of an element in use. *)
Theorem regions_never_overlap
  (rate_of : Z -> Z -> Z) (base : gset addr)
  (a : Arena.arena_t) (h : heap) (n1 : Z) (p1 : ptr)
  (a1 : Arena.arena_t) (h1 : heap) (ops : list ArenaTrace.op)
  (a2 : Arena.arena_t) (h2 : heap) (n2 : Z) (p2 : ptr)
  (a3 : Arena.arena_t) (h3 : heap) :
  (forall x y, SizeT.in_range (rate_of x y)) ->
  arena_good base h a ->
  0 < n1 < SizeT.modulus ->
  Arena.alloc n1 a h = Ok (Some p1, a1, h1) ->
  Forall ArenaTrace.typed ops -> Forall ArenaTrace.keeps_regions ops ->
  ArenaTrace.run rate_of ops a1 h1 = Ok (a2, h2) ->
  0 < n2 < SizeT.modulus ->
  Arena.alloc n2 a2 h2 = Ok (Some p2, a3, h3) ->
  (p1.1 <> p2.1 \/ p1.2 + Arena.round8 n1 <= p2.2)
  /\ region_in a3 p1 (Arena.round8 n1)
  /\ region_in a3 p2 (Arena.round8 n2).
Proof.
  intros Hrate Hg Hn1 Ha1 Ht Hk Hrun Hn2 Ha2.
  destruct (alloc_keeps_region n1 a h p1 a1 h1 p1 0
              (arena_good_inv _ _ _ Hg) Hn1 Ha1) as [Hr1 _].
  pose proof (alloc_good base n1 a h _ a1 h1 Hg Hn1 Ha1) as Hg1.
  pose proof (run_keeps_region rate_of base ops a1 h1 a2 h2 p1
                (Arena.round8 n1) Hrate Hg1 Ht Hk Hrun Hr1) as Hr2.
  pose proof (run_good rate_of base ops a1 h1 a2 h2 Hrate Ht Hg1 Hrun) as Hg2.
  destruct (alloc_keeps_region n2 a2 h2 p2 a3 h3 p1 (Arena.round8 n1)
              (arena_good_inv _ _ _ Hg2) Hn2 Ha2) as [Hr3 Hkeep].
  destruct (Hkeep Hr2) as [Hr4 Hdis].
  split; [exact Hdis|]. split; assumption.
Qed.

Lemma regions_never_overlap_witness :
  let a1 := Arena.mk 0 104 [Element.mk 0%nat 104 104] [] 0 in
  let h1 := mk_heap 1%nat {[ 0%nat := 128 ]} ∅ in
  let a2 :=
    Arena.mk 52 8 [Element.mk 1%nat 52 8; Element.mk 0%nat 104 104] []
      2000000000 in
  let h2 := mk_heap 2%nat {[ 0%nat := 128; 1%nat := 76 ]} ∅ in
  let a3 :=
    Arena.mk 52 24 [Element.mk 1%nat 52 24; Element.mk 0%nat 104 104] []
      2000000000 in
  Arena.alloc 100 (Arena.init 0) empty_heap = Ok (Some (0%nat, 0), a1, h1)
  /\ ArenaTrace.run wrapped_rate
       [ArenaTrace.PeriodicActivity 2000000000; ArenaTrace.Alloc 8]
       a1 h1 = Ok (a2, h2)
  /\ Arena.alloc 16 a2 h2 = Ok (Some (1%nat, 8), a3, h2)
  /\ ((0%nat, 0).1 <> (1%nat, 8).1
      \/ (0%nat, 0).2 + Arena.round8 100 <= (1%nat, 8).2).
Proof.
  intros a1 h1 a2 h2 a3.
  assert (H1 : Arena.alloc 100 (Arena.init 0) empty_heap
               = Ok (Some (0%nat, 0), a1, h1)) by (vm_compute; reflexivity).
  assert (H2 : ArenaTrace.run wrapped_rate
                 [ArenaTrace.PeriodicActivity 2000000000; ArenaTrace.Alloc 8]
                 a1 h1 = Ok (a2, h2)) by (vm_compute; reflexivity).
  assert (H3 : Arena.alloc 16 a2 h2 = Ok (Some (1%nat, 8), a3, h2))
    by (vm_compute; reflexivity).
  split; [exact H1|]. split; [exact H2|]. split; [exact H3|].
  assert (Hrate : forall x y, SizeT.in_range (wrapped_rate x y))
    by (intros x y; apply Z.mod_pos_bound; reflexivity).
  assert (Hh : heap_wf empty_heap)
    by (intros ad [v Hv]; vm_compute in Hv; discriminate).
  refine (proj1 (regions_never_overlap wrapped_rate (dom (live empty_heap))
                   (Arena.init 0) empty_heap 100 (0%nat, 0) a1 h1
                   [ArenaTrace.PeriodicActivity 2000000000; ArenaTrace.Alloc 8]
                   a2 h2 16 (1%nat, 8) a3 h2 Hrate
                   (arena_good_init empty_heap 0 Hh) _ H1 _ _ H2 _ H3)).
  - rewrite modulus_eq. lia.
  - repeat constructor; simpl; rewrite ?modulus_eq; lia.
  - repeat constructor.
  - rewrite modulus_eq. lia.
Defined.

(** ** The byte counter *)

Lemma alloc_counter n a h p a' h' :
  arena_wf a -> 0 < n < SizeT.modulus ->
  Arena.alloc n a h = Ok (p, a', h') ->
  Arena.nalloc_ a' = SizeT.add (Arena.nalloc_ a) (Arena.round8 n)
  /\ Arena.allocSize_ a' = Arena.allocSize_ a
  /\ Arena.when_ a' = Arena.when_ a.
Proof.
  intros Hwf Hn Halloc. assert (Hn0 : n <> 0) by lia.
  destruct (alloc_cases n a)
    as [(u & us & Hu & Hfit) | [(Hnou & e & fs & Hf & Hfit) | (Hnou & Hnof)]].
  - rewrite (alloc_used n a h u us Hwf Hn0 Hu Hfit) in Halloc.
    injection Halloc as <- <- <-. repeat split.
  - rewrite (alloc_reuse n a h e fs Hwf Hn0 Hnou Hf Hfit) in Halloc.
    injection Halloc as <- <- <-. repeat split.
  - rewrite (alloc_fresh n a h Hwf Hn0 Hnou Hnof) in Halloc.
    injection Halloc as <- <- <-. repeat split.
Qed.

Lemma clear_counter a h :
  Arena.nalloc_ (Arena.clear a h).1 = Arena.nalloc_ a
  /\ Arena.allocSize_ (Arena.clear a h).1 = Arena.allocSize_ a
  /\ Arena.when_ (Arena.clear a h).1 = Arena.when_ a.
Proof.
  unfold Arena.clear. destruct (Arena.clear_loop _ _ _ _). repeat split.
Qed.

Lemma shrink_to_fit_counter a h :
  Arena.nalloc_ (Arena.shrink_to_fit a h).1 = Arena.nalloc_ a
  /\ Arena.allocSize_ (Arena.shrink_to_fit a h).1 = Arena.allocSize_ a
  /\ Arena.when_ (Arena.shrink_to_fit a h).1 = Arena.when_ a.
Proof.
  unfold Arena.shrink_to_fit. destruct (Arena.dealloc _ _). repeat split.
Qed.

Lemma wrap_add_l x y : SizeT.wrap (SizeT.wrap x + y) = SizeT.wrap (x + y).
Proof. unfold SizeT.wrap. apply Zplus_mod_idemp_l. Qed.

Lemma run_counter rate_of base ops : forall a h a' h',
  (forall x y, SizeT.in_range (rate_of x y)) ->
  arena_good base h a ->
  Forall ArenaTrace.typed ops -> Forall ArenaTrace.no_tick ops ->
  ArenaTrace.run rate_of ops a h = Ok (a', h') ->
  Arena.nalloc_ a'
  = SizeT.wrap (Arena.nalloc_ a + ArenaTrace.requested ops)
  /\ Arena.allocSize_ a' = Arena.allocSize_ a
  /\ Arena.when_ a' = Arena.when_ a.
Proof.
  induction ops as [|o ops IH]; intros a h a' h' Hrate Hg Ht Hk; simpl.
  - intros [= <- <-]. rewrite Z.add_0_r.
    destruct Hg as ((_ & Hna & _) & _).
    rewrite wrap_small by exact Hna. repeat split.
  - apply Forall_cons in Ht as [Ho Ht]. apply Forall_cons in Hk as [Hko Hk].
    destruct (ArenaTrace.step rate_of o a h) as [[a1 h1]| |] eqn:Hs;
      try discriminate.
    intros Hrun.
    pose proof (step_good rate_of base o a h a1 h1 Hrate Ho Hg Hs) as Hg1.
    destruct (IH a1 h1 a' h' Hrate Hg1 Ht Hk Hrun) as (Hn & Hsz & Hw).
    rewrite Hn, Hsz, Hw. clear IH Hrun Hn Hsz Hw.
    destruct o as [n| | |now]; simpl in Hs.
    + destruct (Arena.alloc n a h) as [[[p a2] h2]| |] eqn:Ha;
        try discriminate.
      injection Hs as <- <-. simpl in Ho.
      assert (n <> 0).
      { intros ->. rewrite alloc_zero_assert in Ha. discriminate. }
      destruct (alloc_counter n a h p a2 h2 (proj1 Hg) ltac:(lia) Ha)
        as (-> & -> & ->).
      unfold SizeT.add. rewrite wrap_add_l, Z.add_assoc. repeat split.
    + injection Hs as Hs.
      replace a1 with (Arena.clear a h).1 by (rewrite Hs; reflexivity).
      destruct (clear_counter a h) as (-> & -> & ->). repeat split.
    + injection Hs as Hs.
      replace a1 with (Arena.shrink_to_fit a h).1
        by (rewrite Hs; reflexivity).
      destruct (shrink_to_fit_counter a h) as (-> & -> & ->). repeat split.
    + destruct Hko.
Qed.

(** X6.  [nalloc_] counts the bytes handed out since the last tick: after a
    tick that is at least one second after the previous one, and any
    allocations, [clear] and [shrink_to_fit] calls, it is the sum of the
    rounded sizes requested since, modulo 2^64; [allocSize_] is not changed
    by these calls. *)
Theorem counter_since_tick
  (rate_of : Z -> Z -> Z) (base : gset addr) (now : Z)
  (ops : list ArenaTrace.op) (a : Arena.arena_t) (h : heap)
  (a' : Arena.arena_t) (h' : heap) :
  (forall x y, SizeT.in_range (rate_of x y)) ->
  arena_good base h a ->
  Arena.one_second <= now - Arena.when_ a ->
  Forall ArenaTrace.typed ops -> Forall ArenaTrace.no_tick ops ->
  ArenaTrace.run rate_of (ArenaTrace.PeriodicActivity now :: ops) a h
  = Ok (a', h') ->
  Arena.nalloc_ a' = SizeT.wrap (ArenaTrace.requested ops)
  /\ Arena.allocSize_ a'
     = Arena.allocSize_ (Arena.periodic_activity rate_of now a h).1
  /\ Arena.when_ a' = now.
Proof.
  intros Hrate Hg Hel Ht Hk Hrun. cbn [ArenaTrace.run ArenaTrace.step] in Hrun.
  pose proof (periodic_activity_good rate_of base now a h Hrate Hg) as Hg1.
  destruct (Arena.periodic_activity rate_of now a h) as [a1 h1] eqn:Hp.
  cbn [fst snd] in *.
  destruct (run_counter rate_of base ops a1 h1 a' h' Hrate Hg1 Ht Hk Hrun)
    as (Hn & Hsz & Hw).
  assert (Hreset : Arena.nalloc_ a1 = 0 /\ Arena.when_ a1 = now).
  { revert Hp. unfold Arena.periodic_activity.
    destruct (Z.ltb_spec (now - Arena.when_ a) Arena.one_second); [lia|].
    destruct (Arena.dealloc (Arena.free_ a) h) as [free hd].
    repeat match goal with
           | |- context [if ?b then _ else _] => destruct b
           end; intros [= <- _]; split; reflexivity. }
  destruct Hreset as [H0 Hnow]. rewrite H0, Z.add_0_l in Hn.
  split; [exact Hn|]. split; [exact Hsz | congruence].
Qed.

Lemma counter_since_tick_witness :
  let a := Arena.mk 0 104 [Element.mk 0%nat 104 104] [] 0 in
  let h := mk_heap 1%nat {[ 0%nat := 128 ]} ∅ in
  let ops := [ArenaTrace.Alloc 8; ArenaTrace.Clear; ArenaTrace.Alloc 100] in
  exists a' h',
    ArenaTrace.run wrapped_rate
      (ArenaTrace.PeriodicActivity 2000000000 :: ops) a h = Ok (a', h')
    /\ Arena.nalloc_ a' = 112
    /\ Arena.nalloc_ a' = SizeT.wrap (ArenaTrace.requested ops).
Proof.
  intros a h ops.
  assert (Hrun : exists a' h',
             ArenaTrace.run wrapped_rate
               (ArenaTrace.PeriodicActivity 2000000000 :: ops) a h
             = Ok (a', h')
             /\ Arena.nalloc_ a' = 112).
  { vm_compute. eexists _, _. split; reflexivity. }
  destruct Hrun as (a' & h' & Hrun & Hn).
  exists a', h'. split; [exact Hrun|]. split; [exact Hn|].
  refine (proj1 (counter_since_tick wrapped_rate ∅ 2000000000 ops a h a' h'
                   _ _ _ _ _ Hrun)).
  - intros x y. apply Z.mod_pos_bound. reflexivity.
  - split; [|split; [|split]].
    + unfold arena_wf, a, SizeT.in_range, element_wf; simpl.
      rewrite modulus_eq.
      repeat split; try lia; repeat constructor; simpl; lia.
    + split; repeat constructor.
    + constructor.
    + split; [repeat constructor; vm_compute; intros Hin; inversion Hin|].
      split; [vm_compute; reflexivity|].
      split; [apply disjoint_empty_l|].
      intros ad [v Hv]. simpl in Hv.
      apply lookup_singleton_Some in Hv as [<- _]. simpl. lia.
  - vm_compute. discriminate.
  - repeat constructor; simpl; rewrite ?modulus_eq; lia.
  - repeat constructor.
Defined.

(** ** Reuse after [clear] *)

Lemma clear_spec_free a h :
  Forall element_wf (Arena.used_ a) ->
  Arena.used_ (Arena.clear a h).1 = []
  /\ Arena.free_ (Arena.clear a h).1
     = rev (Element.clear
              <$> filter (fun e => Element.capacity_ e = Arena.allocSize_ a)
                    (Arena.used_ a)) ++ Arena.free_ a
  /\ Arena.allocSize_ (Arena.clear a h).1 = Arena.allocSize_ a.
Proof.
  intros Hus. unfold Arena.clear.
  destruct (clear_loop_spec (Arena.allocSize_ a) (Arena.used_ a) Hus
              (Arena.free_ a) h) as (H1 & _).
  destruct (Arena.clear_loop _ _ _ _) as [free h']. cbn [fst] in *.
  subst free. repeat split.
Qed.

(** X7.  After [clear()], a request that fits in [allocSize_] is served from
    the free list, at offset 0 of a recycled element and without asking the
    system for memory, as soon as [clear()] had an element of capacity
    [allocSize_] to keep or the free list was not empty. *)
Theorem alloc_after_clear_reuses
  (base : gset addr) (a : Arena.arena_t) (h : heap) (n : Z) :
  arena_good base h a ->
  0 < n < SizeT.modulus ->
  Arena.round8 n <= Arena.allocSize_ a ->
  Exists (fun e => Element.capacity_ e = Arena.allocSize_ a)
    (Arena.used_ a ++ Arena.free_ a) ->
  exists e fs a',
    Arena.free_ (Arena.clear a h).1 = e :: fs
    /\ Arena.alloc n (Arena.clear a h).1 (Arena.clear a h).2
       = Ok (Some (Element.address e, 0), a', (Arena.clear a h).2)
    /\ Arena.used_ a'
       = [Element.mk (Element.address e) (Arena.allocSize_ a)
            (Arena.round8 n)]
    /\ Arena.free_ a' = fs
    /\ Element.address e ∈ addresses (Arena.used_ a ++ Arena.free_ a).
Proof.
  intros Hg Hn Hfit Hex. pose proof Hg as ((_ & _ & Hus & _) & _ & Hfu & _).
  pose proof (clear_good base a h Hg) as (Hwf1 & _ & Hfu1 & _).
  destruct (clear_spec_free a h Hus) as (Hused1 & Hfree1 & Hsz1).
  assert (Hne : Arena.free_ (Arena.clear a h).1 <> []).
  { rewrite Hfree1. intros Hnil. apply app_eq_nil in Hnil as [Hk Hf].
    apply (f_equal (@rev element)) in Hk. rewrite rev_involutive in Hk.
    simpl in Hk. apply fmap_nil_inv in Hk.
    apply Exists_exists in Hex as (e & He & Hcap).
    apply elem_of_app in He as [He|He].
    - assert (Hin : e ∈ filter (fun e => Element.capacity_ e
                                          = Arena.allocSize_ a)
                        (Arena.used_ a))
        by (apply list_elem_of_filter; auto).
      rewrite Hk in Hin. inversion Hin.
    - rewrite Hf in He. inversion He. }
  destruct (Arena.free_ (Arena.clear a h).1) as [|e fs] eqn:Hfree;
    [congruence|].
  unfold free_uniform in Hfu1. rewrite Hfree in Hfu1.
  apply Forall_cons in Hfu1 as [[Hu0 Hcap] _]. rewrite Hsz1 in Hcap.
  assert (Hwe : element_wf e).
  { destruct Hwf1 as (_ & _ & _ & Hfs). rewrite Hfree in Hfs.
    apply Forall_cons in Hfs as [Hwe _]. exact Hwe. }
  assert (Hroom : (Element.remain e >=? Arena.round8 n) = true).
  { rewrite remain_wf by exact Hwe. apply Z.geb_le. lia. }
  exists e, fs. eexists. split; [reflexivity|].
  rewrite (alloc_reuse n (Arena.clear a h).1 (Arena.clear a h).2 e fs
             Hwf1 ltac:(lia)); [| rewrite Hused1; reflexivity
                                | exact Hfree | exact Hroom].
  rewrite Hu0, Hused1, Hcap. split; [reflexivity|].
  cbn [Arena.used_ Arena.free_]. rewrite Z.add_0_l.
  split; [reflexivity|]. split; [reflexivity|].
  assert (Hin : e ∈ rev (Element.clear
                           <$> filter (fun e => Element.capacity_ e
                                                = Arena.allocSize_ a)
                                 (Arena.used_ a)) ++ Arena.free_ a).
  { rewrite <- Hfree1. apply list_elem_of_here. }
  rewrite addresses_app. apply elem_of_union.
  apply elem_of_app in Hin as [Hin|Hin].
  - left. apply list_elem_of_In in Hin.
    apply (proj2 (in_rev _ _)), list_elem_of_In in Hin.
    apply list_elem_of_fmap in Hin as (e0 & -> & He0).
    apply list_elem_of_filter in He0 as [_ He0].
    apply elem_of_addresses, list_elem_of_fmap. exists e0. split; auto.
  - right. apply elem_of_addresses, list_elem_of_fmap. eauto.
Qed.

Lemma alloc_after_clear_reuses_witness :
  let a := Arena.mk 104 104 [Element.mk 0%nat 104 104] [] 0 in
  let h := mk_heap 1%nat {[ 0%nat := 128 ]} ∅ in
  exists e fs a',
    Arena.free_ (Arena.clear a h).1 = e :: fs
    /\ Arena.alloc 50 (Arena.clear a h).1 (Arena.clear a h).2
       = Ok (Some (Element.address e, 0), a', (Arena.clear a h).2)
    /\ Arena.used_ a'
       = [Element.mk (Element.address e) (Arena.allocSize_ a)
            (Arena.round8 50)]
    /\ Arena.free_ a' = fs
    /\ Element.address e ∈ addresses (Arena.used_ a ++ Arena.free_ a).
Proof.
  intros a h.
  apply (alloc_after_clear_reuses ∅ a h 50).
  - split; [|split; [|split]].
    + unfold arena_wf, a, SizeT.in_range, element_wf; simpl.
      rewrite modulus_eq.
      repeat split; try lia; repeat constructor; simpl; lia.
    + split; repeat constructor.
    + constructor.
    + split; [repeat constructor; vm_compute; intros Hin; inversion Hin|].
      split; [vm_compute; reflexivity|].
      split; [apply disjoint_empty_l|].
      intros ad [v Hv]. simpl in Hv.
      apply lookup_singleton_Some in Hv as [<- _]. simpl. lia.
  - rewrite modulus_eq. lia.
  - vm_compute. discriminate.
  - apply Exists_cons_hd. reflexivity.
Defined.


(** ** What every operation of the cache keeps *)

(** A successful [insert] was given a readable bucket that fits its block. *)
Lemma insert_success n b c h r :
  arena_wf (Cache.arena_ c) ->
  0 <= Bucket.block_size b < 2 ^ 32 ->
  Cache.insert n b c h = Ok r ->
  exists cont, bucket_shows h b cont.
Proof.
  intros Hwf Hbs Hins.
  assert (Hne : Bucket.block_size b <> 0).
  { intros H0. unfold Cache.insert in Hins.
    rewrite H0, alloc_zero_assert in Hins. discriminate. }
  assert (Hpos : 0 < Bucket.block_size b < 2 ^ 32) by lia.
  pose proof (block_size_request _ Hpos) as [Hrange _].
  destruct (alloc_spec _ _ h Hwf Hrange)
    as (p & a & h1 & _ & _ & Ha & _ & _ & _ & _ & _ & _ & Hbytes & _).
  unfold Cache.insert in Hins. rewrite Ha in Hins.
  unfold Bucket.write in Hins.
  rewrite (read_bytes_eq h h1 b Hbytes) in Hins.
  destruct (Bucket.read h b) as [cont|] eqn:Hread; [|discriminate].
  exists cont. split; [exact Hpos|]. split; [exact Hread|].
  rewrite serialize_length in Hins.
  destruct (Z.gtb_spec (Bucket.header_size
                        + Bucket.entry_size * Bucket.count cont)
              (Bucket.block_size b)); [discriminate | lia].
Qed.

Lemma insert_inv n b c h r c' h' :
  cache_inv h c -> 0 <= Bucket.block_size b < 2 ^ 32 ->
  Cache.insert n b c h = Ok (r, c', h') ->
  cache_inv h' c'
  /\ Cache.block_size_ c' = Cache.block_size_ c
  /\ forall i q, Cache.map_ c !! i = Some q ->
       Cache.map_ c' !! i = Some q
       /\ Bucket.read h' (Bucket.mk (Cache.block_size_ c) q)
          = Bucket.read h (Bucket.mk (Cache.block_size_ c) q).
Proof.
  intros Hinv Hbs Hins. pose proof Hinv as (Hwf & Hai & _).
  destruct (insert_success n b c h _ (proj1 Hwf) Hbs Hins) as [cont Hshow].
  destruct (insert_ok n b c h cont Hwf Hshow)
    as (p & a & h1 & Ha & Hb1 & Hi & Hwf').
  rewrite Hi in Hins.
  assert (Hc' : c' = Cache.mk (Cache.key_size_ c) (Cache.block_size_ c) a
                       (Cache.emplace n p (Cache.map_ c)).2) by congruence.
  assert (Hh' : h' = mk_heap (next_addr h1) (live h1)
                       (store_bytes p (Bucket.serialize cont) (bytes h1)))
    by congruence.
  clear Hins Hi. subst c' h'.
  destruct Hshow as (Hpos & Hread & Hfit).
  pose proof (block_size_request _ Hpos) as [Hrange Hround].
  destruct (alloc_frame _ _ _ _ _ _ Hai Hrange Ha)
    as (_ & _ & (u & rest & Hu & Hadu & Hp & Hcur) & _).
  destruct (blobs_preserved h h1
              (mk_heap (next_addr h1) (live h1)
                 (store_bytes p (Bucket.serialize cont) (bytes h1)))
              c a n p (Bucket.block_size b) Hinv Hrange Ha) as [Hinv' Hold].
  - reflexivity.
  - intros r0 Hr0. apply store_frame, Hr0.
  - intros _. exists u, cont.
    split; [rewrite Hu; apply list_elem_of_here|].
    split; [exact Hadu|]. split; [exact Hp|]. split.
    + apply (read_write b p (Bucket.block_size b) _ h1).
      * rewrite (read_bytes_eq h h1 b Hb1). exact Hread.
      * apply write_ok; [|exact Hfit].
        rewrite (read_bytes_eq h h1 b Hb1). exact Hread.
    + unfold extent. lia.
  - exact Hwf'.
  - split; [exact Hinv'|]. split; [reflexivity | exact Hold].
Qed.

Lemma step_inv o c h c' h' :
  cache_inv h c -> op_typed o ->
  Trace.step o c h = Ok (c', h') ->
  cache_inv h' c'
  /\ Cache.block_size_ c' = Cache.block_size_ c
  /\ forall i q, Cache.map_ c !! i = Some q ->
       Cache.map_ c' !! i = Some q
       /\ Bucket.read h' (Bucket.mk (Cache.block_size_ c) q)
          = Bucket.read h (Bucket.mk (Cache.block_size_ c) q).
Proof.
  intros Hinv Ht. destruct o as [n|n b|n]; simpl.
  - destruct (Cache.create n c h) as [[[v c1] h1]| |] eqn:Hc;
      try discriminate.
    intros [= <- <-]. eapply create_inv; eassumption.
  - destruct (Cache.insert n b c h) as [[[r c1] h1]| |] eqn:Hc;
      try discriminate.
    destruct r as [n' v]. intros [= <- <-].
    eapply insert_inv; eassumption.
  - intros [= <- <-]. split; [exact Hinv|]. split; [reflexivity|]. auto.
Qed.

Lemma run_inv ops : forall c h c' h',
  cache_inv h c -> Forall op_typed ops ->
  Trace.run ops c h = Ok (c', h') ->
  cache_inv h' c'
  /\ Cache.block_size_ c' = Cache.block_size_ c
  /\ forall i q, Cache.map_ c !! i = Some q ->
       Cache.map_ c' !! i = Some q
       /\ Bucket.read h' (Bucket.mk (Cache.block_size_ c) q)
          = Bucket.read h (Bucket.mk (Cache.block_size_ c) q).
Proof.
  induction ops as [|o ops IH]; intros c h c' h' Hinv Ht; simpl.
  - intros [= <- <-]. split; [exact Hinv|]. split; [reflexivity|]. auto.
  - apply Forall_cons in Ht as [Ho Ht].
    destruct (Trace.step o c h) as [[c1 h1]| |] eqn:Hs; try discriminate.
    intros Hrun.
    destruct (step_inv o c h c1 h1 Hinv Ho Hs) as (Hinv1 & Hbs1 & Hold1).
    destruct (IH c1 h1 c' h' Hinv1 Ht Hrun) as (Hinv2 & Hbs2 & Hold2).
    split; [exact Hinv2|]. split; [congruence|].
    intros i q Hi. destruct (Hold1 i q Hi) as [Hi1 Hr1].
    destruct (Hold2 i q Hi1) as [Hi2 Hr2].
    split; [exact Hi2|]. rewrite <- Hr1, <- Hbs1. exact Hr2.
Qed.

Lemma arena_good_heap base h h' a :
  live h' = live h -> next_addr h' = next_addr h ->
  arena_good base h a -> arena_good base h' a.
Proof.
  intros Hl Hn (Hwf & Hal & Hfu & Hnd & Hdom & Hdis & Hh).
  split; [exact Hwf|]. split; [exact Hal|]. split; [exact Hfu|].
  split; [exact Hnd|]. split; [rewrite Hl; exact Hdom|].
  split; [exact Hdis|]. intros ad. rewrite Hl, Hn. apply Hh.
Qed.

(** The arena after a successful [create] or [insert] is the arena after the
    allocation; the heap differs from the heap after the allocation by its
    bytes only. *)
Lemma create_arena n c h v c' h' :
  Cache.create n c h = Ok (v, c', h') ->
  exists p h1,
    Arena.alloc (Cache.block_size_ c) (Cache.arena_ c) h
    = Ok (Some p, Cache.arena_ c', h1)
    /\ live h' = live h1 /\ next_addr h' = next_addr h1.
Proof.
  unfold Cache.create.
  destruct (Arena.alloc _ _ _) as [[[[p|] a] h1]| |]; try discriminate.
  destruct (Cache.emplace n p (Cache.map_ c)) as [q m].
  unfold Bucket.make_empty. intros [= <- <- <-]. eauto.
Qed.

Lemma insert_arena n b c h r c' h' :
  Cache.insert n b c h = Ok (r, c', h') ->
  exists p h1,
    Arena.alloc (Bucket.block_size b) (Cache.arena_ c) h
    = Ok (Some p, Cache.arena_ c', h1)
    /\ live h' = live h1 /\ next_addr h' = next_addr h1.
Proof.
  unfold Cache.insert.
  destruct (Arena.alloc _ _ _) as [[[[p|] a] h1]| |]; try discriminate.
  unfold Bucket.write.
  destruct (Bucket.read h1 b) as [cont|]; [|discriminate].
  destruct (_ >? _); [discriminate|].
  destruct (Cache.emplace n p (Cache.map_ c)) as [q m].
  intros [= <- <- <-]. eauto.
Qed.

Lemma trace_step_good base o c h c' h' :
  cache_good base h c -> op_typed o ->
  Trace.step o c h = Ok (c', h') ->
  cache_good base h' c'.
Proof.
  intros [Hinv Hg] Ht Hs.
  split; [apply (step_inv o c h c' h' Hinv Ht Hs)|].
  destruct Hinv as ((_ & Hbs) & _).
  destruct o as [n|n b|n]; simpl in Hs.
  - destruct (Cache.create n c h) as [[[v c1] h1]| |] eqn:Hc;
      try discriminate.
    injection Hs as <- <-.
    destruct (create_arena _ _ _ _ _ _ Hc) as (p & h2 & Ha & Hl & Hn).
    apply (arena_good_heap base h2 h1 _ Hl Hn).
    unfold Bucket.header_size in Hbs.
    pose proof (block_size_request (Cache.block_size_ c) ltac:(lia))
      as [Hrange _].
    exact (alloc_good base _ _ h _ _ h2 Hg Hrange Ha).
  - destruct (Cache.insert n b c h) as [[[r c1] h1]| |] eqn:Hc;
      try discriminate.
    destruct r as [n' v]. injection Hs as <- <-.
    destruct (insert_arena _ _ _ _ _ _ _ Hc) as (p & h2 & Ha & Hl & Hn).
    apply (arena_good_heap base h2 h1 _ Hl Hn).
    simpl in Ht.
    assert (Hne : Bucket.block_size b <> 0).
    { intros H0. rewrite H0, alloc_zero_assert in Ha. discriminate. }
    pose proof (block_size_request (Bucket.block_size b) ltac:(lia))
      as [Hrange _].
    exact (alloc_good base _ _ h _ _ h2 Hg Hrange Ha).
  - injection Hs as <- <-. exact Hg.
Qed.

Lemma cache_clear_good base c h :
  cache_good base h c ->
  cache_good base (Cache.clear c h).2 (Cache.clear c h).1
  /\ Cache.map_ (Cache.clear c h).1 = ∅
  /\ Arena.used_ (Cache.arena_ (Cache.clear c h).1) = []
  /\ bytes (Cache.clear c h).2 = bytes h.
Proof.
  intros [((Hwf & Hbs) & _ & _) Hg].
  pose proof (clear_good base _ h Hg) as Hg1.
  destruct (clear_spec_free (Cache.arena_ c) h) as (Hused & _).
  { destruct Hwf as (_ & _ & Hus & _). exact Hus. }
  assert (Hbytes : bytes (Arena.clear (Cache.arena_ c) h).2 = bytes h).
  { unfold Arena.clear.
    destruct Hwf as (_ & _ & Hus & _).
    destruct (clear_loop_spec (Arena.allocSize_ (Cache.arena_ c))
                (Arena.used_ (Cache.arena_ c)) Hus
                (Arena.free_ (Cache.arena_ c)) h) as (_ & _ & Hb & _).
    destruct (Arena.clear_loop _ _ _ _) as [free h1]. exact Hb. }
  unfold Cache.clear.
  destruct (Arena.clear (Cache.arena_ c) h) as [a1 h1]. cbn [fst snd] in *.
  split; [|repeat split; assumption].
  split; [|exact Hg1].
  split; [split; [apply Hg1 | exact Hbs]|].
  split; [apply (arena_good_inv base), Hg1|].
  cbn [Cache.map_]. apply map_Forall_empty.
Qed.

Lemma cache_shrink_to_fit_good base c h :
  cache_good base h c ->
  cache_good base (Cache.shrink_to_fit c h).2 (Cache.shrink_to_fit c h).1
  /\ Cache.map_ (Cache.shrink_to_fit c h).1 = Cache.map_ c
  /\ Cache.block_size_ (Cache.shrink_to_fit c h).1 = Cache.block_size_ c
  /\ bytes (Cache.shrink_to_fit c h).2 = bytes h.
Proof.
  intros [((Hwf & Hbs) & _ & Hblobs) Hg].
  pose proof (shrink_to_fit_good base _ h Hg) as Hg1.
  pose proof (shrink_to_fit_used (Cache.arena_ c) h) as Hused.
  assert (Hbytes : bytes (Arena.shrink_to_fit (Cache.arena_ c) h).2
                   = bytes h).
  { unfold Arena.shrink_to_fit.
    destruct (dealloc_spec (Arena.free_ (Cache.arena_ c)) h)
      as (_ & _ & Hb & _).
    destruct (Arena.dealloc _ _) as [free h1]. exact Hb. }
  unfold Cache.shrink_to_fit.
  destruct (Arena.shrink_to_fit (Cache.arena_ c) h) as [a1 h1].
  cbn [fst snd] in *.
  split; [|repeat split; assumption].
  split; [|exact Hg1].
  split; [split; [apply Hg1 | exact Hbs]|].
  split; [apply (arena_good_inv base), Hg1|].
  cbn [Cache.map_ Cache.arena_ Cache.block_size_].
  intros i q Hi. destruct (Hblobs i q Hi) as (e & cont & He & Hr).
  exists e, cont. rewrite Hused. split; [exact He|].
  destruct Hr as (H1 & H2 & H3 & H4).
  split; [exact H1|]. split; [exact H2|]. split; [|exact H4].
  rewrite <- H3. apply read_bytes_eq, Hbytes.
Qed.

Lemma session_step_good base o c h c' h' :
  cache_good base h c -> Session.typed o ->
  Session.step o c h = Ok (c', h') ->
  cache_good base h' c'.
Proof.
  intros Hg Ht. destruct o as [o| |]; simpl.
  - apply trace_step_good; assumption.
  - intros [= Heq].
    replace c' with (Cache.clear c h).1 by (rewrite Heq; reflexivity).
    replace h' with (Cache.clear c h).2 by (rewrite Heq; reflexivity).
    apply cache_clear_good, Hg.
  - intros [= Heq].
    replace c' with (Cache.shrink_to_fit c h).1 by (rewrite Heq; reflexivity).
    replace h' with (Cache.shrink_to_fit c h).2 by (rewrite Heq; reflexivity).
    apply cache_shrink_to_fit_good, Hg.
Qed.

Lemma session_run_good base ops : forall c h c' h',
  cache_good base h c -> Forall Session.typed ops ->
  Session.run ops c h = Ok (c', h') ->
  cache_good base h' c'.
Proof.
  induction ops as [|o ops IH]; intros c h c' h' Hg Ht; simpl.
  - intros [= <- <-]. exact Hg.
  - apply Forall_cons in Ht as [Ho Ht].
    destruct (Session.step o c h) as [[c1 h1]| |] eqn:Hs; try discriminate.
    apply IH; [|exact Ht]. eapply session_step_good; eassumption.
Qed.

Lemma cache_good_init h key_size block_size now :
  heap_wf h -> Bucket.header_size <= block_size < 2 ^ 32 ->
  cache_good (dom (live h)) h (Cache.init key_size block_size now).
Proof.
  intros Hh Hbs.
  split; [|apply arena_good_init, Hh].
  split; [split; [apply arena_wf_init | exact Hbs]|].
  split; [apply arena_inv_init|]. apply map_Forall_empty.
Qed.

(** ** Creating a bucket *)




(** ** Reachable states of the cache *)

(** X9.  In every state reached from a new cache by [create], [insert],
    [find], [clear] and [shrink_to_fit], each pointer in the map points into
    a live block that the arena of the cache obtained itself, into the part
    already handed out of an element on the used list, and the bytes there
    form a readable bucket: the map never holds a dangling pointer. *)
Theorem cache_pointers_stay_valid
  (key_size block_size now : Z) (h0 : heap) (ops : list Session.op)
  (c : Cache.cache_t) (h : heap) :
  heap_wf h0 ->
  Bucket.header_size <= block_size < 2 ^ 32 ->
  Forall Session.typed ops ->
  Session.run ops (Cache.init key_size block_size now) h0 = Ok (c, h) ->
  forall i p, Cache.map_ c !! i = Some p ->
    exists e cont,
      e ∈ Arena.used_ (Cache.arena_ c)
      /\ Element.address e = p.1
      /\ is_Some (live h !! p.1) /\ live h0 !! p.1 = None
      /\ 0 <= p.2
      /\ Bucket.read h (Bucket.mk (Cache.block_size_ c) p) = Some cont
      /\ p.2 + extent cont <= Element.used_ e
      /\ Element.used_ e <= Element.capacity_ e.
Proof.
  intros Hh Hbs Ht Hrun i p Hi.
  destruct (session_run_good (dom (live h0)) ops _ _ _ _
              (cache_good_init h0 key_size block_size now Hh Hbs) Ht Hrun)
    as [(_ & _ & Hblobs) ((_ & _ & Hus & _) & _ & _ & _ & Hdom & Hdis & _)].
  destruct (Hblobs i p Hi) as (e & cont & He & Had & Hp & Hread & Hext).
  exists e, cont.
  assert (Hin : p.1 ∈ addresses (Arena.used_ (Cache.arena_ c)
                                   ++ Arena.free_ (Cache.arena_ c))).
  { rewrite <- Had. apply elem_of_addresses, list_elem_of_fmap.
    exists e. split; [reflexivity|]. apply elem_of_app. left. exact He. }
  rewrite Forall_forall in Hus. destruct (Hus e He) as (_ & Hcap & _).
  split; [exact He|]. split; [exact Had|]. split.
  { apply elem_of_dom. rewrite Hdom. apply elem_of_union. right. exact Hin. }
  split.
  { apply not_elem_of_dom. intros Hb. exact (Hdis _ Hb Hin). }
  split; [exact Hp|]. split; [exact Hread|]. split; assumption.
Qed.

Lemma cache_pointers_stay_valid_witness :
  exists c h,
    Session.run example_cache_session Example.cache0 Example.heap0
    = Ok (c, h)
    /\ Cache.map_ c !! 4%N = Some (3%nat, 0)
    /\ exists e cont,
        e ∈ Arena.used_ (Cache.arena_ c)
        /\ Element.address e = 3%nat
        /\ is_Some (live h !! 3%nat) /\ live Example.heap0 !! 3%nat = None
        /\ Bucket.read h (Bucket.mk (Cache.block_size_ c) (3%nat, 0))
           = Some cont.
Proof.
  assert (Hrun : exists c h,
             Session.run example_cache_session Example.cache0 Example.heap0
             = Ok (c, h)
             /\ Cache.map_ c !! 4%N = Some (3%nat, 0)).
  { vm_compute. eexists _, _. split; reflexivity. }
  destruct Hrun as (c & h & Hrun & Hmap).
  exists c, h. split; [exact Hrun|]. split; [exact Hmap|].
  assert (Hh : heap_wf Example.heap0).
  { intros ad [v Hv]. simpl in Hv.
    apply lookup_singleton_Some in Hv as [<- _]. simpl. lia. }
  assert (Hbs : Bucket.header_size <= 128 < 2 ^ 32)
    by (unfold Bucket.header_size; lia).
  assert (Ht : Forall Session.typed example_cache_session).
  { unfold example_cache_session. repeat constructor; simpl; lia. }
  destruct (cache_pointers_stay_valid 8 128 0 Example.heap0
              example_cache_session c h Hh Hbs Ht Hrun 4%N (3%nat, 0) Hmap)
    as (e & cont & He & Had & Hlive & Hnew & _ & Hread & _).
  exists e, cont. repeat split; assumption.
Defined.

(** X10.  A bucket inserted under a new index stays there: after any later
    [create], [insert] and [find] calls, [find] returns the same view for
    that index, and the view still shows the contents the bucket had when it
    was inserted. *)
Theorem inserted_bucket_persists
  (n : N) (b : bucket) (cont : Bucket.contents) (c : Cache.cache_t)
  (h : heap) (v : bucket) (c1 : Cache.cache_t) (h1 : heap)
  (ops : list Trace.op) (c2 : Cache.cache_t) (h2 : heap) :
  cache_inv h c ->
  bucket_shows h b cont ->
  Cache.map_ c !! n = None ->
  Cache.insert n b c h = Ok (n, v, c1, h1) ->
  Forall op_typed ops ->
  Trace.run ops c1 h1 = Ok (c2, h2) ->
  Cache.find n c1 = Some (n, v)
  /\ Cache.find n c2 = Some (n, v)
  /\ Bucket.read h1 v = Some cont
  /\ Bucket.read h2 v = Some cont.
Proof.
  intros Hinv Hshow Hn Hins Ht Hrun.
  pose proof Hinv as (Hwf & _). pose proof Hins as Hins'.
  destruct (insert_ok n b c h cont Hwf Hshow)
    as (p & a & h1' & Ha & Hb1 & Hi & _).
  rewrite (emplace_absent n p _ Hn) in Hi. cbn [fst snd] in Hi.
  rewrite Hi in Hins'.
  assert (Hv : v = Bucket.mk (Cache.block_size_ c) p) by congruence.
  assert (Hc1 : c1 = Cache.mk (Cache.key_size_ c) (Cache.block_size_ c) a
                       (<[n := p]> (Cache.map_ c))) by congruence.
  assert (Hh1 : h1 = mk_heap (next_addr h1') (live h1')
                       (store_bytes p (Bucket.serialize cont) (bytes h1')))
    by congruence.
  clear Hi Hins'.
  assert (Hbs1 : Cache.block_size_ c1 = Cache.block_size_ c)
    by (rewrite Hc1; reflexivity).
  assert (Hmap1 : Cache.map_ c1 !! n = Some p)
    by (rewrite Hc1; cbn [Cache.map_]; apply lookup_insert_eq).
  pose proof Hshow as (Hpos & Hread & Hfit).
  assert (Hbs : 0 <= Bucket.block_size b < 2 ^ 32) by lia.
  destruct (insert_inv n b c h _ c1 h1 Hinv Hbs Hins) as (Hinv1 & _ & _).
  assert (Hread1 : Bucket.read h1 v = Some cont).
  { rewrite Hv.
    apply (read_write b p (Bucket.block_size b) _ h1').
    - rewrite (read_bytes_eq h h1' b Hb1). exact Hread.
    - rewrite Hh1. apply write_ok; [|exact Hfit].
      rewrite (read_bytes_eq h h1' b Hb1). exact Hread. }
  destruct (run_inv ops c1 h1 c2 h2 Hinv1 Ht Hrun) as (_ & Hbs2 & Hold).
  destruct (Hold n p Hmap1) as [Hmap2 Hread2].
  unfold Cache.find. rewrite Hmap1, Hmap2, Hbs2, Hbs1, <- Hv.
  split; [reflexivity|]. split; [reflexivity|]. split; [exact Hread1|].
  rewrite Hv, <- Hbs1, Hread2, Hbs1, <- Hv. exact Hread1.
Qed.

Lemma inserted_bucket_persists_witness :
  let ops := [Trace.Create 1%N; Trace.Insert 2%N Example.source;
              Trace.Create 3%N; Trace.Find 3%N] in
  exists c2 h2,
    Cache.insert 3%N Example.source Example.cache0 Example.heap0
    = Ok (3%N, example_inserted.1.1, example_inserted.1.2, example_inserted.2)
    /\ Trace.run ops example_inserted.1.2 example_inserted.2 = Ok (c2, h2)
    /\ Cache.find 3%N c2 = Some (3%N, example_inserted.1.1)
    /\ Bucket.read h2 example_inserted.1.1 = Some Example.contents.
Proof.
  intros ops.
  assert (Hins : Cache.insert 3%N Example.source Example.cache0 Example.heap0
                 = Ok (3%N, example_inserted.1.1, example_inserted.1.2,
                       example_inserted.2)) by (vm_compute; reflexivity).
  assert (Hrun : exists c2 h2,
             Trace.run ops example_inserted.1.2 example_inserted.2
             = Ok (c2, h2)).
  { vm_compute. eexists _, _. reflexivity. }
  destruct Hrun as (c2 & h2 & Hrun).
  exists c2, h2. split; [exact Hins|]. split; [exact Hrun|].
  assert (Hinv : cache_inv Example.heap0 Example.cache0).
  { split; [|split; [|apply map_Forall_empty]].
    - unfold cache_wf, arena_wf, SizeT.in_range, Bucket.header_size; simpl.
      rewrite modulus_eq. repeat split; try lia; constructor.
    - split; [|split; constructor].
      unfold arena_wf, SizeT.in_range; simpl.
      rewrite modulus_eq. repeat split; try lia; constructor. }
  assert (Hb : bucket_shows Example.heap0 Example.source Example.contents).
  { unfold bucket_shows. split; [simpl; lia|].
    split; [vm_compute; reflexivity | vm_compute; discriminate]. }
  assert (Hn : Cache.map_ Example.cache0 !! 3%N = None) by reflexivity.
  assert (Ht : Forall op_typed ops)
    by (repeat constructor; simpl; lia).
  destruct (inserted_bucket_persists 3%N Example.source Example.contents
              Example.cache0 Example.heap0 _ _ _ ops c2 h2
              Hinv Hb Hn Hins Ht Hrun) as (_ & Hfind & _ & Hread).
  split; assumption.
Defined.

(** X11.  [create(n)] for an index that is already in the cache leaves the
    map as it is: [find(n)] still returns the old blob, with its contents.
    The view returned is over a new, zeroed blob that no index of the map
    points to. *)
Theorem create_existing
  (n : N) (c : Cache.cache_t) (h : heap) (q : ptr) :
  cache_inv h c -> Cache.map_ c !! n = Some q ->
  exists p c' h',
    Cache.create n c h = Ok (Bucket.mk (Cache.block_size_ c) p, c', h')
    /\ Cache.map_ c' = Cache.map_ c
    /\ Cache.find n c' = Some (n, Bucket.mk (Cache.block_size_ c) q)
    /\ (forall i, Cache.map_ c' !! i <> Some p)
    /\ Bucket.read h' (Bucket.mk (Cache.block_size_ c) p)
       = Some (Bucket.mk_contents 0 [])
    /\ Bucket.read h' (Bucket.mk (Cache.block_size_ c) q)
       = Bucket.read h (Bucket.mk (Cache.block_size_ c) q).
Proof.
  intros Hinv Hn. pose proof Hinv as (Hwf & Hai & Hblobs).
  destruct (create_ok n c h Hwf) as (p & a & h1 & Ha & Hb1 & Hc & _).
  pose proof (create_inv n c h _ _ _ Hinv Hc) as (_ & _ & Hold).
  rewrite (emplace_present n p q _ Hn) in Hc. cbn [snd] in Hc.
  exists p. eexists. eexists. split; [exact Hc|].
  cbn [Cache.map_]. split; [reflexivity|].
  split; [unfold Cache.find; cbn [Cache.map_ Cache.block_size_];
          rewrite Hn; reflexivity|].
  destruct Hwf as [Hawf Hbs]. pose proof Hbs as Hbs'.
  unfold Bucket.header_size in Hbs'.
  pose proof (block_size_request (Cache.block_size_ c) ltac:(lia))
    as [Hrange _].
  destruct (alloc_frame _ _ _ _ _ _ Hai Hrange Ha) as (_ & _ & _ & Hframe).
  split; [|split].
  - intros i Hi. destruct (Hblobs i p Hi) as (e & cont & He & Had & Hp & _ & Hext).
    destruct (Hframe e He) as ([Hne|Hlow] & _); [congruence|].
    unfold extent, Bucket.header_size, Bucket.entry_size, Bucket.count in Hext.
    lia.
  - apply (read_make_empty (Cache.block_size_ c) p h1), Hbs.
  - rewrite (emplace_present n p q _ Hn) in Hold. cbn [snd] in Hold.
    apply (Hold n q Hn).
Qed.

Lemma create_existing_witness :
  let c := Example.state1.1 in
  let h := Example.state1.2 in
  exists p c' h',
    Cache.map_ c !! 1%N = Some (1%nat, 0)
    /\ Cache.create 1%N c h = Ok (Bucket.mk (Cache.block_size_ c) p, c', h')
    /\ Cache.map_ c' = Cache.map_ c
    /\ Cache.find 1%N c'
       = Some (1%N, Bucket.mk (Cache.block_size_ c) (1%nat, 0))
    /\ (forall i, Cache.map_ c' !! i <> Some p).
Proof.
  intros c h.
  assert (Hn : Cache.map_ c !! 1%N = Some (1%nat, 0)) by reflexivity.
  assert (Hinv : cache_inv h c).
  { split; [|split].
    - unfold cache_wf, arena_wf, SizeT.in_range, Bucket.header_size,
        element_wf; simpl. rewrite modulus_eq.
      repeat split; try lia; repeat constructor; simpl; lia.
    - split; [|split].
      + unfold arena_wf, SizeT.in_range, element_wf; simpl.
        rewrite modulus_eq.
        repeat split; try lia; repeat constructor; simpl; lia.
      + repeat constructor; try (vm_compute; intros Hin; inversion Hin).
      + repeat constructor; simpl; lia.
    - intros i p Hi.
      assert (i = 1%N /\ p = (1%nat, 0)) as [-> ->].
      { change (Cache.map_ c) with ({[ 1%N := (1%nat, 0) ]} : gmap N ptr) in Hi.
        apply lookup_singleton_Some in Hi as [<- <-]. auto. }
      exists (Element.mk 1%nat 128 128), (Bucket.mk_contents 0 []).
      split; [apply list_elem_of_here|]. split; [reflexivity|].
      split; [simpl; lia|].
      split; [vm_compute; reflexivity | vm_compute; discriminate]. }
  destruct (create_existing 1%N c h (1%nat, 0) Hinv Hn)
    as (p & c' & h' & Hc & Hmap & Hfind & Hfresh & _).
  exists p, c', h'. repeat split; assumption.
Defined.

(** X12.  [shrink_to_fit()] on a cache releases the free elements of its
    arena and nothing else: every lookup gives the same view as before, no
    byte changes, and the blocks of the mapped blobs are still live. *)
Theorem cache_shrink_to_fit_keeps
  (base : gset addr) (c : Cache.cache_t) (h : heap) :
  cache_good base h c ->
  (forall i, Cache.find i (Cache.shrink_to_fit c h).1 = Cache.find i c)
  /\ Cache.size (Cache.shrink_to_fit c h).1 = Cache.size c
  /\ bytes (Cache.shrink_to_fit c h).2 = bytes h
  /\ Arena.free_ (Cache.arena_ (Cache.shrink_to_fit c h).1) = []
  /\ (forall e, e ∈ Arena.free_ (Cache.arena_ c) ->
                live (Cache.shrink_to_fit c h).2 !! Element.address e = None)
  /\ (forall i p, Cache.map_ c !! i = Some p ->
                  is_Some (live (Cache.shrink_to_fit c h).2 !! p.1))
  /\ cache_good base (Cache.shrink_to_fit c h).2 (Cache.shrink_to_fit c h).1.
Proof.
  intros Hg.
  destruct (cache_shrink_to_fit_good base c h Hg) as (Hg' & Hmap & Hbs & Hb).
  split; [intros i; unfold Cache.find; rewrite Hmap, Hbs; reflexivity|].
  split; [unfold Cache.size; rewrite Hmap; reflexivity|].
  split; [exact Hb|].
  assert (Hfree : Arena.free_ (Cache.arena_ (Cache.shrink_to_fit c h).1) = []
                  /\ forall ad,
                      live (Cache.shrink_to_fit c h).2 !! ad
                      = if decide (ad ∈ addresses
                                     (Arena.free_ (Cache.arena_ c)))
                        then None else live h !! ad).
  { unfold Cache.shrink_to_fit, Arena.shrink_to_fit.
    destruct (dealloc_spec (Arena.free_ (Cache.arena_ c)) h)
      as (Hd & _ & _ & Hl).
    destruct (Arena.dealloc _ _) as [free h1]. cbn [fst snd] in *.
    split; assumption. }
  destruct Hfree as [Hnil Hlive].
  split; [exact Hnil|]. split.
  - intros e He. rewrite Hlive, decide_True; [reflexivity|].
    apply elem_of_addresses, list_elem_of_fmap. eauto.
  - split; [|exact Hg'].
    intros i p Hi.
    destruct Hg' as [(_ & _ & Hblobs) (_ & _ & _ & _ & Hdom & _)].
    rewrite <- Hmap in Hi.
    destruct (Hblobs i p Hi) as (e & _ & He & Had & _).
    apply elem_of_dom. rewrite Hdom. apply elem_of_union. right.
    rewrite <- Had. apply elem_of_addresses, list_elem_of_fmap.
    exists e. split; [reflexivity|]. apply elem_of_app. left. exact He.
Qed.

(** An empty cache is in order whatever [allocSize_] its arena has. *)
Lemma cache_good_empty h key_size block_size alloc_size now :
  heap_wf h -> Bucket.header_size <= block_size < 2 ^ 32 ->
  SizeT.in_range alloc_size ->
  cache_good (dom (live h)) h
    (Cache.mk key_size block_size (Arena.mk alloc_size 0 [] [] now) ∅).
Proof.
  intros Hh Hbs Hsz.
  assert (Hwf : arena_wf (Arena.mk alloc_size 0 [] [] now)).
  { split; [exact Hsz|].
    split; [unfold SizeT.in_range; simpl; rewrite modulus_eq; lia|].
    split; constructor. }
  split.
  - split; [split; [exact Hwf | exact Hbs]|].
    split; [|apply map_Forall_empty].
    split; [exact Hwf|]. split; constructor.
  - split; [exact Hwf|]. split; [split; constructor|].
    split; [constructor|]. split; [constructor|].
    simpl. rewrite addresses_nil.
    split; [rewrite union_empty_r_L; reflexivity|].
    split; [apply disjoint_empty_r | exact Hh].
Qed.

(** A cache whose arena has [allocSize_ = 128]: two buckets are created, the
    cache is cleared, which keeps both elements on the free list, and a
    bucket is created in the first of them.  [shrink_to_fit] then releases
    the other element, in block 2, and leaves bucket 3 in block 1. *)
Lemma cache_shrink_to_fit_keeps_witness :
  let c0 := Cache.mk 8 128 (Arena.mk 128 0 [] [] 0) ∅ in
  exists c h,
    Session.run
      [Session.Do (Trace.Create 1%N); Session.Do (Trace.Create 2%N);
       Session.Clear; Session.Do (Trace.Create 3%N)] c0 Example.heap0
    = Ok (c, h)
    /\ Cache.map_ c !! 3%N = Some (1%nat, 0)
    /\ Arena.free_ (Cache.arena_ c) = [Element.mk 2%nat 128 0]
    /\ is_Some (live h !! 2%nat)
    /\ Cache.find 3%N (Cache.shrink_to_fit c h).1 = Cache.find 3%N c
    /\ Arena.free_ (Cache.arena_ (Cache.shrink_to_fit c h).1) = []
    /\ live (Cache.shrink_to_fit c h).2 !! 2%nat = None
    /\ is_Some (live (Cache.shrink_to_fit c h).2 !! 1%nat).
Proof.
  intros c0.
  assert (Hrun : exists c h,
             Session.run
               [Session.Do (Trace.Create 1%N); Session.Do (Trace.Create 2%N);
                Session.Clear; Session.Do (Trace.Create 3%N)] c0
               Example.heap0 = Ok (c, h)
             /\ Cache.map_ c !! 3%N = Some (1%nat, 0)
             /\ Arena.free_ (Cache.arena_ c) = [Element.mk 2%nat 128 0]
             /\ live h !! 2%nat = Some 152).
  { vm_compute. eexists _, _. repeat split; reflexivity. }
  destruct Hrun as (c & h & Hrun & Hmap & Hfree & Hlive2).
  exists c, h. split; [exact Hrun|]. split; [exact Hmap|].
  split; [exact Hfree|]. split; [rewrite Hlive2; eauto|].
  assert (Hh : heap_wf Example.heap0).
  { intros ad [v Hv]. simpl in Hv.
    apply lookup_singleton_Some in Hv as [<- _]. simpl. lia. }
  assert (Hbs : Bucket.header_size <= 128 < 2 ^ 32)
    by (unfold Bucket.header_size; lia).
  assert (Hsz : SizeT.in_range 128)
    by (unfold SizeT.in_range; rewrite modulus_eq; lia).
  assert (Ht : Forall Session.typed
                 [Session.Do (Trace.Create 1%N);
                  Session.Do (Trace.Create 2%N);
                  Session.Clear; Session.Do (Trace.Create 3%N)])
    by (repeat constructor).
  pose proof (session_run_good (dom (live Example.heap0)) _ _ _ _ _
                (cache_good_empty Example.heap0 8 128 128 0 Hh Hbs Hsz)
                Ht Hrun) as Hg.
  destruct (cache_shrink_to_fit_keeps _ c h Hg)
    as (Hfind & _ & _ & Hnil & Hrel & Hkept & _).
  split; [apply Hfind|]. split; [exact Hnil|].
  split.
  - apply (Hrel (Element.mk 2%nat 128 0)).
    rewrite Hfree. apply list_elem_of_here.
  - apply (Hkept 3%N (1%nat, 0) Hmap).
Defined.

(** ** Swapping two caches *)

(** X13.  [swap(lhs, rhs)] exchanges what the two caches hold: every lookup
    in one gives afterwards what it gave in the other.  The used elements
    follow the maps while [allocSize_] and the free list stay where they
    were, so both caches are as consistent as before: mapped blobs are in
    the used list of their own arena, and every free element still has the
    capacity [allocSize_] of the arena it is in.  Swapping twice restores
    both caches. *)
Theorem cache_swap_exchanges
  (base : gset addr) (h : heap) (l r : Cache.cache_t) :
  pair_good base h l r ->
  (forall i, Cache.find i (Cache.swap l r).1 = Cache.find i r)
  /\ (forall i, Cache.find i (Cache.swap l r).2 = Cache.find i l)
  /\ pair_good base h (Cache.swap l r).1 (Cache.swap l r).2
  /\ Cache.swap (Cache.swap l r).1 (Cache.swap l r).2 = (l, r).
Proof.
  intros (((Hlwf & Hlbs) & (Hlau & Hlaf) & Hlfu)
          & ((Hrwf & Hrbs) & (Hrau & Hraf) & Hrfu) & Ho & Hlb & Hrb).
  destruct Hlwf as (Hl1 & Hl2 & Hl3 & Hl4).
  destruct Hrwf as (Hr1 & Hr2 & Hr3 & Hr4).
  destruct l as [lk lb [lsz ln lu lf lw] lm].
  destruct r as [rk rb [rsz rn ru rf rw] rm].
  cbn [Cache.swap Arena.swap fst snd Cache.arena_ Cache.block_size_
       Cache.map_ Cache.key_size_ Arena.allocSize_ Arena.nalloc_
       Arena.used_ Arena.free_ Arena.when_] in *.
  split; [reflexivity|]. split; [reflexivity|]. split; [|reflexivity].
  split; [|split; [|split; [|split]]].
  - split; [split; [|exact Hrbs]|split; [split; assumption | exact Hlfu]].
    split; [exact Hl1|]. split; [exact Hr2|]. split; assumption.
  - split; [split; [|exact Hlbs]|split; [split; assumption | exact Hrfu]].
    split; [exact Hr1|]. split; [exact Hl2|]. split; assumption.
  - cbn [Cache.arena_ Arena.used_ Arena.free_].
    eapply owns_perm; [|exact Ho].
    rewrite !fmap_app, <- !app_assoc.
    etrans; [apply Permutation_app_head, Permutation_app_swap_app|].
    etrans; [apply Permutation_app_swap_app|].
    apply Permutation_app_head, Permutation_app_swap_app.
  - intros i p Hi. destruct (Hrb i p Hi) as (e & cont & He & Hrest).
    exists e, cont. split; [exact He | exact Hrest].
  - intros i p Hi. destruct (Hlb i p Hi) as (e & cont & He & Hrest).
    exists e, cont. split; [exact He | exact Hrest].
Qed.

(** A cache in use and a new one side by side. *)
Lemma pair_good_new base h l key_size block_size now :
  cache_good base h l ->
  Bucket.header_size <= block_size < 2 ^ 32 ->
  pair_good base h l (Cache.init key_size block_size now).
Proof.
  intros [(Hwf & _ & Hblobs) (_ & Hal & Hfu & Ho)] Hbs.
  split; [split; [exact Hwf | split; assumption]|].
  split.
  { split; [split; [apply arena_wf_init | exact Hbs]|].
    split; [apply arena_aligned_init | constructor]. }
  split; [cbn [Cache.init Cache.arena_ Arena.init Arena.used_ Arena.free_];
          rewrite !app_nil_r; exact Ho|].
  split; [exact Hblobs | apply map_Forall_empty].
Qed.

Lemma cache_swap_exchanges_witness :
  exists c h,
    Session.run (take 2 example_cache_session) Example.cache0 Example.heap0
    = Ok (c, h)
    /\ Cache.find 2%N c = Some (2%N, Bucket.mk 128 (2%nat, 0))
    /\ Cache.find 2%N (Cache.swap c (Cache.init 8 128 5)).1 = None
    /\ Cache.find 2%N (Cache.swap c (Cache.init 8 128 5)).2
       = Some (2%N, Bucket.mk 128 (2%nat, 0)).
Proof.
  assert (Hrun : exists c h,
             Session.run (take 2 example_cache_session) Example.cache0
               Example.heap0 = Ok (c, h)
             /\ Cache.find 2%N c = Some (2%N, Bucket.mk 128 (2%nat, 0))).
  { vm_compute. eexists _, _. split; reflexivity. }
  destruct Hrun as (c & h & Hrun & Hfind).
  exists c, h. split; [exact Hrun|]. split; [exact Hfind|].
  assert (Hh : heap_wf Example.heap0).
  { intros ad [v Hv]. simpl in Hv.
    apply lookup_singleton_Some in Hv as [<- _]. simpl. lia. }
  assert (Hbs : Bucket.header_size <= 128 < 2 ^ 32)
    by (unfold Bucket.header_size; lia).
  assert (Ht : Forall Session.typed (take 2 example_cache_session)).
  { unfold example_cache_session. simpl. repeat constructor; simpl; lia. }
  pose proof (session_run_good (dom (live Example.heap0)) _ _ _ _ _
                (cache_good_init Example.heap0 8 128 0 Hh Hbs) Ht Hrun) as Hg.
  destruct (cache_swap_exchanges _ h c (Cache.init 8 128 5)
              (pair_good_new _ h c 8 128 5 Hg Hbs)) as (Hl & Hr & _).
  rewrite Hl, Hr. split; [reflexivity | exact Hfind].
Defined.

(** ** The benchmark loop *)

Lemma time_block_loop {G S item : Type} (g : G -> item * G)
  (f : item -> S -> S * bool) (k : nat) :
  (forall x s, (f x s).2 = false) ->
  forall i gs s p,
    Bench.loop g f k i gs s p
    = ((Bench.generate g k gs).2,
       fold_left (fun s x => (f x s).1) (Bench.generate g k gs).1 s,
       Bench.mk_progress
         (Bench.shown p
          ++ ((fun j => (SizeT.add (Bench.batchStart_ p) j, Bench.total_ p))
                <$> filter (fun j => j mod 1000 = 0) (seqZ i (Z.of_nat k))))
         (Bench.total_ p) (Bench.batchStart_ p),
       true).
Proof.
  intros Hf. induction k as [|k IH]; intros i gs s p.
  - cbn [Bench.loop Bench.generate fst snd fold_left].
    change (Z.of_nat 0) with 0. rewrite seqZ_nil by lia.
    rewrite filter_nil, fmap_nil, app_nil_r. destruct p; reflexivity.
  - cbn [Bench.loop Bench.generate].
    destruct (g gs) as [x gs'] eqn:Hg.
    specialize (Hf x s). destruct (f x s) as [s' thrown] eqn:Hfx.
    cbn [snd] in Hf. subst thrown. rewrite IH. clear IH.
    destruct (Bench.generate g k gs') as [xs gs''] eqn:Hgen.
    cbn [fst snd fold_left]. rewrite Hfx. cbn [fst].
    rewrite (seqZ_cons i) by lia.
    replace (Z.pred (Z.of_nat (Datatypes.S k))) with (Z.of_nat k) by lia.
    replace (Z.succ i) with (i + 1) by lia.
    rewrite filter_cons.
    destruct (Z.eqb_spec (i mod 1000) 0) as [Hm|Hm].
    + rewrite decide_True by exact Hm.
      cbn [Bench.update Bench.shown Bench.total_ Bench.batchStart_].
      rewrite fmap_cons, <- app_assoc. reflexivity.
    + rewrite decide_False by exact Hm. reflexivity.
Qed.

(** The multiples of 1000 below [n]. *)
Lemma multiples_below (n : nat) :
  filter (fun j => j mod 1000 = 0) (seqZ 0 (Z.of_nat n))
  = (fun q => 1000 * q) <$> seqZ 0 ((Z.of_nat n + 999) / 1000).
Proof.
  induction n as [|n IH].
  - reflexivity.
  - replace (Z.of_nat (Datatypes.S n)) with (Z.of_nat n + 1) by lia.
    rewrite seqZ_app by lia. rewrite filter_app, IH. clear IH.
    rewrite Z.add_0_l.
    rewrite (seqZ_cons (Z.of_nat n) 1) by lia.
    change (Z.pred 1) with 0. rewrite (seqZ_nil _ 0) by lia.
    rewrite filter_cons, filter_nil.
    pose proof (Z.div_mod (Z.of_nat n) 1000 ltac:(lia)) as Hdm.
    pose proof (Z.mod_pos_bound (Z.of_nat n) 1000 ltac:(lia)) as Hb.
    assert (Hq : 0 <= Z.of_nat n / 1000) by (apply Z.div_pos; lia).
    set (q := Z.of_nat n / 1000) in *. set (r := Z.of_nat n mod 1000) in *.
    destruct (decide (r = 0)) as [Hr|Hr].
    + assert (H1 : (Z.of_nat n + 999) / 1000 = q).
      { symmetry. apply (Z.div_unique _ _ _ 999); lia. }
      assert (H2 : (Z.of_nat n + 1 + 999) / 1000 = q + 1).
      { symmetry. apply (Z.div_unique _ _ _ 0); lia. }
      rewrite H1, H2.
      rewrite (seqZ_app 0 q 1) by lia.
      rewrite fmap_app. f_equal.
      rewrite Z.add_0_l. rewrite (seqZ_cons q 1) by lia.
      change (seqZ (Z.succ q) (Z.pred 1)) with (@nil Z).
      cbn [fmap list_fmap]. f_equal. lia.
    + assert (H1 : (Z.of_nat n + 999) / 1000 = q + 1).
      { symmetry. apply (Z.div_unique _ _ _ (r - 1)); lia. }
      assert (H2 : (Z.of_nat n + 1 + 999) / 1000 = q + 1).
      { symmetry. apply (Z.div_unique _ _ _ r); lia. }
      rewrite H1, H2, app_nil_r. reflexivity.
Qed.

(** X14.  When [f] does not throw, [time_block(n, g, f, progress)] draws
    [n] values from the generator and applies [f] to them in the order they
    are drawn; the progress is updated once for every multiple of 1000
    below [n], that is [(n + 999) / 1000] times, with the counter added to
    the start of the batch. *)
Theorem time_block_runs
  {G S item : Type} (g : G -> item * G) (f : item -> S -> S * bool)
  (n : Z) (gs : G) (s : S) (p : Bench.BenchProgress) :
  0 <= n ->
  (forall x s, (f x s).2 = false) ->
  Bench.time_block g f n gs s p
  = ((Bench.generate g (Z.to_nat n) gs).2,
     fold_left (fun s x => (f x s).1) (Bench.generate g (Z.to_nat n) gs).1 s,
     Bench.mk_progress
       (Bench.shown p
        ++ ((fun q => (SizeT.add (Bench.batchStart_ p) (1000 * q),
                       Bench.total_ p))
              <$> seqZ 0 ((n + 999) / 1000)))
       (Bench.total_ p) (Bench.batchStart_ p),
     true)
  /\ length (Bench.generate g (Z.to_nat n) gs).1 = Z.to_nat n.
Proof.
  intros Hn Hf. split.
  - unfold Bench.time_block. rewrite (time_block_loop g f _ Hf).
    rewrite multiples_below, Z2Nat.id by exact Hn.
    rewrite <- list_fmap_compose. reflexivity.
  - generalize (Z.to_nat n) as k. intros k. revert gs.
    induction k as [|k IH]; intros gs; cbn [Bench.generate]; [reflexivity|].
    destruct (g gs) as [x gs']. specialize (IH gs').
    destruct (Bench.generate g k gs') as [xs gs'']. cbn [fst length] in *.
    f_equal. exact IH.
Qed.

Lemma time_block_runs_witness :
  let g := fun c : Z => (c * c, c + 1) in
  let f := fun (x : Z) (s : list Z) => (x :: s, false) in
  Bench.time_block g f 2500 0 [] (Bench.init 4000)
  = ((Bench.generate g 2500 0).2,
     fold_left (fun s x => (f x s).1) (Bench.generate g 2500 0).1 [],
     Bench.mk_progress [(0, 4000); (0, 4000); (1000, 4000); (2000, 4000)]
       4000 0,
     true)
  /\ length (Bench.generate g 2500 0).1 = 2500%nat.
Proof.
  intros g f.
  exact (time_block_runs g f 2500 0 [] (Bench.init 4000) ltac:(lia)
           (fun x s => eq_refl)).
Defined.

Lemma generate_gen_key_value {item : Type} (ts : Z -> item) (k : nat) :
  forall cur,
    0 <= cur < SizeT.modulus -> cur + Z.of_nat k <= SizeT.modulus ->
    Bench.generate (Bench.gen_key_value ts) k cur
    = (ts <$> seqZ cur (Z.of_nat k), SizeT.wrap (cur + Z.of_nat k)).
Proof.
  induction k as [|k IH]; intros cur H0 Hle.
  - cbn [Bench.generate]. change (Z.of_nat 0) with 0.
    rewrite seqZ_nil by lia. rewrite Z.add_0_r.
    rewrite wrap_small by exact H0. reflexivity.
  - cbn [Bench.generate]. unfold Bench.gen_key_value at 1.
    rewrite (seqZ_cons cur) by lia.
    replace (Z.pred (Z.of_nat (Datatypes.S k))) with (Z.of_nat k) by lia.
    destruct (Z.eq_dec (cur + 1) SizeT.modulus) as [Heq|Hne].
    + assert (k = 0%nat) by lia. subst k.
      unfold SizeT.add. rewrite Heq.
      cbn [Bench.generate]. change (Z.of_nat 0) with 0.
      rewrite seqZ_nil by lia.
      replace (cur + Z.of_nat 1) with SizeT.modulus by lia. reflexivity.
    + unfold SizeT.add. rewrite (wrap_small (cur + 1))
        by (unfold SizeT.in_range; lia).
      rewrite IH by lia.
      replace (Z.succ cur) with (cur + 1) by lia.
      replace (cur + 1 + Z.of_nat k) with (cur + Z.of_nat (Datatypes.S k))
        by lia.
      reflexivity.
Qed.

(** X15.  Driven by a [gen_key_value] that starts at [cur],
    [time_block(n, ...)] applies [f] to the items [ts[cur]], ...,
    [ts[cur + n - 1]] of the store, in this order, and leaves the generator
    at [cur + n]. *)
Theorem time_block_gen_key_value
  {S item : Type} (ts : Z -> item) (f : item -> S -> S * bool)
  (n cur : Z) (s : S) (p : Bench.BenchProgress) :
  0 <= n -> 0 <= cur < SizeT.modulus -> cur + n <= SizeT.modulus ->
  (forall x s, (f x s).2 = false) ->
  let r := Bench.time_block (Bench.gen_key_value ts) f n cur s p in
  r.1.1.1 = SizeT.wrap (cur + n)
  /\ r.1.1.2 = fold_left (fun s x => (f x s).1) (ts <$> seqZ cur n) s
  /\ r.2 = true.
Proof.
  intros Hn Hcur Hle Hf r. subst r.
  unfold Bench.time_block.
  rewrite (time_block_loop (Bench.gen_key_value ts) f _ Hf). cbn [fst snd].
  rewrite (generate_gen_key_value ts (Z.to_nat n) cur Hcur)
    by (rewrite Z2Nat.id by lia; exact Hle).
  rewrite Z2Nat.id by lia. cbn [fst snd]. repeat split.
Qed.

Lemma time_block_gen_key_value_witness :
  let ts := fun i : Z => 2 * i in
  let f := fun (x : Z) (s : list Z) => (x :: s, false) in
  let r := Bench.time_block (Bench.gen_key_value ts) f 3 5 []
             (Bench.init 3) in
  r.1.1.1 = 8 /\ r.1.1.2 = [14; 12; 10] /\ r.2 = true.
Proof.
  intros ts f r.
  destruct (time_block_gen_key_value ts f 3 5 [] (Bench.init 3)
              ltac:(lia) ltac:(rewrite modulus_eq; lia)
              ltac:(rewrite modulus_eq; lia)
              (fun x s => eq_refl)) as (H1 & H2 & H3).
  split; [exact H1|]. split; [exact H2 | exact H3].
Defined.

(** ** Iterating over the cache *)

(** X16.  Iterating from [begin()] to [end()] visits exactly what [find]
    finds: a pair is visited if and only if [find] returns it for its
    index; each index is visited once, so [size()] pairs are visited, and
    none if and only if [empty()] holds. *)
Theorem range_find (c : Cache.cache_t) :
  (forall i v, (i, v) ∈ Cache.range c <-> Cache.find i c = Some (i, v))
  /\ NoDup ((fun x => x.1) <$> Cache.range c)
  /\ length (Cache.range c) = Cache.size c
  /\ (Cache.empty c = true <-> Cache.range c = []).
Proof.
  unfold Cache.range. split; [|split; [|split]].
  - intros i v. rewrite list_elem_of_fmap. unfold Cache.find. split.
    + intros ([j p] & Heq & Hin). apply elem_of_map_to_list in Hin.
      unfold Cache.transform in Heq. cbn [fst snd] in Heq.
      injection Heq as -> ->. rewrite Hin. reflexivity.
    + destruct (Cache.map_ c !! i) as [p|] eqn:Hi; [|discriminate].
      intros [= <-]. exists (i, p). split; [reflexivity|].
      apply elem_of_map_to_list. exact Hi.
  - rewrite <- list_fmap_compose.
    apply (NoDup_fst_map_to_list (Cache.map_ c)).
  - rewrite length_fmap. unfold Cache.size. apply length_map_to_list.
  - unfold Cache.empty. rewrite bool_decide_eq_true. split.
    + intros ->. rewrite map_to_list_empty. reflexivity.
    + intros Hnil. apply fmap_nil_inv in Hnil.
      apply map_to_list_empty_iff. exact Hnil.
Qed.
